(** * A shallow embedding of [parser_lexer.py]

    The lexer ([Lexer.tokenize], [Lexer.peek], [Lexer.consume]) and the
    recursive-descent parser ([Parser.*]) of the boolean-expression front
    end, followed by the properties of the specification that were checked
    against them. *)

From Stdlib Require Import String Ascii List Arith Bool Lia DecimalString.
Import ListNotations.
Open Scope string_scope.

(** ** Tokens *)

(** [class Token]: the [type] field holds the name of the regex group that
    matched (or ['EOF']), as the source stores it: a string. *)
Module Token.
Record t : Type := Build { type : string; value : string; position : nat }.
End Token.

(** ** Character classes of the token patterns *)

Definition in_range (lo hi c : ascii) : bool :=
  Nat.leb (nat_of_ascii lo) (nat_of_ascii c)
  && Nat.leb (nat_of_ascii c) (nat_of_ascii hi).

(** [[a-zA-Z]] *)
Definition is_letter (c : ascii) : bool :=
  in_range "a" "z" c || in_range "A" "Z" c.

(** [[a-zA-Z0-9-_]]: after the range [0-9] the hyphen is a literal. *)
Definition is_id_char (c : ascii) : bool :=
  is_letter c || in_range "0" "9" c || Ascii.eqb c "-" || Ascii.eqb c "_".

(** [[&|~()]] *)
Definition is_op_char (c : ascii) : bool :=
  Ascii.eqb c "&" || Ascii.eqb c "|" || Ascii.eqb c "~"
  || Ascii.eqb c "(" || Ascii.eqb c ")".

(** [[ \t\n\r]] *)
Definition is_space (c : ascii) : bool :=
  Ascii.eqb c " " || Ascii.eqb c "009" || Ascii.eqb c "010" || Ascii.eqb c "013".

(** [.] without DOTALL: anything but a line feed. *)
Definition is_dot (c : ascii) : bool := negb (Ascii.eqb c "010").

(** Length of the longest prefix of [s] whose characters satisfy [p]: what a
    greedy [*] or [+] over a character class consumes when nothing follows
    it in the pattern. *)
Fixpoint run_length (p : ascii -> bool) (s : string) : nat :=
  match s with
  | String c s' => if p c then S (run_length p s') else 0
  | EmptyString => 0
  end.

(** ** The token regex

    [tok_regex] is the alternation, in this order, of the named groups of
    [token_specification].  Python tries the alternatives from left to
    right and keeps the first one that matches at the current position.
    [match_at s] is the group name and the length of the match found at the
    start of [s]. *)
Definition match_at (s : string) : option (string * nat) :=
  match s with
  | EmptyString => None
  | String c rest =>
      if Ascii.eqb c "#" then Some ("COMMENT", S (run_length is_dot rest))
      else if prefix "fn" s then Some ("FN", 2)
      else if prefix "true" s then Some ("BOOL", 4)
      else if prefix "false" s then Some ("BOOL", 5)
      else if is_letter c then Some ("ID", S (run_length is_id_char rest))
      else if is_op_char c then Some ("OP", 1)
      else if Ascii.eqb c "," then Some ("COMMA", 1)
      else if is_space c then Some ("WHITESPACE", S (run_length is_space rest))
      else if is_dot c then Some ("MISMATCH", 1)
      else None
  end.

(** A match object: [mo.lastgroup], [mo.group()], [mo.start()]. *)
Module Match.
Record t : Type := Build { lastgroup : string; group : string; start : nat }.
End Match.

(** [re.finditer]: the successive non-overlapping matches, left to right.
    [pos] is the offset of [s] in the text and [skip] the number of
    characters of [s] that still belong to the match found last; the scan
    resumes right after it.  Where nothing matches the scan moves on by one
    character. *)
Fixpoint finditer_from (pos skip : nat) (s : string) : list Match.t :=
  match s with
  | EmptyString => []
  | String _ s' =>
      match skip with
      | S k => finditer_from (S pos) k s'
      | O =>
          match match_at s with
          | Some (kind, len) =>
              Match.Build kind (substring 0 len s) pos
                :: finditer_from (S pos) (len - 1) s'
          | None => finditer_from (S pos) 0 s'
          end
      end
  end.

Definition finditer (text : string) : list Match.t := finditer_from 0 0 text.

(** ** Exceptions *)

(** [RuntimeError] is raised by the lexer, [SyntaxError] by the parser;
    [AttributeError] is what reading [.type] or [.value] of [None] raises. *)
Inductive Exn : Type :=
| RuntimeError (msg : string)
| SyntaxError (msg : string)
| AttributeError.

(** [f'{position}'] *)
Definition str_of_nat (n : nat) : string := NilZero.string_of_uint (Nat.to_uint n).

(** The message of the lexer's [RuntimeError]. *)
Definition unexpected_character (position : nat) (value : string) : string :=
  "Unexpected character at position " ++ str_of_nat position ++ ": " ++ value.

(** ** [Lexer.tokenize] *)

(** The body of the [for mo in re.finditer(...)] loop, run over the matches
    in order; [tokens] is the list built so far. *)
Fixpoint tokenize_loop (ms : list Match.t) (tokens : list Token.t)
  : Exn + list Token.t :=
  match ms with
  | [] => inr tokens
  | mo :: ms' =>
      let kind := Match.lastgroup mo in
      let value := Match.group mo in
      let position := Match.start mo in
      if (kind =? "WHITESPACE") || (kind =? "COMMENT") then tokenize_loop ms' tokens
      else if kind =? "MISMATCH" then
        inl (RuntimeError (unexpected_character position value))
      else tokenize_loop ms' (tokens ++ [Token.Build kind value position])%list
  end.

Definition tokenize (text : string) : Exn + list Token.t :=
  match tokenize_loop (finditer text) [] with
  | inl e => inl e
  | inr tokens => inr (tokens ++ [Token.Build "EOF" "" (String.length text)])%list
  end.

(** ** [class Lexer]: the token list and the read position *)

Module Lexer.
Record t : Type := Build { text : string; position : nat; tokens : list Token.t }.

(** [peek]: the token at [position], or [None] past the end. *)
Definition peek (l : t) : option Token.t :=
  if Nat.ltb (position l) (List.length (tokens l)) then nth_error (tokens l) (position l)
  else None.

(** [consume]: the peeked token, and the lexer with [position] advanced
    (also when nothing was there). *)
Definition consume (l : t) : option Token.t * t :=
  (peek l, Build (text l) (position l + 1) (tokens l)).
End Lexer.

(** [Lexer.__init__]: the tokens are computed once, at construction. *)
Definition Lexer_init (text : string) : Exn + Lexer.t :=
  match tokenize text with
  | inl e => inl e
  | inr tokens => inr (Lexer.Build text 0 tokens)
  end.

(** ** Syntax trees

    The parser builds dictionaries; one constructor per value of their
    ["tag"] entry, with the dictionary's other entries as arguments.  The
    tag of a binary node is the text of the operator token. *)
#[warnings="-register-all"]
Inductive Node : Type :=
| NDef (body : Node) (formals : list string) (name : string)
| NBin (rand1 rand2 : Node) (tag : string)
| NNot (rand1 : Node)
| NBool (value : string)
| NId (name : string)
| NApp (args : list Node) (name : string).

Definition And (l r : Node) : Node := NBin l r "&".
Definition Or (l r : Node) : Node := NBin l r "|".

(** ** [class Parser]: state, outcomes and the monad threading them *)

Record Parser : Type := { lexer : Lexer.t; current_token : option Token.t }.

(** [Parser.__init__] reads the first token. *)
Definition Parser_init (l : Lexer.t) : Parser :=
  let (tok, l') := Lexer.consume l in
  {| lexer := l'; current_token := tok |}.

(** A method call returns a value, or raises, in both cases leaving a parser
    state behind; [OutOfFuel] is the embedding's own, for a recursion cut
    short. *)
Inductive Outcome (A : Type) : Type :=
| Ok (a : A) (p : Parser)
| Raise (e : Exn) (p : Parser)
| OutOfFuel.
Arguments Ok {A} a p.
Arguments Raise {A} e p.
Arguments OutOfFuel {A}.

Definition M (A : Type) : Type := Parser -> Outcome A.

Definition ret {A} (a : A) : M A := fun p => Ok a p.

Definition bind {A B} (m : M A) (f : A -> M B) : M B :=
  fun p =>
    match m p with
    | Ok a p' => f a p'
    | Raise e p' => Raise e p'
    | OutOfFuel => OutOfFuel
    end.

Definition raise {A} (e : Exn) : M A := fun p => Raise e p.

Definition out_of_fuel {A} : M A := fun _ => OutOfFuel.

Notation "x <- m ;; k" := (bind m (fun x => k))
  (at level 61, m at next level, right associativity).
Notation "m ;; k" := (bind m (fun _ => k))
  (at level 61, right associativity).

(** Reading an attribute of [self.current_token]: fails on [None]. *)
Definition current : M Token.t :=
  fun p =>
    match current_token p with
    | Some tok => Ok tok p
    | None => Raise AttributeError p
    end.

(** [self.current_token = self.lexer.consume()] *)
Definition advance : M unit :=
  fun p =>
    let (tok, l') := Lexer.consume (lexer p) in
    Ok tt {| lexer := l'; current_token := tok |}.

(** The message of [Parser.error]. *)
Definition error_message (expected : string) (token : Token.t) (text : string)
  : string :=
  "error: expecting '" ++ expected ++ "' but got '" ++ Token.value token ++ "'"
  ++ String "010" (text ++ String "010"
       (string_of_list_ascii (repeat " "%char (Token.position token)) ++ "^")).

(** [Parser.error] *)
Definition error {A} (expected : string) : M A :=
  token <- current ;;
  fun p => Raise (SyntaxError (error_message expected token (Lexer.text (lexer p)))) p.

(** [Parser.consume] *)
Definition consume (expected_type : string) : M Token.t :=
  cur <- current ;;
  if Token.type cur =? expected_type then
    advance ;; ret cur
  else error expected_type.

(** [x in ['&', '|']] *)
Definition is_binary_op (v : string) : bool := (v =? "&") || (v =? "|").

(** ** The expression grammar

    Every call and every loop iteration takes one unit of fuel.  The [while]
    loops are the functions [expression_loop] and [args_loop], which carry
    the loop's variable. *)
Fixpoint parse_expression (fuel : nat) : M Node :=
  match fuel with
  | O => out_of_fuel
  | S n =>
      left <- parse_prefix_expression n ;;
      expression_loop n left
  end

with expression_loop (fuel : nat) (left : Node) : M Node :=
  match fuel with
  | O => out_of_fuel
  | S n =>
      cur <- current ;;
      if is_binary_op (Token.value cur) then
        tok <- consume "OP" ;;
        let op := Token.value tok in
        right <- parse_prefix_expression n ;;
        expression_loop n (NBin left right op)
      else ret left
  end

with parse_prefix_expression (fuel : nat) : M Node :=
  match fuel with
  | O => out_of_fuel
  | S n =>
      cur <- current ;;
      if Token.value cur =? "~" then
        consume "OP" ;;
        operand <- parse_prefix_expression n ;;
        ret (NNot operand)
      else parse_primary_expression n
  end

with parse_primary_expression (fuel : nat) : M Node :=
  match fuel with
  | O => out_of_fuel
  | S n =>
      cur <- current ;;
      if Token.type cur =? "BOOL" then
        tok <- consume "BOOL" ;;
        ret (NBool (Token.value tok))
      else if Token.type cur =? "ID" then
        id_token <- consume "ID" ;;
        nxt <- current ;;
        if Token.value nxt =? "(" then
          parse_function_application n (Token.value id_token)
        else ret (NId (Token.value id_token))
      else if Token.value cur =? "(" then
        consume "OP" ;;
        expr <- parse_expression n ;;
        consume "OP" ;;
        ret expr
      else error "primary expression"
  end

with parse_function_application (fuel : nat) (name : string) : M Node :=
  match fuel with
  | O => out_of_fuel
  | S n =>
      consume "OP" ;;
      cur <- current ;;
      args <- (if negb (Token.value cur =? ")") then
                 arg <- parse_expression n ;;
                 args_loop n [arg]
               else ret []) ;;
      consume "OP" ;;
      ret (NApp args name)
  end

with args_loop (fuel : nat) (args : list Node) : M (list Node) :=
  match fuel with
  | O => out_of_fuel
  | S n =>
      cur <- current ;;
      if Token.type cur =? "COMMA" then
        consume "COMMA" ;;
        arg <- parse_expression n ;;
        args_loop n (args ++ [arg])%list
      else ret args
  end.

(** ** Definitions and programs *)

(** The [while] loop of [parse_definition]. *)
Fixpoint formals_loop (fuel : nat) (formals : list string) : M (list string) :=
  match fuel with
  | O => out_of_fuel
  | S n =>
      cur <- current ;;
      if Token.type cur =? "COMMA" then
        consume "COMMA" ;;
        tok <- consume "ID" ;;
        formals_loop n (formals ++ [Token.value tok])%list
      else ret formals
  end.

Definition parse_definition (fuel : nat) : M Node :=
  consume "FN" ;;
  tok <- consume "ID" ;;
  let name := Token.value tok in
  consume "OP" ;;
  cur <- current ;;
  formals <- (if Token.type cur =? "ID" then
                first <- consume "ID" ;;
                formals_loop fuel [Token.value first]
              else ret []) ;;
  consume "OP" ;;
  body <- parse_expression fuel ;;
  ret (NDef body formals name).

(** The [while] loop of [parse_program]. *)
Fixpoint program_loop (fuel : nat) (result : list Node) : M (list Node) :=
  match fuel with
  | O => out_of_fuel
  | S n =>
      cur <- current ;;
      if negb (Token.type cur =? "EOF") then
        if Token.type cur =? "FN" then
          item <- parse_definition n ;;
          program_loop n (result ++ [item])%list
        else
          item <- parse_expression n ;;
          program_loop n (result ++ [item])%list
      else ret result
  end.

Definition parse_program (fuel : nat) : M (list Node) := program_loop fuel [].

(** ** The body of [main]'s [try]

    Fuel that suffices for every token list (see [parse_program_total]). *)
Definition enough_fuel (tokens : list Token.t) : nat := 3 * List.length tokens + 4.

Inductive Result : Type :=
| Parsed (program : list Node)
| Failed (e : Exn)
| Unfinished.

Definition parse_tokens (text : string) (tokens : list Token.t) : Outcome (list Node) :=
  parse_program (enough_fuel tokens) (Parser_init (Lexer.Build text 0 tokens)).

Definition run (text : string) : Result :=
  match Lexer_init text with
  | inl e => Failed e
  | inr l =>
      match parse_program (enough_fuel (Lexer.tokens l)) (Parser_init l) with
      | Ok program _ => Parsed program
      | Raise e _ => Failed e
      | OutOfFuel => Unfinished
      end
  end.

(** What [main] prints on [stderr] when the run fails: [str(e)]. *)
Definition message_of (e : Exn) : string :=
  match e with
  | RuntimeError msg => msg
  | SyntaxError msg => msg
  | AttributeError => "'NoneType' object has no attribute"
  end.

(** * Vocabulary of the properties *)

(** What [tokenize] guarantees of its result (see [tokenize_ends_with_EOF]):
    there is a last token and its type is ['EOF']. *)
Definition ends_with_EOF (toks : list Token.t) : Prop :=
  exists ts t, toks = (ts ++ [t])%list /\ Token.type t = "EOF".

(** The parser state over the text [txt] and the tokens [toks] in which [i]
    tokens have been read from the lexer; the lookahead is the last one
    read. *)
Definition st (txt : string) (toks : list Token.t) (i : nat) : Parser :=
  {| lexer := Lexer.Build txt i toks; current_token := nth_error toks (i - 1) |}.

(** [e] is the [SyntaxError] that [Parser.error] builds from the lookahead
    of [st txt toks j]. *)
Definition syntax_error_at (txt : string) (toks : list Token.t) (e : Exn) (j : nat)
  : Prop :=
  exists expected tok,
    nth_error toks (j - 1) = Some tok
    /\ e = SyntaxError (error_message expected tok txt).

(** The outcome [r] of a call made with fuel [n] in state [st txt toks i]: a
    return leaves the parser at least [s] tokens further and within the
    list; a raise is a syntax error on an actual token; fuel runs out only
    below [3 * (length toks - i) + k]. *)
Definition good (txt : string) (toks : list Token.t) {A} (s n k i : nat)
  (r : Outcome A) : Prop :=
  match r with
  | Ok _ p => exists j, p = st txt toks j /\ i + s <= j <= List.length toks
  | Raise e p =>
      exists j, p = st txt toks j /\ i <= j <= List.length toks
                /\ syntax_error_at txt toks e j
  | OutOfFuel => n + 3 * i < 3 * List.length toks + k
  end.

(** The marker line of a diagnostic: [pos] spaces, then a caret. *)
Definition marker_line (pos : nat) : string :=
  string_of_list_ascii (repeat " "%char pos) ++ "^".

(** [msg] is a caret diagnostic for [text] at [pos]: a problem statement
    and, on the two lines after it, the source text and the marker line. *)
Definition caret_diagnostic (text : string) (pos : nat) (msg : string) : Prop :=
  exists problem,
    msg = problem ++ String "010" (text ++ String "010" (marker_line pos)).

(** Whether the character [c] occurs in [s]. *)
Fixpoint occurs (c : ascii) (s : string) : bool :=
  match s with
  | EmptyString => false
  | String d s' => Ascii.eqb c d || occurs c s'
  end.

(** Tokens as the lexer emits them: an identifier (its text starts with a
    letter), the binary operators, the negation sign, the comma, the
    parentheses and the end of input. *)
Definition identifier_token (t : Token.t) : Prop :=
  Token.type t = "ID"
  /\ exists c r, Token.value t = String c r /\ is_letter c = true.

Definition binary_operator_token (t : Token.t) : Prop :=
  Token.type t = "OP" /\ (Token.value t = "&" \/ Token.value t = "|").

Definition not_token (t : Token.t) : Prop :=
  Token.type t = "OP" /\ Token.value t = "~".

Definition comma_token (t : Token.t) : Prop :=
  Token.type t = "COMMA" /\ Token.value t = ",".

Definition open_token (t : Token.t) : Prop :=
  Token.type t = "OP" /\ Token.value t = "(".

Definition close_token (t : Token.t) : Prop :=
  Token.type t = "OP" /\ Token.value t = ")".

Definition end_token (t : Token.t) : Prop :=
  Token.type t = "EOF" /\ Token.value t = "".

(** An operand of a chain of binary operators: negation signs, then an
    identifier. *)
Definition operand : Type := (list Token.t * Token.t)%type.

Definition operand_tokens (x : operand) : list Token.t := (fst x ++ [snd x])%list.

Definition operand_tree (x : operand) : Node :=
  fold_right (fun _ e => NNot e) (NId (Token.value (snd x))) (fst x).

Definition operand_ok (x : operand) : Prop :=
  Forall not_token (fst x) /\ identifier_token (snd x).

(** The rest of a chain: operators, each with its right operand. *)
Definition chain_rest_tokens (rest : list (Token.t * operand)) : list Token.t :=
  flat_map (fun ox => fst ox :: operand_tokens (snd ox)) rest.

Definition chain_rest_ok (rest : list (Token.t * operand)) : Prop :=
  Forall (fun ox => binary_operator_token (fst ox) /\ operand_ok (snd ox)) rest.

(** The left-to-right fold of a chain onto the tree built so far. *)
Definition chain_fold (left : Node) (rest : list (Token.t * operand)) : Node :=
  fold_left (fun l ox => NBin l (operand_tree (snd ox)) (Token.value (fst ox)))
    rest left.

(** A comma-separated list of identifiers after a first one. *)
Definition more_args_tokens (more : list (Token.t * Token.t)) : list Token.t :=
  flat_map (fun ca => [fst ca; snd ca]) more.

Definition more_args_ok (more : list (Token.t * Token.t)) : Prop :=
  Forall (fun ca => comma_token (fst ca) /\ identifier_token (snd ca)) more.


(** The tokens of a call [f(a, ...)] followed by the end of input. *)
Definition call_tokens (f lpar a : Token.t) (more : list (Token.t * Token.t))
  (rpar eof : Token.t) : list Token.t :=
  (f :: lpar :: a :: more_args_tokens more ++ [rpar; eof])%list.

(** [m'] returns what [m] returns wherever [m] is not cut short. *)
Definition stable {A} (m m' : M A) : Prop :=
  forall p, m p <> OutOfFuel -> m' p = m p.

(** The matches [tokenize] turns into tokens, and the token of a match. *)
Definition kept (m : Match.t) : bool :=
  negb ((Match.lastgroup m =? "WHITESPACE") || (Match.lastgroup m =? "COMMENT")).

Definition token_of_match (m : Match.t) : Token.t :=
  Token.Build (Match.lastgroup m) (Match.group m) (Match.start m).

(** Matches that follow one another without gap or overlap from offset
    [pos] on. *)
Fixpoint contiguous (pos : nat) (ms : list Match.t) : Prop :=
  match ms with
  | [] => True
  | m :: ms' =>
      Match.start m = pos /\ contiguous (pos + String.length (Match.group m)) ms'
  end.

(** The matched texts, joined. *)
Definition concat_groups (ms : list Match.t) : string :=
  fold_right (fun m s => Match.group m ++ s) "" ms.

(** [s] without its first [n] characters. *)
Fixpoint string_drop (n : nat) (s : string) : string :=
  match n, s with
  | S n', String _ s' => string_drop n' s'
  | _, _ => s
  end.

(** Whether every character of [s] satisfies [p]. *)
Fixpoint forall_chars (p : ascii -> bool) (s : string) : bool :=
  match s with
  | EmptyString => true
  | String c s' => p c && forall_chars p s'
  end.

(** The shapes of the tokens of the text [text]: a keyword, a boolean
    literal, an identifier (a letter, then letters, digits, hyphens and
    underscores, and no keyword or literal in front), one operator
    character, a comma, or the end of input. *)
Definition lexed_token_shape (text : string) (t : Token.t) : Prop :=
  (Token.type t = "FN" /\ Token.value t = "fn")
  \/ (Token.type t = "BOOL" /\ (Token.value t = "true" \/ Token.value t = "false"))
  \/ (Token.type t = "ID"
      /\ (exists c r, Token.value t = String c r /\ is_letter c = true
                       /\ forall_chars is_id_char r = true)
      /\ prefix "fn" (Token.value t) = false
      /\ prefix "true" (Token.value t) = false
      /\ prefix "false" (Token.value t) = false)
  \/ (Token.type t = "OP"
      /\ exists c, Token.value t = String c "" /\ is_op_char c = true)
  \/ (Token.type t = "COMMA" /\ Token.value t = ",")
  \/ t = Token.Build "EOF" "" (String.length text).

(** Tokens in source order without overlap: each starts at or after
    offset [pos], the end of the one before it. *)
Fixpoint separated (pos : nat) (ts : list Token.t) : Prop :=
  match ts with
  | [] => True
  | t :: ts' =>
      pos <= Token.position t
      /\ separated (Token.position t + String.length (Token.value t)) ts'
  end.

(** A tree that an expression can be: no definition inside, and every binary
    node tagged [&] or [|]. *)
Fixpoint expression_shaped (e : Node) : bool :=
  match e with
  | NDef _ _ _ => false
  | NBin l r tag => is_binary_op tag && expression_shaped l && expression_shaped r
  | NNot e' => expression_shaped e'
  | NBool _ => true
  | NId _ => true
  | NApp args _ => forallb expression_shaped args
  end.

(** A top-level item: a definition whose body is an expression, or an
    expression. *)
Definition item_shaped (e : Node) : bool :=
  match e with
  | NDef body _ _ => expression_shaped body
  | _ => expression_shaped e
  end.

(** The outcome [r] with [items] put in front of the list it returns. *)
Definition prepend_items (items : list Node) (r : Outcome (list Node))
  : Outcome (list Node) :=
  match r with
  | Ok l p => Ok (items ++ l)%list p
  | Raise e p => Raise e p
  | OutOfFuel => OutOfFuel
  end.

(** Two tokens with the same type and text; their positions may differ. *)
Definition same_text (t t' : Token.t) : Prop :=
  Token.type t = Token.type t' /\ Token.value t = Token.value t'.

Definition same_lookahead (o o' : option Token.t) : Prop :=
  match o, o' with
  | Some t, Some t' => same_text t t'
  | None, None => True
  | _, _ => False
  end.

(** Two parser states that have read as many tokens, of token lists that
    agree on types and texts; the source texts may differ. *)
Definition same_tokens (p p' : Parser) : Prop :=
  Lexer.position (lexer p) = Lexer.position (lexer p')
  /\ Forall2 same_text (Lexer.tokens (lexer p)) (Lexer.tokens (lexer p'))
  /\ same_lookahead (current_token p) (current_token p').

(** Two exceptions of the same class. *)
Definition same_class (e e' : Exn) : Prop :=
  match e, e' with
  | RuntimeError _, RuntimeError _ => True
  | SyntaxError _, SyntaxError _ => True
  | AttributeError, AttributeError => True
  | _, _ => False
  end.

(** Two outcomes of the same kind: returns of values related by [R],
    raises of the same class, or both cut short; the states left behind
    agree as above. *)
Definition same_outcome {A} (R : A -> A -> Prop) (r r' : Outcome A) : Prop :=
  match r, r' with
  | Ok a p, Ok a' p' => R a a' /\ same_tokens p p'
  | Raise e p, Raise e' p' => same_class e e' /\ same_tokens p p'
  | OutOfFuel, OutOfFuel => True
  | _, _ => False
  end.

Definition related {A} (R : A -> A -> Prop) (m m' : M A) : Prop :=
  forall p p', same_tokens p p' -> same_outcome R (m p) (m' p').





Definition keyword_token (t : Token.t) : Prop :=
  Token.type t = "FN" /\ Token.value t = "fn".


(** Whether [toks] has a token of type [ty] and text [v]. *)
Definition token_text_in (toks : list Token.t) (ty v : string) : bool :=
  existsb (fun t => (Token.type t =? ty) && (Token.value t =? v)) toks.

(** Whether every string of the tree [e] is the text of a token of [toks]
    of the fitting type: names of identifier tokens, literal values of
    boolean tokens, tags of operator tokens. *)
Fixpoint from_tokens (toks : list Token.t) (e : Node) : bool :=
  match e with
  | NDef body formals name =>
      token_text_in toks "ID" name && forallb (token_text_in toks "ID") formals
      && from_tokens toks body
  | NBin l r tag => token_text_in toks "OP" tag && from_tokens toks l && from_tokens toks r
  | NNot e' => from_tokens toks e'
  | NBool v => token_text_in toks "BOOL" v
  | NId name => token_text_in toks "ID" name
  | NApp args name => token_text_in toks "ID" name && forallb (from_tokens toks) args
  end.

(** The lookahead of the state [p], if any, is a token of its lexer. *)
Definition lookahead_in (p : Parser) : Prop :=
  forall tok, current_token p = Some tok -> In tok (Lexer.tokens (lexer p)).

(** What a call that went from state [p] to state [q] keeps: the token
    list, and a lookahead that belongs to it. *)
Definition kept_by (p q : Parser) : Prop :=
  Lexer.tokens (lexer q) = Lexer.tokens (lexer p) /\ lookahead_in q.

(** ** Sentences of the expression grammar *)

(** The sentences of the expression grammar, as trees of tokens: a primary
    is a boolean literal, an identifier, a call or a parenthesized
    expression; a unary is a primary under negation signs; an expression
    is a unary followed by operators, each with a unary, kept here with
    the last operator outermost; an argument list is empty or expressions
    separated by commas. *)
Inductive Primary : Type :=
| PBool (t : Token.t)
| PId (t : Token.t)
| PCall (f lpar : Token.t) (args : Args) (rpar : Token.t)
| PParen (lpar : Token.t) (e : Expr) (rpar : Token.t)
with Unary : Type :=
| UNot (t : Token.t) (u : Unary)
| UPrim (p : Primary)
with Expr : Type :=
| EUnary (u : Unary)
| EBin (e : Expr) (op : Token.t) (u : Unary)
with Args : Type :=
| ANone
| ASome (a : Args1)
with Args1 : Type :=
| AOne (e : Expr)
| AMore (a : Args1) (comma : Token.t) (e : Expr).

Scheme Primary_mut := Induction for Primary Sort Prop
  with Unary_mut := Induction for Unary Sort Prop
  with Expr_mut := Induction for Expr Sort Prop
  with Args_mut := Induction for Args Sort Prop
  with Args1_mut := Induction for Args1 Sort Prop.
Combined Scheme syntax_mutind from Primary_mut, Unary_mut, Expr_mut, Args_mut, Args1_mut.

(** A boolean literal as the lexer emits it. *)
Definition bool_token (t : Token.t) : Prop :=
  Token.type t = "BOOL" /\ (Token.value t = "true" \/ Token.value t = "false").

(** The tokens of a sentence, in source order. *)
Fixpoint tokens_primary (p : Primary) : list Token.t :=
  match p with
  | PBool t => [t]
  | PId t => [t]
  | PCall f lpar args rpar => f :: lpar :: tokens_args args ++ [rpar]
  | PParen lpar e rpar => lpar :: tokens_expr e ++ [rpar]
  end
with tokens_unary (u : Unary) : list Token.t :=
  match u with
  | UNot t u' => t :: tokens_unary u'
  | UPrim p => tokens_primary p
  end
with tokens_expr (e : Expr) : list Token.t :=
  match e with
  | EUnary u => tokens_unary u
  | EBin e' op u => tokens_expr e' ++ op :: tokens_unary u
  end
with tokens_args (a : Args) : list Token.t :=
  match a with
  | ANone => []
  | ASome a' => tokens_args1 a'
  end
with tokens_args1 (a : Args1) : list Token.t :=
  match a with
  | AOne e => tokens_expr e
  | AMore a' comma e => tokens_args1 a' ++ comma :: tokens_expr e
  end.

(** The tree a sentence stands for. *)
Fixpoint tree_primary (p : Primary) : Node :=
  match p with
  | PBool t => NBool (Token.value t)
  | PId t => NId (Token.value t)
  | PCall f _ args _ => NApp (tree_args args) (Token.value f)
  | PParen _ e _ => tree_expr e
  end
with tree_unary (u : Unary) : Node :=
  match u with
  | UNot _ u' => NNot (tree_unary u')
  | UPrim p => tree_primary p
  end
with tree_expr (e : Expr) : Node :=
  match e with
  | EUnary u => tree_unary u
  | EBin e' op u => NBin (tree_expr e') (tree_unary u) (Token.value op)
  end
with tree_args (a : Args) : list Node :=
  match a with
  | ANone => []
  | ASome a' => tree_args1 a'
  end
with tree_args1 (a : Args1) : list Node :=
  match a with
  | AOne e => [tree_expr e]
  | AMore a' _ e => (tree_args1 a' ++ [tree_expr e])%list
  end.

(** The tokens of a sentence are what the lexer emits for them. *)
Fixpoint wf_primary (p : Primary) : Prop :=
  match p with
  | PBool t => bool_token t
  | PId t => identifier_token t
  | PCall f lpar args rpar =>
      identifier_token f /\ open_token lpar /\ wf_args args /\ close_token rpar
  | PParen lpar e rpar => open_token lpar /\ wf_expr e /\ close_token rpar
  end
with wf_unary (u : Unary) : Prop :=
  match u with
  | UNot t u' => not_token t /\ wf_unary u'
  | UPrim p => wf_primary p
  end
with wf_expr (e : Expr) : Prop :=
  match e with
  | EUnary u => wf_unary u
  | EBin e' op u => wf_expr e' /\ binary_operator_token op /\ wf_unary u
  end
with wf_args (a : Args) : Prop :=
  match a with
  | ANone => True
  | ASome a' => wf_args1 a'
  end
with wf_args1 (a : Args1) : Prop :=
  match a with
  | AOne e => wf_expr e
  | AMore a' comma e => wf_args1 a' /\ comma_token comma /\ wf_expr e
  end.

(** The expression [first o1 u1 ... on un], grouped from the left. *)
Definition chain_expr (first : Unary) (rest : list (Token.t * Unary)) : Expr :=
  fold_left (fun e ou => EBin e (fst ou) (snd ou)) rest (EUnary first).

(** The unary [~ ... ~ p]. *)
Definition negated (nots : list Token.t) (p : Primary) : Unary :=
  fold_right UNot (UPrim p) nots.

(** The body of the [if] of [parse_function_application]: the first
    argument, then the loop. *)
Definition parse_args (fuel : nat) : M (list Node) :=
  arg <- parse_expression fuel ;; args_loop fuel [arg].

(** A token on which a sentence can start. *)
Definition starts_sentence (h : Token.t) : Prop :=
  (Token.value h =? ")") = false
  /\ (Token.type h = "BOOL" \/ Token.type h = "ID" \/ Token.type h = "OP").

(** The operators of a chain, each with its right operand. *)
Definition operators_tokens (rest : list (Token.t * Unary)) : list Token.t :=
  flat_map (fun ou => fst ou :: tokens_unary (snd ou)) rest.

Definition operators_ok (rest : list (Token.t * Unary)) : Prop :=
  Forall (fun ou => binary_operator_token (fst ou) /\ wf_unary (snd ou)) rest.

(** The left-to-right fold of the operators onto the tree built so far. *)
Definition fold_operators (left : Node) (rest : list (Token.t * Unary)) : Node :=
  fold_left (fun l ou => NBin l (tree_unary (snd ou)) (Token.value (fst ou)))
    rest left.

(** The tokens of the text [first o1 u1 ... on un]. *)
Definition expression_tokens (first : Unary) (rest : list (Token.t * Unary))
  (eof : Token.t) : list Token.t :=
  (tokens_unary first ++ operators_tokens rest ++ [eof])%list.

(** With enough fuel, the call [f] made in state [p] returns [a] and leaves
    the parser in state [q]. *)
Definition returns {A} (f : nat -> M A) (p : Parser) (a : A) (q : Parser) : Prop :=
  exists n0, forall n, n0 <= n -> f n p = Ok a q.

(** ** Exceptions of the parser *)

(** The token [tok] is not what the parser expects: [expected] is the
    description [Parser.error] is called with, either by
    [parse_primary_expression], on a token that starts no primary, or by
    [Parser.consume], on a token of another type than the expected one. *)
Definition rejects (expected : string) (tok : Token.t) : Prop :=
  (expected = "primary expression"
   /\ Token.type tok <> "BOOL" /\ Token.type tok <> "ID" /\ Token.value tok <> "(")
  \/ (In expected ["FN"; "ID"; "OP"; "COMMA"] /\ Token.type tok <> expected).

(** The exception [e] raised in state [q] is the one [Parser.error] builds
    from the lookahead of [q], a token that the parser rejects there; with
    no lookahead it is the [AttributeError]. *)
Definition raised_on (e : Exn) (q : Parser) : Prop :=
  match current_token q with
  | Some tok =>
      exists expected,
        e = SyntaxError (error_message expected tok (Lexer.text (lexer q)))
        /\ rejects expected tok
  | None => e = AttributeError
  end.

(** Whatever [m] raises from state [p] is raised on the lookahead. *)
Definition faithful_on {A} (m : M A) (p : Parser) : Prop :=
  forall e q, m p = Raise e q -> raised_on e q.

(** ** Illegal characters and comments *)


(** Whether the end of [s] lies in a comment, given whether its start does:
    a [#] opens a comment and the next line feed closes it. *)
Fixpoint in_comment_after (inside : bool) (s : string) : bool :=
  match s with
  | EmptyString => inside
  | String c s' =>
      in_comment_after
        (if Ascii.eqb c "#" then true
         else if Ascii.eqb c "010" then false else inside) s'
  end.



(** * Supporting lemmas *)

(** ** The parser over a token list that ends with an end-of-input token *)

Lemma peek_nth_error (l : Lexer.t) :
  Lexer.peek l = nth_error (Lexer.tokens l) (Lexer.position l).
Proof.
  unfold Lexer.peek.
  destruct (Nat.ltb_spec (Lexer.position l) (List.length (Lexer.tokens l))) as [H|H]; auto.
  symmetry. now apply nth_error_None.
Qed.

Section ParserStates.

Variable txt : string.
Variable toks : list Token.t.
Hypothesis toks_end : ends_with_EOF toks.

Let len := List.length toks.
Local Abbreviation st := (st txt toks).
Local Abbreviation good := (good txt toks).
Local Abbreviation syntax_error_at := (syntax_error_at txt toks).

Lemma Parser_init_st : Parser_init (Lexer.Build txt 0 toks) = st 1.
Proof.
  unfold Parser_init, Lexer.consume, st. rewrite peek_nth_error. reflexivity.
Qed.

Lemma advance_st (i : nat) : advance (st i) = Ok tt (st (S i)).
Proof.
  unfold advance, Lexer.consume, st. rewrite peek_nth_error. simpl.
  rewrite Nat.sub_0_r, Nat.add_1_r. reflexivity.
Qed.

Lemma lookahead_exists (i : nat) :
  1 <= i <= len -> exists tok, nth_error toks (i - 1) = Some tok.
Proof.
  intros Hi. destruct (nth_error toks (i - 1)) eqn:E; eauto.
  apply nth_error_None in E. subst len. lia.
Qed.

(** A lookahead that is not the end-of-input token has a successor. *)
Lemma not_EOF_not_last (i : nat) (tok : Token.t) :
  1 <= i -> nth_error toks (i - 1) = Some tok -> Token.type tok <> "EOF" ->
  S i <= len.
Proof.
  intros Hi Hn Hty. destruct toks_end as (ts & t & -> & Ht).
  subst len. rewrite length_app. simpl.
  assert (i - 1 < List.length (ts ++ [t])) as Hlt
    by (apply nth_error_Some; congruence).
  rewrite length_app in Hlt. simpl in Hlt.
  destruct (Nat.eq_dec (i - 1) (List.length ts)) as [E|E]; [|lia].
  rewrite E, nth_error_app2, Nat.sub_diag in Hn by lia.
  simpl in Hn. congruence.
Qed.

Lemma current_st (i : nat) (tok : Token.t) :
  nth_error toks (i - 1) = Some tok -> current (st i) = Ok tok (st i).
Proof. intros H. unfold current. simpl. now rewrite H. Qed.

Lemma consume_st_ok (i : nat) (tok : Token.t) (ty : string) :
  nth_error toks (i - 1) = Some tok -> Token.type tok = ty ->
  consume ty (st i) = Ok tok (st (S i)).
Proof.
  intros Hn Hty. unfold consume, bind. rewrite (current_st _ _ Hn).
  subst ty. rewrite String.eqb_refl, advance_st. reflexivity.
Qed.

Lemma consume_st_error (i : nat) (tok : Token.t) (ty : string) :
  nth_error toks (i - 1) = Some tok -> Token.type tok <> ty ->
  consume ty (st i) = Raise (SyntaxError (error_message ty tok txt)) (st i).
Proof.
  intros Hn Hty. unfold consume, bind. rewrite (current_st _ _ Hn).
  apply String.eqb_neq in Hty. rewrite Hty.
  unfold error, bind. rewrite (current_st _ _ Hn). reflexivity.
Qed.

Lemma good_weaken {A} (s n k i s' k' : nat) (r : Outcome A) :
  good s' n k' i r -> s <= s' -> k' <= k -> good s n k i r.
Proof.
  destruct r as [a p|e p|]; simpl.
  - intros (j & -> & Hj) Hs Hk. exists j. split; [reflexivity|lia].
  - intros (j & -> & Hj & He) Hs Hk. exists j. auto.
  - lia.
Qed.

Lemma good_S {A} (s n k i : nat) (r : Outcome A) :
  good s n k i r -> good s (S n) (S k) i r.
Proof.
  destruct r as [a p|e p|]; simpl; auto. lia.
Qed.

Lemma good_ret {A} (n k i : nat) (a : A) :
  i <= len -> good 0 n k i (ret a (st i)).
Proof. intros Hi. exists i. split; [reflexivity|lia]. Qed.

Lemma good_error {A} (s n k i : nat) (expected : string) :
  1 <= i <= len -> good s n k i (@error A expected (st i)).
Proof.
  intros Hi. destruct (lookahead_exists i Hi) as [tok Hn].
  unfold error, bind. rewrite (current_st _ _ Hn). simpl.
  exists i. split; [reflexivity|]. split; [lia|]. now exists expected, tok.
Qed.

Lemma good_bind {A B} (s n k i s1 k1 : nat) (m : M A) (f : A -> M B) :
  good s1 n k1 i (m (st i)) -> k1 <= k ->
  (forall a j, i + s1 <= j <= len -> good (s - s1) n (k + 3 * s1) j (f a (st j))) ->
  good s n k i (bind m f (st i)).
Proof.
  intros Hm Hk Hf. unfold bind.
  destruct (m (st i)) as [a p|e p|]; simpl in Hm.
  - destruct Hm as (j & -> & Hj). specialize (Hf a j Hj).
    destruct (f a (st j)) as [b q|e q|]; simpl in *.
    + destruct Hf as (j' & -> & Hj'). exists j'. split; [reflexivity|lia].
    + destruct Hf as (j' & -> & Hj' & He). exists j'. split; [reflexivity|].
      split; [lia|assumption].
    + lia.
  - destruct Hm as (j & -> & Hj & He). exists j. auto.
  - simpl. lia.
Qed.

Lemma good_current {B} (s n k i : nat) (f : Token.t -> M B) :
  1 <= i <= len ->
  (forall tok, nth_error toks (i - 1) = Some tok -> good s n k i (f tok (st i))) ->
  good s n k i (bind current f (st i)).
Proof.
  intros Hi Hf. destruct (lookahead_exists i Hi) as [tok Hn].
  unfold bind. rewrite (current_st _ _ Hn). auto.
Qed.

Lemma good_consume {B} (s n k i : nat) (ty : string) (f : Token.t -> M B) :
  1 <= i <= len -> ty <> "EOF" ->
  (forall tok, nth_error toks (i - 1) = Some tok -> Token.type tok = ty ->
               S i <= len ->
               good (s - 1) n (k + 3) (S i) (f tok (st (S i)))) ->
  good s n k i (bind (consume ty) f (st i)).
Proof.
  intros Hi Hty Hf. destruct (lookahead_exists i Hi) as [tok Hn].
  unfold bind. destruct (string_dec (Token.type tok) ty) as [E|E].
  - rewrite (consume_st_ok _ _ _ Hn E).
    assert (S i <= len) as Hlt
      by (apply (not_EOF_not_last i tok); [lia|assumption|congruence]).
    specialize (Hf tok Hn E Hlt).
    destruct (f tok (st (S i))) as [b q|e q|]; simpl in *.
    + destruct Hf as (j & -> & Hj). exists j. split; [reflexivity|lia].
    + destruct Hf as (j & -> & Hj & He). exists j. split; [reflexivity|].
      split; [lia|assumption].
    + lia.
  - rewrite (consume_st_error _ _ _ Hn E). simpl.
    exists i. split; [reflexivity|]. split; [lia|]. now exists ty, tok.
Qed.

(** *** One unfolding of each function of the expression grammar *)

Lemma parse_expression_S (n : nat) :
  parse_expression (S n)
  = (left <- parse_prefix_expression n ;; expression_loop n left).
Proof. reflexivity. Qed.

Lemma expression_loop_S (n : nat) (left : Node) :
  expression_loop (S n) left
  = (cur <- current ;;
     if is_binary_op (Token.value cur) then
       tok <- consume "OP" ;;
       right <- parse_prefix_expression n ;;
       expression_loop n (NBin left right (Token.value tok))
     else ret left).
Proof. reflexivity. Qed.

Lemma parse_prefix_expression_S (n : nat) :
  parse_prefix_expression (S n)
  = (cur <- current ;;
     if Token.value cur =? "~" then
       consume "OP" ;;
       operand <- parse_prefix_expression n ;;
       ret (NNot operand)
     else parse_primary_expression n).
Proof. reflexivity. Qed.

Lemma parse_primary_expression_S (n : nat) :
  parse_primary_expression (S n)
  = (cur <- current ;;
     if Token.type cur =? "BOOL" then
       tok <- consume "BOOL" ;;
       ret (NBool (Token.value tok))
     else if Token.type cur =? "ID" then
       id_token <- consume "ID" ;;
       nxt <- current ;;
       if Token.value nxt =? "(" then
         parse_function_application n (Token.value id_token)
       else ret (NId (Token.value id_token))
     else if Token.value cur =? "(" then
       consume "OP" ;;
       expr <- parse_expression n ;;
       consume "OP" ;;
       ret expr
     else error "primary expression").
Proof. reflexivity. Qed.

Lemma parse_function_application_S (n : nat) (name : string) :
  parse_function_application (S n) name
  = (consume "OP" ;;
     cur <- current ;;
     args <- (if negb (Token.value cur =? ")") then
                arg <- parse_expression n ;;
                args_loop n [arg]
              else ret []) ;;
     consume "OP" ;;
     ret (NApp args name)).
Proof. reflexivity. Qed.

Lemma args_loop_S (n : nat) (args : list Node) :
  args_loop (S n) args
  = (cur <- current ;;
     if Token.type cur =? "COMMA" then
       consume "COMMA" ;;
       arg <- parse_expression n ;;
       args_loop n (args ++ [arg])%list
     else ret args).
Proof. reflexivity. Qed.

(** *** The expression grammar keeps the parser on the token list *)

Lemma expression_grammar_good (n : nat) :
  (forall i, 1 <= i <= len -> good 1 n 3 i (parse_expression n (st i)))
  /\ (forall i left, 1 <= i <= len -> good 0 n 1 i (expression_loop n left (st i)))
  /\ (forall i, 1 <= i <= len -> good 1 n 2 i (parse_prefix_expression n (st i)))
  /\ (forall i, 1 <= i <= len -> good 1 n 1 i (parse_primary_expression n (st i)))
  /\ (forall i name, 1 <= i <= len ->
                     good 1 n 1 i (parse_function_application n name (st i)))
  /\ (forall i args, 1 <= i <= len -> good 0 n 1 i (args_loop n args (st i))).
Proof.
  induction n as [|n (IHE & IHL & IHP & IHQ & IHA & IHG)].
  - repeat split; intros; simpl; lia.
  - repeat split; intros i; intros.
    + rewrite parse_expression_S. apply (good_S 1 n 2).
      eapply good_bind; [apply IHP; assumption|lia|].
      intros a j Hj. eapply good_weaken; [apply IHL|..]; lia.
    + rewrite expression_loop_S. apply (good_S 0 n 0).
      apply good_current; [assumption|]. intros cur Hcur.
      destruct (is_binary_op (Token.value cur)); [|apply good_ret; lia].
      apply good_consume; [assumption|discriminate|]. intros tok _ _ Hi.
      eapply good_bind; [apply IHP; lia|lia|].
      intros a j Hj. eapply good_weaken; [apply IHL|..]; lia.
    + rewrite parse_prefix_expression_S. apply (good_S 1 n 1).
      apply good_current; [assumption|]. intros cur Hcur.
      destruct (Token.value cur =? "~").
      * apply good_consume; [assumption|discriminate|]. intros tok _ _ Hi.
        eapply good_bind; [apply IHP; lia|lia|].
        intros a j Hj. apply good_ret; lia.
      * eapply good_weaken; [apply IHQ|..]; lia.
    + rewrite parse_primary_expression_S. apply (good_S 1 n 0).
      apply good_current; [assumption|]. intros cur Hcur.
      destruct (Token.type cur =? "BOOL").
      { apply good_consume; [assumption|discriminate|]. intros tok _ _ Hi.
        apply good_ret; lia. }
      destruct (Token.type cur =? "ID").
      { apply good_consume; [assumption|discriminate|]. intros tok _ _ Hi.
        apply good_current; [lia|]. intros nxt Hnxt.
        destruct (Token.value nxt =? "(").
        - eapply good_weaken; [apply IHA|..]; lia.
        - apply good_ret; lia. }
      destruct (Token.value cur =? "("); [|apply good_error; assumption].
      apply good_consume; [assumption|discriminate|]. intros tok _ _ Hi.
      eapply good_bind; [apply IHE; lia|lia|].
      intros a j Hj.
      apply good_consume; [lia|discriminate|]. intros tok' _ _ Hj'.
      apply good_ret; lia.
    + rewrite parse_function_application_S. apply (good_S 1 n 0).
      apply good_consume; [assumption|discriminate|]. intros tok _ _ Hi.
      apply good_current; [lia|]. intros cur Hcur.
      apply (good_bind _ _ _ _ 0 3).
      * destruct (negb (Token.value cur =? ")")); [|apply good_ret; lia].
        eapply good_bind; [apply IHE; lia|lia|].
        intros a j Hj. eapply good_weaken; [apply IHG|..]; lia.
      * lia.
      * intros a j Hj.
        apply good_consume; [lia|discriminate|]. intros tok' _ _ Hj'.
        apply good_ret; lia.
    + rewrite args_loop_S. apply (good_S 0 n 0).
      apply good_current; [assumption|]. intros cur Hcur.
      destruct (Token.type cur =? "COMMA"); [|apply good_ret; lia].
      apply good_consume; [assumption|discriminate|]. intros tok _ _ Hi.
      eapply good_bind; [apply IHE; lia|lia|].
      intros a j Hj. eapply good_weaken; [apply IHG|..]; lia.
Qed.

(** *** Definitions and the program loop *)

Lemma formals_loop_good (n : nat) :
  forall i formals, 1 <= i <= len -> good 0 n 1 i (formals_loop n formals (st i)).
Proof.
  induction n as [|n IH]; intros i formals Hi.
  - simpl. lia.
  - change (formals_loop (S n) formals)
      with (cur <- current ;;
            if Token.type cur =? "COMMA" then
              consume "COMMA" ;;
              tok <- consume "ID" ;;
              formals_loop n (formals ++ [Token.value tok])%list
            else ret formals).
    apply (good_S 0 n 0).
    apply good_current; [assumption|]. intros cur Hcur.
    destruct (Token.type cur =? "COMMA"); [|apply good_ret; lia].
    apply good_consume; [assumption|discriminate|]. intros tok _ _ Hi'.
    apply good_consume; [lia|discriminate|]. intros tok' _ _ Hi''.
    eapply good_weaken; [apply IH|..]; lia.
Qed.

Lemma parse_definition_good (n : nat) (i : nat) :
  1 <= i <= len -> good 1 n 3 i (parse_definition n (st i)).
Proof.
  intros Hi. unfold parse_definition.
  apply good_consume; [assumption|discriminate|]. intros fn _ _ H1.
  apply good_consume; [lia|discriminate|]. intros name _ _ H2.
  apply good_consume; [lia|discriminate|]. intros lpar _ _ H3.
  apply good_current; [lia|]. intros cur Hcur.
  apply (good_bind _ _ _ _ 0 1).
  - destruct (Token.type cur =? "ID"); [|apply good_ret; lia].
    apply good_consume; [lia|discriminate|]. intros first _ _ H4.
    eapply good_weaken; [apply formals_loop_good|..]; lia.
  - lia.
  - intros formals j Hj.
    apply good_consume; [lia|discriminate|]. intros rpar _ _ H5.
    eapply good_bind; [apply expression_grammar_good; lia|lia|].
    intros body j' Hj'. apply good_ret; lia.
Qed.

Lemma program_loop_good (n : nat) :
  forall i result, 1 <= i <= len -> good 0 n 4 i (program_loop n result (st i)).
Proof.
  induction n as [|n IH]; intros i result Hi.
  - simpl. lia.
  - change (program_loop (S n) result)
      with (cur <- current ;;
            if negb (Token.type cur =? "EOF") then
              if Token.type cur =? "FN" then
                item <- parse_definition n ;;
                program_loop n (result ++ [item])%list
              else
                item <- parse_expression n ;;
                program_loop n (result ++ [item])%list
            else ret result).
    apply (good_S 0 n 3).
    apply good_current; [assumption|]. intros cur Hcur.
    destruct (negb (Token.type cur =? "EOF")); [|apply good_ret; lia].
    destruct (Token.type cur =? "FN").
    + eapply good_bind; [apply parse_definition_good; assumption|lia|].
      intros item j Hj. eapply good_weaken; [apply IH|..]; lia.
    + eapply good_bind; [apply expression_grammar_good; assumption|lia|].
      intros item j Hj. eapply good_weaken; [apply IH|..]; lia.
Qed.

(** With at least [3 * len + 1] units of fuel a parse run returns or
    raises a syntax error, and either way the parser has read no more
    tokens than there are: its lookahead is a token of the list. *)
Lemma parse_program_total (n : nat) :
  3 * len + 1 <= n ->
  exists j tok,
    1 <= j <= len /\ nth_error toks (j - 1) = Some tok
    /\ ((exists program,
            parse_program n (Parser_init (Lexer.Build txt 0 toks))
            = Ok program (st j))
        \/ (exists expected,
               parse_program n (Parser_init (Lexer.Build txt 0 toks))
               = Raise (SyntaxError (error_message expected tok txt)) (st j))).
Proof.
  intros Hn. rewrite Parser_init_st. unfold parse_program.
  assert (1 <= len) as Hlen.
  { destruct toks_end as (ts & t & E & _). subst len. rewrite E, length_app.
    simpl. lia. }
  pose proof (program_loop_good n 1 [] ltac:(lia)) as H.
  destruct (program_loop n [] (st 1)) as [program p|e p|]; simpl in H.
  - destruct H as (j & -> & Hj).
    destruct (lookahead_exists j ltac:(lia)) as [tok Htok].
    exists j, tok. repeat split; try lia; eauto.
  - destruct H as (j & -> & Hj & expected & tok & Htok & ->).
    exists j, tok. repeat split; try lia; eauto.
  - lia.
Qed.

End ParserStates.

Lemma program_loop_S (n : nat) (result : list Node) :
  program_loop (S n) result
  = (cur <- current ;;
     if negb (Token.type cur =? "EOF") then
       if Token.type cur =? "FN" then
         item <- parse_definition n ;;
         program_loop n (result ++ [item])%list
       else
         item <- parse_expression n ;;
         program_loop n (result ++ [item])%list
     else ret result).
Proof. reflexivity. Qed.

Lemma formals_loop_S (n : nat) (formals : list string) :
  formals_loop (S n) formals
  = (cur <- current ;;
     if Token.type cur =? "COMMA" then
       consume "COMMA" ;;
       tok <- consume "ID" ;;
       formals_loop n (formals ++ [Token.value tok])%list
     else ret formals).
Proof. reflexivity. Qed.

(** ** Fuel only decides whether a call is cut short

    A call that is not cut short returns the same outcome with any larger
    amount of fuel. *)

Lemma stable_refl {A} (m : M A) : stable m m.
Proof. intros p _. reflexivity. Qed.

Lemma stable_trans {A} (m1 m2 m3 : M A) :
  stable m1 m2 -> stable m2 m3 -> stable m1 m3.
Proof.
  intros H12 H23 p Hp. rewrite <- (H12 p Hp). apply H23. now rewrite (H12 p Hp).
Qed.

Lemma stable_bind {A B} (m m' : M A) (f f' : A -> M B) :
  stable m m' -> (forall a, stable (f a) (f' a)) -> stable (bind m f) (bind m' f').
Proof.
  intros Hm Hf p. unfold bind. intros Hp.
  destruct (m p) as [a q|e q|] eqn:E; [| |congruence].
  - rewrite (Hm p) by congruence. rewrite E. now apply Hf.
  - rewrite (Hm p) by congruence. now rewrite E.
Qed.

Lemma stable_out_of_fuel {A} (m : M A) : stable out_of_fuel m.
Proof. intros p Hp. now contradiction Hp. Qed.

(** Both sides have the same shape; they differ in the fuel of the calls. *)
Ltac stable_step :=
  first
    [ assumption
    | match goal with H : forall _, stable _ _ |- _ => apply H end
    | apply stable_refl
    | match goal with
      | |- stable (if ?b then _ else _) (if ?b then _ else _) => destruct b
      end
    | apply stable_bind; [|intros ?] ].

Lemma expression_grammar_stable (n : nat) :
  stable (parse_expression n) (parse_expression (S n))
  /\ (forall left, stable (expression_loop n left) (expression_loop (S n) left))
  /\ stable (parse_prefix_expression n) (parse_prefix_expression (S n))
  /\ stable (parse_primary_expression n) (parse_primary_expression (S n))
  /\ (forall name, stable (parse_function_application n name)
                     (parse_function_application (S n) name))
  /\ (forall args, stable (args_loop n args) (args_loop (S n) args)).
Proof.
  induction n as [|n (IHE & IHL & IHP & IHQ & IHA & IHG)].
  - repeat split; intros; apply stable_out_of_fuel.
  - repeat split; intros.
    + rewrite (parse_expression_S n), (parse_expression_S (S n)). repeat stable_step.
    + rewrite (expression_loop_S n), (expression_loop_S (S n)). repeat stable_step.
    + rewrite (parse_prefix_expression_S n), (parse_prefix_expression_S (S n)).
      repeat stable_step.
    + rewrite (parse_primary_expression_S n), (parse_primary_expression_S (S n)).
      repeat stable_step.
    + rewrite (parse_function_application_S n), (parse_function_application_S (S n)).
      repeat stable_step.
    + rewrite (args_loop_S n), (args_loop_S (S n)). repeat stable_step.
Qed.

Lemma formals_loop_stable (n : nat) :
  forall formals, stable (formals_loop n formals) (formals_loop (S n) formals).
Proof.
  induction n as [|n IH]; intros formals; [apply stable_out_of_fuel|].
  rewrite (formals_loop_S n), (formals_loop_S (S n)). repeat stable_step.
Qed.

Lemma parse_definition_stable (n : nat) :
  stable (parse_definition n) (parse_definition (S n)).
Proof.
  pose proof (formals_loop_stable n) as HF.
  pose proof (proj1 (expression_grammar_stable n)) as HE.
  unfold parse_definition. repeat stable_step.
Qed.

Lemma program_loop_stable (n : nat) :
  forall result, stable (program_loop n result) (program_loop (S n) result).
Proof.
  induction n as [|n IH]; intros result; [apply stable_out_of_fuel|].
  pose proof (parse_definition_stable n) as HD.
  pose proof (proj1 (expression_grammar_stable n)) as HE.
  rewrite (program_loop_S n), (program_loop_S (S n)). repeat stable_step.
Qed.

Lemma parse_program_stable (n m : nat) :
  n <= m -> stable (parse_program n) (parse_program m).
Proof.
  induction 1 as [|m _ IH]; [apply stable_refl|].
  eapply stable_trans; [exact IH|]. apply program_loop_stable.
Qed.

(** ** The lexer *)

(** The group names [match_at] can report. *)
Lemma match_at_kind (s : string) (kind : string) (len : nat) :
  match_at s = Some (kind, len) ->
  In kind ["COMMENT"; "FN"; "BOOL"; "ID"; "OP"; "COMMA"; "WHITESPACE"; "MISMATCH"].
Proof.
  destruct s as [|c rest]; [discriminate|]. unfold match_at.
  repeat match goal with
         | |- context [if ?b then _ else _] => destruct b
         end;
    intros [= <- _]; simpl; tauto.
Qed.

(** A [MISMATCH] match is one character that no other pattern accepts. *)
Lemma match_at_MISMATCH (c : ascii) (rest : string) (len : nat) :
  match_at (String c rest) = Some ("MISMATCH", len) ->
  len = 1 /\ c <> "#"%char /\ is_letter c = false /\ is_op_char c = false
  /\ c <> ","%char /\ is_space c = false.
Proof.
  unfold match_at.
  destruct (Ascii.eqb_spec c "#"); [discriminate|].
  destruct (prefix "fn" (String c rest)); [discriminate|].
  destruct (prefix "true" (String c rest)); [discriminate|].
  destruct (prefix "false" (String c rest)); [discriminate|].
  destruct (is_letter c); [discriminate|].
  destruct (is_op_char c); [discriminate|].
  destruct (Ascii.eqb_spec c ","); [discriminate|].
  destruct (is_space c); [discriminate|].
  destruct (is_dot c); [|discriminate].
  intros [= <-]. repeat split; assumption.
Qed.

(** Every match reported by the scan starts at some offset of the text, is
    what [match_at] finds there, and spans the matched characters. *)
Lemma finditer_from_In (s : string) :
  forall pos skip m, In m (finditer_from pos skip s) ->
    exists a b len,
      s = a ++ b /\ Match.start m = pos + String.length a
      /\ match_at b = Some (Match.lastgroup m, len)
      /\ Match.group m = substring 0 len b.
Proof.
  induction s as [|c s IH]; intros pos skip m Hin; cbn [finditer_from] in Hin.
  - contradiction.
  - assert (forall k, In m (finditer_from (S pos) k s) ->
                      exists a b len,
                        String c s = a ++ b /\ Match.start m = pos + String.length a
                        /\ match_at b = Some (Match.lastgroup m, len)
                        /\ Match.group m = substring 0 len b) as Hrec.
    { intros k Hk. destruct (IH _ _ _ Hk) as (a & b & len & -> & Hs & Hm & Hg).
      exists (String c a), b, len. simpl. repeat split; auto. lia. }
    destruct skip as [|k]; [|eauto].
    destruct (match_at (String c s)) as [[kind len]|] eqn:E; [|eauto].
    destruct Hin as [<-|Hin]; [|eauto].
    exists "", (String c s), len. cbn [Match.start Match.lastgroup Match.group].
    repeat split; auto; simpl; lia.
Qed.

Lemma finditer_In (text : string) (m : Match.t) :
  In m (finditer text) ->
  exists a b len,
    text = a ++ b /\ Match.start m = String.length a
    /\ match_at b = Some (Match.lastgroup m, len)
    /\ Match.group m = substring 0 len b.
Proof. intros H. exact (finditer_from_In text 0 0 m H). Qed.

(** The loop of [tokenize] only appends, and what it appends carries the
    group name of a match. *)
Lemma tokenize_loop_inr (ms : list Match.t) :
  forall acc toks, tokenize_loop ms acc = inr toks ->
    exists ts, toks = (acc ++ ts)%list
               /\ Forall (fun t => exists m, In m ms /\ Token.type t = Match.lastgroup m) ts.
Proof.
  induction ms as [|mo ms IH]; intros acc toks H; cbn [tokenize_loop] in H.
  - injection H as <-. exists []. rewrite app_nil_r. auto.
  - assert (forall acc', tokenize_loop ms acc' = inr toks ->
              exists ts, toks = (acc' ++ ts)%list
                /\ Forall (fun t => exists m, In m (mo :: ms)
                                              /\ Token.type t = Match.lastgroup m) ts)
      as Hrec.
    { intros acc' H'. destruct (IH _ _ H') as (ts & -> & Hts). exists ts.
      split; [reflexivity|]. eapply Forall_impl; [|exact Hts].
      intros t (m & Hm & Ht). exists m. simpl. auto. }
    destruct ((Match.lastgroup mo =? "WHITESPACE") || (Match.lastgroup mo =? "COMMENT"));
      [auto|].
    destruct (Match.lastgroup mo =? "MISMATCH"); [discriminate|].
    destruct (Hrec _ H) as (ts & -> & Hts).
    exists (Token.Build (Match.lastgroup mo) (Match.group mo) (Match.start mo) :: ts).
    rewrite <- app_assoc. split; [reflexivity|]. constructor; [|assumption].
    exists mo. simpl. auto.
Qed.

Lemma tokenize_ends_with_EOF (text : string) (toks : list Token.t) :
  tokenize text = inr toks ->
  exists ts,
    toks = (ts ++ [Token.Build "EOF" "" (String.length text)])%list
    /\ Forall (fun t => Token.type t <> "EOF") ts.
Proof.
  unfold tokenize. destruct (tokenize_loop (finditer text) []) as [e|ts0] eqn:E;
    [discriminate|].
  intros [= <-]. destruct (tokenize_loop_inr _ _ _ E) as (ts & -> & Hts).
  exists ts. split; [reflexivity|]. eapply Forall_impl; [|exact Hts].
  intros t (m & Hm & Ht) Heof. rewrite Ht in Heof.
  destruct (finditer_In _ _ Hm) as (a & b & len & _ & _ & Hk & _).
  apply match_at_kind in Hk. rewrite Heof in Hk. simpl in Hk.
  repeat (destruct Hk as [Hk|Hk]; [discriminate|]). contradiction.
Qed.

Lemma tokenize_ends_with_EOF' (text : string) (toks : list Token.t) :
  tokenize text = inr toks -> ends_with_EOF toks.
Proof.
  intros H. destruct (tokenize_ends_with_EOF _ _ H) as (ts & -> & _).
  now exists ts, (Token.Build "EOF" "" (String.length text)).
Qed.

Lemma tokenize_loop_inl (ms : list Match.t) :
  forall acc e, tokenize_loop ms acc = inl e ->
    exists m, In m ms /\ Match.lastgroup m = "MISMATCH"
              /\ e = RuntimeError (unexpected_character (Match.start m) (Match.group m)).
Proof.
  induction ms as [|mo ms IH]; intros acc e H; cbn [tokenize_loop] in H.
  - discriminate.
  - destruct ((Match.lastgroup mo =? "WHITESPACE") || (Match.lastgroup mo =? "COMMENT")).
    { destruct (IH _ _ H) as (m & Hm & Hk & He). exists m. simpl. auto. }
    destruct (String.eqb_spec (Match.lastgroup mo) "MISMATCH") as [E|E].
    + injection H as <-. exists mo. simpl. auto.
    + destruct (IH _ _ H) as (m & Hm & Hk & He). exists m. simpl. auto.
Qed.

(** A [MISMATCH] match is the single character found at its start offset. *)
Lemma MISMATCH_is_one_character (text : string) (m : Match.t) :
  In m (finditer text) -> Match.lastgroup m = "MISMATCH" ->
  exists c,
    String.get (Match.start m) text = Some c /\ Match.group m = String c ""
    /\ c <> "#"%char /\ is_letter c = false /\ is_op_char c = false
    /\ c <> ","%char /\ is_space c = false.
Proof.
  intros Hin Hk. destruct (finditer_In _ _ Hin) as (a & b & len & -> & Hs & Hm & Hg).
  rewrite Hk in Hm. destruct b as [|c rest]; [discriminate|].
  destruct (match_at_MISMATCH _ _ _ Hm) as (-> & Hc).
  exists c. split; [|split; [|exact Hc]].
  - rewrite Hs. exact (eq_sym (append_correct2 a (String c rest) 0)).
  - rewrite Hg. simpl. now destruct rest.
Qed.

Lemma string_app_assoc (a b c : string) : (a ++ b) ++ c = a ++ (b ++ c).
Proof. induction a as [|x a IH]; simpl; [reflexivity|now rewrite IH]. Qed.

Lemma error_message_is_caret_diagnostic (expected : string) (tok : Token.t) (text : string) :
  caret_diagnostic text (Token.position tok) (error_message expected tok text).
Proof.
  exists ("error: expecting '" ++ expected ++ "' but got '" ++ Token.value tok ++ "'").
  unfold error_message, marker_line. now rewrite !string_app_assoc.
Qed.

Lemma occurs_app (c : ascii) (a b : string) : occurs c (a ++ String c b) = true.
Proof.
  induction a as [|x a IH]; simpl.
  - now rewrite Ascii.eqb_refl.
  - rewrite IH. apply orb_true_r.
Qed.

Lemma occurs_app_r (c : ascii) (a b : string) :
  occurs c b = true -> occurs c (a ++ b) = true.
Proof.
  intros H. induction a as [|x a IH]; simpl; [assumption|].
  rewrite IH. apply orb_true_r.
Qed.

(** The outcome of a run on a text that lexes, in terms of [parse_program]. *)
Lemma run_lexed (text : string) (toks : list Token.t) :
  tokenize text = inr toks ->
  run text
  = match parse_program (enough_fuel toks) (Parser_init (Lexer.Build text 0 toks)) with
    | Ok program _ => Parsed program
    | Raise e _ => Failed e
    | OutOfFuel => Unfinished
    end.
Proof. intros H. unfold run, Lexer_init. rewrite H. reflexivity. Qed.

Lemma run_not_lexed (text : string) (e : Exn) :
  tokenize text = inl e -> run text = Failed e.
Proof. intros H. unfold run, Lexer_init. rewrite H. reflexivity. Qed.

(** ** Parsing chains of operands: the parser run token by token *)

Lemma skipn_cons_nth_error {A} (l : list A) :
  forall k x r, skipn k l = x :: r -> nth_error l k = Some x.
Proof.
  induction l as [|y l IH]; intros [|k] x r H; simpl in *; try discriminate.
  - congruence.
  - eauto.
Qed.

Lemma skipn_cons_S {A} (l : list A) :
  forall k x r, skipn k l = x :: r -> skipn (S k) l = r.
Proof.
  induction l as [|y l IH]; intros [|k] x r H; simpl in *; try discriminate.
  - congruence.
  - eauto.
Qed.

Lemma skipn_app_more {A} (l : list A) (a : list A) :
  forall k b, skipn k l = (a ++ b)%list -> skipn (k + List.length a) l = b.
Proof.
  induction a as [|x a IH]; intros k b H; simpl in *.
  - now rewrite Nat.add_0_r.
  - rewrite Nat.add_succ_r. apply (IH (S k)). eapply skipn_cons_S. eassumption.
Qed.

Lemma bind_Ok {A B} (m : M A) (f : A -> M B) (p p' : Parser) (a : A) :
  m p = Ok a p' -> bind m f p = f a p'.
Proof. intros H. unfold bind. now rewrite H. Qed.

Lemma identifier_value (t : Token.t) :
  identifier_token t ->
  (Token.value t =? "~") = false /\ (Token.value t =? "(") = false
  /\ is_binary_op (Token.value t) = false /\ (Token.value t =? ")") = false.
Proof.
  intros (_ & c & r & -> & Hc). unfold is_binary_op.
  assert (forall d, is_letter d = false -> (String c r =? String d "") = false) as H.
  { intros d Hd. apply String.eqb_neq. intros [= -> ->]. congruence. }
  rewrite !H by reflexivity. auto.
Qed.

(** What follows an argument is a comma or the token after the list. *)
Lemma more_args_head (more : list (Token.t * Token.t)) (stop : Token.t)
  (suf : list Token.t) :
  more_args_ok more ->
  is_binary_op (Token.value stop) = false -> (Token.value stop =? "(") = false ->
  exists nxt suf',
    (more_args_tokens more ++ stop :: suf)%list = nxt :: suf'
    /\ is_binary_op (Token.value nxt) = false /\ (Token.value nxt =? "(") = false.
Proof.
  intros Hmore Hb Hp. destruct more as [|[c a] more].
  - exists stop, suf. auto.
  - simpl. eexists _, _. split; [reflexivity|].
    inversion Hmore as [|? ? ((_ & Hv) & _) _]; subst. simpl in Hv.
    rewrite Hv. split; reflexivity.
Qed.

(** What follows an operand of a chain is never an opening parenthesis. *)
Lemma chain_rest_head (rest : list (Token.t * operand)) (stop : Token.t)
  (suf : list Token.t) :
  chain_rest_ok rest -> (Token.value stop =? "(") = false ->
  exists nxt suf',
    (chain_rest_tokens rest ++ stop :: suf)%list = nxt :: suf'
    /\ (Token.value nxt =? "(") = false.
Proof.
  intros Hrest Hstop. destruct rest as [|[o x] rest].
  - exists stop, suf. auto.
  - simpl. eexists _, _. split; [reflexivity|].
    inversion Hrest as [|? ? ((_ & Hv) & _) _]; subst. simpl in Hv.
    destruct Hv as [-> | ->]; reflexivity.
Qed.

Section TokenByToken.

Variable txt : string.
Variable toks : list Token.t.

Local Abbreviation st := (st txt toks).

Lemma current_at (k : nat) (x : Token.t) (r : list Token.t) {B} (f : Token.t -> M B) :
  skipn k toks = x :: r -> bind current f (st (S k)) = f x (st (S k)).
Proof.
  intros H. apply bind_Ok, current_st. simpl. rewrite Nat.sub_0_r.
  eapply skipn_cons_nth_error. eassumption.
Qed.

Lemma consume_at (k : nat) (x : Token.t) (r : list Token.t) (ty : string)
  {B} (f : Token.t -> M B) :
  skipn k toks = x :: r -> Token.type x = ty ->
  bind (consume ty) f (st (S k)) = f x (st (S (S k))).
Proof.
  intros H Hty. apply bind_Ok, consume_st_ok; [|assumption]. simpl.
  rewrite Nat.sub_0_r. eapply skipn_cons_nth_error. eassumption.
Qed.

(** [parse_prefix_expression] on negation signs and an identifier that is
    not followed by an opening parenthesis. *)
Lemma parse_prefix_expression_operand (nots : list Token.t) :
  forall (a nxt : Token.t) (suf : list Token.t) (k n : nat),
    skipn k toks = (nots ++ a :: nxt :: suf)%list ->
    Forall not_token nots -> identifier_token a ->
    (Token.value nxt =? "(") = false ->
    List.length nots + 2 <= n ->
    parse_prefix_expression n (st (S k))
    = Ok (operand_tree (nots, a)) (st (S (k + List.length nots + 1))).
Proof.
  induction nots as [|t nots IH]; intros a nxt suf k n Hk Hnots Ha Hnxt Hn.
  - destruct n as [|[|n]]; [simpl in Hn; lia..|]. simpl in Hk.
    destruct (identifier_value a Ha) as (Hv & _). destruct Ha as (Hty & _).
    rewrite parse_prefix_expression_S, (current_at _ _ _ _ Hk), Hv.
    rewrite parse_primary_expression_S, (current_at _ _ _ _ Hk), Hty.
    cbn [String.eqb Ascii.eqb Bool.eqb].
    rewrite (consume_at _ _ _ "ID" _ Hk Hty).
    rewrite (current_at _ _ _ _ (skipn_cons_S _ _ _ _ Hk)), Hnxt.
    simpl. rewrite Nat.add_0_r, Nat.add_1_r. reflexivity.
  - destruct n as [|n]; [simpl in Hn; lia|]. simpl in Hk, Hn.
    inversion Hnots as [|? ? (Hty & Hv) Hnots']; subst.
    rewrite parse_prefix_expression_S, (current_at _ _ _ _ Hk), Hv.
    cbn [String.eqb Ascii.eqb Bool.eqb].
    rewrite (consume_at _ _ _ "OP" _ Hk Hty).
    erewrite bind_Ok
      by (eapply (IH a nxt suf (S k) n); eauto using skipn_cons_S; lia).
    unfold ret, operand_tree. simpl. do 2 f_equal. lia.
Qed.

(** [expression_loop] on the rest of a chain folds it onto [left], up to
    a token that is neither a binary operator nor an opening
    parenthesis. *)
Lemma expression_loop_chain (rest : list (Token.t * operand)) :
  forall (stop : Token.t) (suf : list Token.t) (k n : nat) (left : Node),
    skipn k toks = (chain_rest_tokens rest ++ stop :: suf)%list ->
    chain_rest_ok rest ->
    is_binary_op (Token.value stop) = false ->
    (Token.value stop =? "(") = false ->
    List.length (chain_rest_tokens rest) + 1 <= n ->
    expression_loop n left (st (S k))
    = Ok (chain_fold left rest) (st (S (k + List.length (chain_rest_tokens rest)))).
Proof.
  induction rest as [|[o [nots a]] rest IH];
    intros stop suf k n left Hk Hrest Hstop Hstop' Hn.
  - destruct n as [|n]; [simpl in Hn; lia|]. simpl in Hk.
    rewrite expression_loop_S, (current_at _ _ _ _ Hk), Hstop.
    simpl. rewrite Nat.add_0_r. reflexivity.
  - destruct n as [|n]; [simpl in Hn; lia|].
    inversion Hrest as [|? ? ((Hty & Hv) & Hnots & Ha) Hrest']; subst.
    cbn [fst snd] in Hty, Hv, Hnots, Ha.
    cbn [chain_rest_tokens flat_map fst snd] in Hk, Hn |- *.
    fold (chain_rest_tokens rest) in Hk, Hn |- *.
    unfold operand_tokens in Hk, Hn |- *. cbn [fst snd] in Hk, Hn |- *.
    simpl in Hk. rewrite <- !app_assoc in Hk. simpl in Hk, Hn.
    rewrite !length_app in Hn. simpl in Hn.
    assert (is_binary_op (Token.value o) = true) as Hop
      by (unfold is_binary_op; destruct Hv as [-> | ->]; reflexivity).
    rewrite expression_loop_S, (current_at _ _ _ _ Hk), Hop.
    rewrite (consume_at _ _ _ "OP" _ Hk Hty).
    pose proof (skipn_cons_S _ _ _ _ Hk) as Hk1.
    destruct (chain_rest_head rest stop suf Hrest' Hstop') as (nxt & suf' & E & Hnxt).
    rewrite E in Hk1.
    erewrite bind_Ok
      by (eapply (parse_prefix_expression_operand nots a nxt suf' (S k) n);
          eauto; lia).
    rewrite <- E in Hk1.
    assert (skipn (S k + List.length nots + 1) toks
            = (chain_rest_tokens rest ++ stop :: suf)%list) as Hk2.
    { rewrite <- Nat.add_assoc.
      change (nots ++ a :: chain_rest_tokens rest ++ stop :: suf)%list
        with (nots ++ [a] ++ chain_rest_tokens rest ++ stop :: suf)%list in Hk1.
      rewrite app_assoc in Hk1.
      apply (skipn_app_more toks (nots ++ [a])%list (S k)) in Hk1.
      rewrite length_app in Hk1. exact Hk1. }
    rewrite (IH stop suf _ n _ Hk2 Hrest' Hstop Hstop') by lia.
    unfold chain_fold. simpl. do 2 f_equal.
    rewrite !length_app. simpl. lia.
Qed.

(** [parse_expression] on a whole chain. *)
Lemma parse_expression_chain (first : operand) (rest : list (Token.t * operand))
  (stop : Token.t) (suf : list Token.t) (k n : nat) :
  skipn k toks = (operand_tokens first ++ chain_rest_tokens rest ++ stop :: suf)%list ->
  operand_ok first -> chain_rest_ok rest ->
  is_binary_op (Token.value stop) = false ->
  (Token.value stop =? "(") = false ->
  List.length (operand_tokens first) + List.length (chain_rest_tokens rest) + 2 <= n ->
  parse_expression n (st (S k))
  = Ok (chain_fold (operand_tree first) rest)
      (st (S (k + List.length (operand_tokens first)
              + List.length (chain_rest_tokens rest)))).
Proof.
  destruct first as [nots a]. unfold operand_tokens, operand_ok. cbn [fst snd].
  rewrite length_app. cbn [List.length].
  intros Hk (Hnots & Ha) Hrest Hstop Hstop' Hn.
  destruct n as [|n]; [lia|].
  destruct (chain_rest_head rest stop suf Hrest Hstop') as (nxt & suf' & E & Hnxt).
  rewrite <- app_assoc in Hk. simpl in Hk.
  rewrite parse_expression_S.
  erewrite bind_Ok
    by (eapply (parse_prefix_expression_operand nots a nxt suf' k n);
        eauto; [rewrite <- E; exact Hk|lia]).
  assert (skipn (k + List.length nots + 1) toks
          = (chain_rest_tokens rest ++ stop :: suf)%list) as Hk'.
  { change (nots ++ a :: chain_rest_tokens rest ++ stop :: suf)%list
      with (nots ++ [a] ++ chain_rest_tokens rest ++ stop :: suf)%list in Hk.
    rewrite app_assoc in Hk. apply skipn_app_more in Hk.
    rewrite length_app, Nat.add_assoc in Hk. exact Hk. }
  rewrite (Nat.add_assoc k).
  apply (expression_loop_chain rest stop suf _ n _ Hk' Hrest Hstop Hstop'). lia.
Qed.

(** [parse_expression] on an identifier followed by neither a binary
    operator nor an opening parenthesis. *)
Lemma parse_expression_identifier (a nxt : Token.t) (suf : list Token.t) (k n : nat) :
  skipn k toks = a :: nxt :: suf -> identifier_token a ->
  is_binary_op (Token.value nxt) = false -> (Token.value nxt =? "(") = false ->
  3 <= n ->
  parse_expression n (st (S k)) = Ok (NId (Token.value a)) (st (S (S k))).
Proof.
  intros Hk Ha Hb Hp Hn.
  rewrite (parse_expression_chain ([], a) [] nxt suf k n); auto.
  - unfold operand_tokens. simpl. now rewrite Nat.add_0_r, Nat.add_1_r.
  - split; [constructor|assumption].
  - constructor.
Qed.

(** [args_loop] on the arguments after the first one. *)
Lemma args_loop_more (more : list (Token.t * Token.t)) :
  forall (stop : Token.t) (suf : list Token.t) (k n : nat) (args : list Node),
    skipn k toks = (more_args_tokens more ++ stop :: suf)%list ->
    more_args_ok more ->
    (Token.type stop =? "COMMA") = false ->
    is_binary_op (Token.value stop) = false -> (Token.value stop =? "(") = false ->
    List.length (more_args_tokens more) + 2 <= n ->
    args_loop n args (st (S k))
    = Ok (args ++ map (fun ca => NId (Token.value (snd ca))) more)%list
        (st (S (k + List.length (more_args_tokens more)))).
Proof.
  induction more as [|[c a] more IH]; intros stop suf k n args Hk Hmore Hty Hb Hp Hn.
  - destruct n as [|n]; [simpl in Hn; lia|]. simpl in Hk.
    rewrite args_loop_S, (current_at _ _ _ _ Hk), Hty.
    unfold ret. simpl. now rewrite app_nil_r, Nat.add_0_r.
  - destruct n as [|n]; [simpl in Hn; lia|].
    inversion Hmore as [|? ? ((Hcty & _) & Ha) Hmore']; subst.
    cbn [fst snd] in Hcty, Ha. simpl in Hk, Hn.
    rewrite args_loop_S, (current_at _ _ _ _ Hk), Hcty.
    cbn [String.eqb Ascii.eqb Bool.eqb].
    rewrite (consume_at _ _ _ "COMMA" _ Hk Hcty).
    pose proof (skipn_cons_S _ _ _ _ Hk) as Hk1.
    pose proof (skipn_cons_S _ _ _ _ Hk1) as Hk2.
    destruct (more_args_head more stop suf Hmore' Hb Hp) as (nxt & suf' & E & Hb' & Hp').
    rewrite E in Hk1.
    erewrite bind_Ok
      by (apply (parse_expression_identifier a nxt suf' (S k) n); auto; lia).
    rewrite (IH stop suf (S (S k)) n _ Hk2 Hmore' Hty Hb Hp) by lia.
    simpl. rewrite <- app_assoc. simpl. do 3 f_equal. lia.
Qed.

(** [parse_function_application] on an argument list of identifiers. *)
Lemma parse_function_application_args (lpar a : Token.t)
  (more : list (Token.t * Token.t)) (rpar : Token.t) (suf : list Token.t)
  (k n : nat) (name : string) :
  skipn k toks = (lpar :: a :: more_args_tokens more ++ rpar :: suf)%list ->
  open_token lpar -> identifier_token a -> more_args_ok more -> close_token rpar ->
  List.length (more_args_tokens more) + 4 <= n ->
  parse_function_application n name (st (S k))
  = Ok (NApp (NId (Token.value a) :: map (fun ca => NId (Token.value (snd ca))) more) name)
      (st (S (k + 3 + List.length (more_args_tokens more)))).
Proof.
  intros Hk (Hlty & _) Ha Hmore (Hrty & Hrv) Hn.
  destruct n as [|n]; [lia|].
  pose proof (skipn_cons_S _ _ _ _ Hk) as Hk1.
  pose proof (skipn_cons_S _ _ _ _ Hk1) as Hk2.
  assert (is_binary_op (Token.value rpar) = false) as Hb by now rewrite Hrv.
  assert ((Token.value rpar =? "(") = false) as Hp by now rewrite Hrv.
  destruct (more_args_head more rpar suf Hmore Hb Hp) as (nxt & suf' & E & Hb' & Hp').
  destruct (identifier_value a Ha) as (_ & _ & _ & Hclose).
  rewrite parse_function_application_S, (consume_at _ _ _ "OP" _ Hk Hlty).
  rewrite (current_at _ _ _ _ Hk1), Hclose. cbn [negb].
  assert ((arg <- parse_expression n ;; args_loop n [arg]) (st (S (S k)))
          = Ok (NId (Token.value a) :: map (fun ca => NId (Token.value (snd ca))) more)
              (st (S (S (S k) + List.length (more_args_tokens more))))) as Hargs.
  { erewrite bind_Ok
      by (apply (parse_expression_identifier a nxt suf' (S k) n);
          [rewrite <- E; exact Hk1|assumption..|lia]).
    rewrite (args_loop_more more rpar suf (S (S k)) n _ Hk2 Hmore); auto.
    - now rewrite Hrty.
    - lia. }
  rewrite (bind_Ok _ _ _ _ _ Hargs).
  rewrite (consume_at _ _ _ "OP" _ (skipn_app_more _ _ _ _ Hk2) Hrty).
  unfold ret. do 2 f_equal. lia.
Qed.

(** [parse_function_application] on an empty argument list. *)
Lemma parse_function_application_empty (lpar rpar : Token.t) (suf : list Token.t)
  (k n : nat) (name : string) :
  skipn k toks = lpar :: rpar :: suf -> open_token lpar -> close_token rpar ->
  1 <= n ->
  parse_function_application n name (st (S k)) = Ok (NApp [] name) (st (S (S (S k)))).
Proof.
  intros Hk (Hlty & _) (Hrty & Hrv) Hn. destruct n as [|n]; [lia|].
  pose proof (skipn_cons_S _ _ _ _ Hk) as Hk1.
  rewrite parse_function_application_S, (consume_at _ _ _ "OP" _ Hk Hlty).
  rewrite (current_at _ _ _ _ Hk1), Hrv. cbn [String.eqb Ascii.eqb Bool.eqb negb].
  change ((args <- ret [] ;; consume "OP" ;; ret (NApp args name)) (st (S (S k))))
    with ((consume "OP" ;; ret (NApp [] name)) (st (S (S k)))).
  now rewrite (consume_at _ _ _ "OP" _ Hk1 Hrty).
Qed.

(** The lookahead after an identifier decides: before an opening
    parenthesis, [parse_prefix_expression] hands the identifier's text to
    [parse_function_application], which starts at the parenthesis. *)
Lemma parse_prefix_expression_call (f lpar : Token.t) (suf : list Token.t) (k n : nat) :
  skipn k toks = f :: lpar :: suf -> identifier_token f -> Token.value lpar = "(" ->
  parse_prefix_expression (S (S n)) (st (S k))
  = parse_function_application n (Token.value f) (st (S (S k))).
Proof.
  intros Hk Hf Hl. destruct (identifier_value f Hf) as (Hv & _).
  destruct Hf as (Hty & _).
  rewrite parse_prefix_expression_S, (current_at _ _ _ _ Hk), Hv.
  rewrite parse_primary_expression_S, (current_at _ _ _ _ Hk), Hty.
  cbn [String.eqb Ascii.eqb Bool.eqb].
  rewrite (consume_at _ _ _ "ID" _ Hk Hty).
  rewrite (current_at _ _ _ _ (skipn_cons_S _ _ _ _ Hk)), Hl. reflexivity.
Qed.

End TokenByToken.

(** A run of the parser over the tokens of one expression that
    [parse_prefix_expression] reads whole, up to the end of input. *)
Lemma parse_program_one_expression (txt : string) (toks : list Token.t)
  (h : Token.t) (tl : list Token.t) (k n : nat) (e : Node) (eof : Token.t) :
  toks = h :: tl -> Token.type h = "ID" \/ Token.type h = "OP" ->
  parse_prefix_expression n (st txt toks 1) = Ok e (st txt toks (S k)) ->
  skipn k toks = [eof] -> end_token eof -> 1 <= n ->
  parse_program (S (S n)) (Parser_init (Lexer.Build txt 0 toks))
  = Ok [e] (st txt toks (S k)).
Proof.
  intros Eh Hh Hprefix Hk (Hety & Hev) Hn.
  assert (skipn 0 toks = h :: tl) as H0 by exact Eh.
  assert ((if negb (Token.type h =? "EOF") then
             if Token.type h =? "FN" then true else false
           else true) = false) as Hty
    by (destruct Hh as [-> | ->]; reflexivity).
  rewrite Parser_init_st. unfold parse_program.
  rewrite program_loop_S, (current_at _ _ _ _ _ _ H0).
  destruct (negb (Token.type h =? "EOF")); [|discriminate].
  destruct (Token.type h =? "FN"); [discriminate|].
  assert (parse_expression (S n) (st txt toks 1) = Ok e (st txt toks (S k))) as Hexpr.
  { rewrite parse_expression_S, (bind_Ok _ _ _ _ _ Hprefix).
    destruct n as [|n]; [lia|].
    rewrite expression_loop_S, (current_at _ _ _ _ _ _ Hk), Hev. reflexivity. }
  rewrite (bind_Ok _ _ _ _ _ Hexpr).
  rewrite program_loop_S, (current_at _ _ _ _ _ _ Hk), Hety. reflexivity.
Qed.

(** A run of the parser over the tokens of a call with arguments. *)
Lemma parse_program_call (txt : string) (f lpar a : Token.t)
  (more : list (Token.t * Token.t)) (rpar eof : Token.t) (n : nat) :
  identifier_token f -> open_token lpar -> identifier_token a ->
  more_args_ok more -> close_token rpar -> end_token eof ->
  List.length (call_tokens f lpar a more rpar eof) + 4 <= n ->
  parse_program n (Parser_init (Lexer.Build txt 0 (call_tokens f lpar a more rpar eof)))
  = Ok [NApp (NId (Token.value a) :: map (fun ca => NId (Token.value (snd ca))) more)
          (Token.value f)]
      (st txt (call_tokens f lpar a more rpar eof)
         (List.length (call_tokens f lpar a more rpar eof))).
Proof.
  intros Hf Hl Ha Hmore Hr Heof Hn.
  set (toks := call_tokens f lpar a more rpar eof) in *.
  assert (List.length toks = List.length (more_args_tokens more) + 5) as Hlen.
  { unfold toks, call_tokens. simpl. rewrite length_app. simpl. lia. }
  destruct n as [|[|[|[|n]]]]; [lia..|].
  assert (skipn 1 toks = (lpar :: a :: more_args_tokens more ++ rpar :: [eof])%list)
    as H1 by reflexivity.
  replace (List.length toks) with (S (4 + List.length (more_args_tokens more))) by lia.
  apply (parse_program_one_expression txt toks f _ _ (S (S n)) _ eof eq_refl).
  - left. apply Hf.
  - rewrite (parse_prefix_expression_call txt toks f lpar _ 0 n eq_refl Hf (proj2 Hl)).
    apply (parse_function_application_args txt toks lpar a more rpar [eof] 1 n);
      auto. lia.
  - pose proof (skipn_cons_S _ _ _ _ H1) as H2.
    pose proof (skipn_cons_S _ _ _ _ H2) as H3.
    apply (skipn_app_more _ _ _ _) in H3.
    apply skipn_cons_S in H3. exact H3.
  - exact Heof.
  - lia.
Qed.

(** A run of the parser over the tokens of a call without arguments. *)
Lemma parse_program_call_empty (txt : string) (f lpar rpar eof : Token.t) (n : nat) :
  identifier_token f -> open_token lpar -> close_token rpar -> end_token eof ->
  5 <= n ->
  parse_program n (Parser_init (Lexer.Build txt 0 [f; lpar; rpar; eof]))
  = Ok [NApp [] (Token.value f)] (st txt [f; lpar; rpar; eof] 4).
Proof.
  intros Hf Hl Hr Heof Hn.
  destruct n as [|[|[|[|n]]]]; [lia..|].
  apply (parse_program_one_expression txt _ f _ 3 (S (S n)) _ eof eq_refl).
  - left. apply Hf.
  - rewrite (parse_prefix_expression_call txt _ f lpar _ 0 n eq_refl Hf (proj2 Hl)).
    apply (parse_function_application_empty txt _ lpar rpar [eof] 1 n); auto. lia.
  - reflexivity.
  - exact Heof.
  - lia.
Qed.

(** ** Parsing the sentences of the expression grammar *)

Lemma primary_head (p : Primary) :
  wf_primary p ->
  exists h tl,
    tokens_primary p = h :: tl
    /\ (Token.value h =? "~") = false /\ (Token.value h =? ")") = false
    /\ (Token.type h = "BOOL" \/ Token.type h = "ID" \/ Token.type h = "OP").
Proof.
  destruct p as [t|t|f lpar args rpar|lpar e rpar]; simpl.
  - intros (Hty & Hv). exists t, []. destruct Hv as [Hv|Hv]; rewrite Hv; auto.
  - intros Ht. destruct (identifier_value t Ht) as (H1 & _ & _ & H2).
    exists t, []. destruct Ht as (Hty & _). auto 6.
  - intros (Hf & _). destruct (identifier_value f Hf) as (H1 & _ & _ & H2).
    eexists f, _. destruct Hf as (Hty & _). auto 6.
  - intros ((Hty & Hv) & _). eexists lpar, _. rewrite Hv. auto 6.
Qed.

Lemma unary_head (u : Unary) :
  wf_unary u ->
  exists h tl,
    tokens_unary u = h :: tl /\ starts_sentence h.
Proof.
  destruct u as [t u|p]; simpl.
  - intros ((Hty & Hv) & _). eexists t, _. unfold starts_sentence.
    rewrite Hv. auto 6.
  - intros Hp. destruct (primary_head p Hp) as (h & tl & E & _ & H2 & H3).
    exists h, tl. unfold starts_sentence. auto.
Qed.

Lemma expr_head (e : Expr) :
  wf_expr e ->
  exists h tl, tokens_expr e = h :: tl /\ starts_sentence h.
Proof.
  induction e as [u|e IH op u]; simpl.
  - apply unary_head.
  - intros (He & _). destruct (IH He) as (h & tl & -> & Hh). simpl. eauto.
Qed.

Lemma args1_head (a : Args1) :
  wf_args1 a ->
  exists h tl, tokens_args1 a = h :: tl /\ starts_sentence h.
Proof.
  induction a as [e|a IH comma e]; simpl.
  - apply expr_head.
  - intros (Ha & _). destruct (IH Ha) as (h & tl & -> & Hh). simpl. eauto.
Qed.

Lemma expression_grammar_more_fuel (n m : nat) :
  n <= m ->
  stable (parse_expression n) (parse_expression m)
  /\ (forall left, stable (expression_loop n left) (expression_loop m left))
  /\ stable (parse_prefix_expression n) (parse_prefix_expression m)
  /\ stable (parse_primary_expression n) (parse_primary_expression m)
  /\ (forall name, stable (parse_function_application n name)
                     (parse_function_application m name))
  /\ (forall args, stable (args_loop n args) (args_loop m args)).
Proof.
  induction 1 as [|m _ (IHE & IHL & IHP & IHQ & IHA & IHG)].
  - repeat split; intros; apply stable_refl.
  - destruct (expression_grammar_stable m) as (HE & HL & HP & HQ & HA & HG).
    repeat split; intros; eapply stable_trans; eauto.
Qed.

Section Sentences.

Variable txt : string.
Variable toks : list Token.t.

Local Abbreviation st := (st txt toks).

(** The loops stop on a token that does not continue them. *)
Lemma expression_loop_stops (k : nat) (nxt : Token.t) (suf : list Token.t)
  (left : Node) :
  skipn k toks = nxt :: suf -> is_binary_op (Token.value nxt) = false ->
  returns (fun n => expression_loop n left) (st (S k)) left (st (S k)).
Proof.
  intros Hk Hnxt. exists 1. intros [|n] Hn; [lia|].
  now rewrite expression_loop_S, (current_at _ _ _ _ _ _ Hk), Hnxt.
Qed.

Lemma args_loop_stops (k : nat) (nxt : Token.t) (suf : list Token.t)
  (args : list Node) :
  skipn k toks = nxt :: suf -> (Token.type nxt =? "COMMA") = false ->
  returns (fun n => args_loop n args) (st (S k)) args (st (S k)).
Proof.
  intros Hk Hnxt. exists 1. intros [|n] Hn; [lia|].
  now rewrite args_loop_S, (current_at _ _ _ _ _ _ Hk), Hnxt.
Qed.


(** The parser on the tokens of a sentence, wherever they stand in the
    token list: each function of the expression grammar reads the sentence
    whole and returns its tree.  The token after the sentence is not an
    opening parenthesis, which would turn a final identifier into a
    call. *)
Lemma sentences_parse :
  (forall p k nxt suf,
      skipn k toks = (tokens_primary p ++ nxt :: suf)%list -> wf_primary p ->
      (Token.value nxt =? "(") = false ->
      returns parse_primary_expression (st (S k)) (tree_primary p)
        (st (S (k + List.length (tokens_primary p)))))
  /\ (forall u k nxt suf,
         skipn k toks = (tokens_unary u ++ nxt :: suf)%list -> wf_unary u ->
         (Token.value nxt =? "(") = false ->
         returns parse_prefix_expression (st (S k)) (tree_unary u)
           (st (S (k + List.length (tokens_unary u)))))
  /\ (forall e k nxt suf,
         skipn k toks = (tokens_expr e ++ nxt :: suf)%list -> wf_expr e ->
         (Token.value nxt =? "(") = false ->
         forall a q,
           returns (fun n => expression_loop n (tree_expr e))
             (st (S (k + List.length (tokens_expr e)))) a q ->
           returns parse_expression (st (S k)) a q)
  /\ (forall a k lpar rpar suf name,
         skipn k toks = (lpar :: tokens_args a ++ rpar :: suf)%list ->
         open_token lpar -> wf_args a -> close_token rpar ->
         returns (fun n => parse_function_application n name) (st (S k))
           (NApp (tree_args a) name)
           (st (S (S (S (k + List.length (tokens_args a)))))))
  /\ (forall a k nxt suf,
         skipn k toks = (tokens_args1 a ++ nxt :: suf)%list -> wf_args1 a ->
         is_binary_op (Token.value nxt) = false ->
         (Token.value nxt =? "(") = false ->
         forall r q,
           returns (fun n => args_loop n (tree_args1 a))
             (st (S (k + List.length (tokens_args1 a)))) r q ->
           returns parse_args (st (S k)) r q).
Proof.
  apply syntax_mutind.
  - (* a boolean literal *)
    intros t k nxt suf Hk (Hty & _) _. simpl in Hk. exists 1.
    intros [|n] Hn; [lia|].
    rewrite parse_primary_expression_S, (current_at _ _ _ _ _ _ Hk), Hty.
    cbn [String.eqb Ascii.eqb Bool.eqb].
    rewrite (consume_at _ _ _ _ _ "BOOL" _ Hk Hty).
    unfold ret. simpl. now rewrite Nat.add_1_r.
  - (* an identifier *)
    intros t k nxt suf Hk (Hty & _) Hnxt. simpl in Hk. exists 1.
    intros [|n] Hn; [lia|].
    rewrite parse_primary_expression_S, (current_at _ _ _ _ _ _ Hk), Hty.
    cbn [String.eqb Ascii.eqb Bool.eqb].
    rewrite (consume_at _ _ _ _ _ "ID" _ Hk Hty).
    rewrite (current_at _ _ _ _ _ _ (skipn_cons_S _ _ _ _ Hk)), Hnxt.
    unfold ret. simpl. now rewrite Nat.add_1_r.
  - (* a call *)
    intros f lpar args IH rpar k nxt suf Hk ((Hty & _) & Hl & Hargs & Hr) _.
    cbn [tokens_primary] in Hk |- *. simpl in Hk. rewrite <- app_assoc in Hk.
    simpl in Hk. pose proof (skipn_cons_S _ _ _ _ Hk) as Hk1.
    destruct (IH (S k) lpar rpar (nxt :: suf) (Token.value f) Hk1 Hl Hargs Hr)
      as (n0 & H0).
    exists (S n0). intros [|n] Hn; [lia|].
    rewrite parse_primary_expression_S, (current_at _ _ _ _ _ _ Hk), Hty.
    cbn [String.eqb Ascii.eqb Bool.eqb].
    rewrite (consume_at _ _ _ _ _ "ID" _ Hk Hty).
    rewrite (current_at _ _ _ _ _ _ Hk1), (proj2 Hl).
    cbn [String.eqb Ascii.eqb Bool.eqb].
    rewrite (H0 n) by lia. cbn [tree_primary]. do 2 f_equal.
    cbn [List.length]. rewrite length_app. simpl. lia.
  - (* a parenthesized expression *)
    intros lpar e IH rpar k nxt suf Hk ((Hty & Hv) & He & (Hrty & Hrv)) _.
    cbn [tokens_primary] in Hk |- *. simpl in Hk. rewrite <- app_assoc in Hk.
    simpl in Hk. pose proof (skipn_cons_S _ _ _ _ Hk) as Hk1.
    pose proof (skipn_app_more _ _ _ _ Hk1) as Hk2.
    assert (returns parse_expression (st (S (S k))) (tree_expr e)
              (st (S (S k + List.length (tokens_expr e))))) as (n0 & H0).
    { apply (IH (S k) rpar (nxt :: suf) Hk1 He); [now rewrite Hrv|].
      apply (expression_loop_stops _ rpar (nxt :: suf)); [exact Hk2|].
      now rewrite Hrv. }
    exists (S n0). intros [|n] Hn; [lia|].
    rewrite parse_primary_expression_S, (current_at _ _ _ _ _ _ Hk), Hty, Hv.
    cbn [String.eqb Ascii.eqb Bool.eqb].
    rewrite (consume_at _ _ _ _ _ "OP" _ Hk Hty).
    rewrite (bind_Ok _ _ _ _ _ (H0 n ltac:(lia))).
    rewrite (consume_at _ _ _ _ _ "OP" _ Hk2 Hrty).
    unfold ret. cbn [tree_primary]. do 2 f_equal.
    cbn [List.length]. rewrite length_app. simpl. lia.
  - (* a negation *)
    intros t u IH k nxt suf Hk ((Hty & Hv) & Hu) Hnxt. simpl in Hk.
    pose proof (skipn_cons_S _ _ _ _ Hk) as Hk1.
    destruct (IH (S k) nxt suf Hk1 Hu Hnxt) as (n0 & H0).
    exists (S n0). intros [|n] Hn; [lia|].
    rewrite parse_prefix_expression_S, (current_at _ _ _ _ _ _ Hk), Hv.
    cbn [String.eqb Ascii.eqb Bool.eqb].
    rewrite (consume_at _ _ _ _ _ "OP" _ Hk Hty).
    rewrite (bind_Ok _ _ _ _ _ (H0 n ltac:(lia))).
    unfold ret. simpl. do 2 f_equal. lia.
  - (* a primary *)
    intros p IH k nxt suf Hk Hp Hnxt. simpl in Hk |- *.
    destruct (IH k nxt suf Hk Hp Hnxt) as (n0 & H0).
    destruct (primary_head p Hp) as (h & tl & E & Hh & _).
    rewrite E in Hk. simpl in Hk.
    exists (S n0). intros [|n] Hn; [lia|].
    rewrite parse_prefix_expression_S, (current_at _ _ _ _ _ _ Hk), Hh.
    apply H0. lia.
  - (* a single operand *)
    intros u IH k nxt suf Hk Hu Hnxt a q (n1 & H1). simpl in Hk, H1.
    destruct (IH k nxt suf Hk Hu Hnxt) as (n0 & H0).
    exists (S (Nat.max n0 n1)). intros [|n] Hn; [lia|].
    rewrite parse_expression_S, (bind_Ok _ _ _ _ _ (H0 n ltac:(lia))).
    apply H1. lia.
  - (* an operator and its right operand *)
    intros e IHe op u IHu k nxt suf Hk (He & (Hty & Hv) & Hu) Hnxt a q (n1 & H1).
    cbn [tokens_expr tree_expr] in Hk, H1. rewrite <- app_assoc in Hk.
    simpl in Hk. pose proof (skipn_app_more _ _ _ _ Hk) as Hk1.
    pose proof (skipn_cons_S _ _ _ _ Hk1) as Hk2.
    assert (is_binary_op (Token.value op) = true) as Hop
      by (unfold is_binary_op; destruct Hv as [-> | ->]; reflexivity).
    apply (IHe k op (tokens_unary u ++ nxt :: suf)%list Hk He).
    { destruct Hv as [-> | ->]; reflexivity. }
    destruct (IHu _ nxt suf Hk2 Hu Hnxt) as (n0 & H0).
    exists (S (Nat.max n0 n1)). intros [|n] Hn; [lia|].
    rewrite expression_loop_S, (current_at _ _ _ _ _ _ Hk1), Hop.
    rewrite (consume_at _ _ _ _ _ "OP" _ Hk1 Hty).
    rewrite (bind_Ok _ _ _ _ _ (H0 n ltac:(lia))).
    rewrite <- (H1 n) by lia. do 2 f_equal.
    rewrite length_app. simpl. lia.
  - (* no argument *)
    intros k lpar rpar suf name Hk (Hty & _) _ (Hrty & Hrv). simpl in Hk.
    pose proof (skipn_cons_S _ _ _ _ Hk) as Hk1.
    exists 1. intros [|n] Hn; [lia|].
    rewrite parse_function_application_S, (consume_at _ _ _ _ _ "OP" _ Hk Hty).
    rewrite (current_at _ _ _ _ _ _ Hk1), Hrv.
    cbn [String.eqb Ascii.eqb Bool.eqb negb].
    change ((args <- ret [] ;; consume "OP" ;; ret (NApp args name)) (st (S (S k))))
      with ((consume "OP" ;; ret (NApp [] name)) (st (S (S k)))).
    rewrite (consume_at _ _ _ _ _ "OP" _ Hk1 Hrty).
    unfold ret. simpl. now rewrite Nat.add_0_r.
  - (* some arguments *)
    intros a IH k lpar rpar suf name Hk (Hty & _) Ha (Hrty & Hrv).
    cbn [tokens_args tree_args] in Hk |- *.
    pose proof (skipn_cons_S _ _ _ _ Hk) as Hk1.
    pose proof (skipn_app_more _ _ _ _ Hk1) as Hk2.
    assert (returns parse_args (st (S (S k))) (tree_args1 a)
              (st (S (S k + List.length (tokens_args1 a))))) as (n0 & H0).
    { apply (IH (S k) rpar suf Hk1 Ha); [now rewrite Hrv..|].
      apply (args_loop_stops _ rpar suf); [exact Hk2|]. now rewrite Hrty. }
    destruct (args1_head a Ha) as (h & tl & E & Hh & _).
    rewrite E in Hk1. cbn [app] in Hk1.
    exists (S n0). intros [|n] Hn; [lia|].
    rewrite parse_function_application_S, (consume_at _ _ _ _ _ "OP" _ Hk Hty).
    rewrite (current_at _ _ _ _ _ _ Hk1), Hh. cbn [negb].
    change (arg <- parse_expression n ;; args_loop n [arg]) with (parse_args n).
    rewrite (bind_Ok _ _ _ _ _ (H0 n ltac:(lia))).
    rewrite (consume_at _ _ _ _ _ "OP" _ Hk2 Hrty).
    unfold ret. do 2 f_equal.
  - (* one argument *)
    intros e IH k nxt suf Hk He Hb Hnxt r q (n1 & H1). simpl in Hk, H1.
    pose proof (skipn_app_more _ _ _ _ Hk) as Hk1.
    assert (returns parse_expression (st (S k)) (tree_expr e)
              (st (S (k + List.length (tokens_expr e))))) as (n0 & H0).
    { apply (IH k nxt suf Hk He Hnxt).
      now apply (expression_loop_stops _ nxt suf). }
    exists (Nat.max n0 n1). intros n Hn. unfold parse_args.
    rewrite (bind_Ok _ _ _ _ _ (H0 n ltac:(lia))). apply H1. lia.
  - (* a comma and one more argument *)
    intros a IHa comma e IHe k nxt suf Hk (Ha & (Hty & Hv) & He) Hb Hnxt r q
      (n1 & H1).
    cbn [tokens_args1 tree_args1] in Hk, H1. rewrite <- app_assoc in Hk.
    simpl in Hk. pose proof (skipn_app_more _ _ _ _ Hk) as Hk1.
    pose proof (skipn_cons_S _ _ _ _ Hk1) as Hk2.
    pose proof (skipn_app_more _ _ _ _ Hk2) as Hk3.
    apply (IHa k comma (tokens_expr e ++ nxt :: suf)%list Hk Ha);
      [now rewrite Hv..|].
    assert (returns parse_expression (st (S (S (k + List.length (tokens_args1 a)))))
              (tree_expr e)
              (st (S (S (k + List.length (tokens_args1 a))
                      + List.length (tokens_expr e))))) as (n0 & H0).
    { apply (IHe _ nxt suf Hk2 He Hnxt).
      now apply (expression_loop_stops _ nxt suf). }
    exists (S (Nat.max n0 n1)). intros [|n] Hn; [lia|].
    rewrite args_loop_S, (current_at _ _ _ _ _ _ Hk1), Hty.
    cbn [String.eqb Ascii.eqb Bool.eqb].
    rewrite (consume_at _ _ _ _ _ "COMMA" _ Hk1 Hty).
    rewrite (bind_Ok _ _ _ _ _ (H0 n ltac:(lia))).
    rewrite <- (H1 n) by lia. do 2 f_equal.
    rewrite length_app. simpl. lia.
Qed.

End Sentences.

(** An expression followed by a token that is neither a binary operator nor
    an opening parenthesis is read whole by [parse_expression]. *)
Lemma parse_expression_sentence (txt : string) (toks : list Token.t) (e : Expr)
  (k : nat) (nxt : Token.t) (suf : list Token.t) :
  skipn k toks = (tokens_expr e ++ nxt :: suf)%list -> wf_expr e ->
  is_binary_op (Token.value nxt) = false -> (Token.value nxt =? "(") = false ->
  returns parse_expression (st txt toks (S k)) (tree_expr e)
    (st txt toks (S (k + List.length (tokens_expr e)))).
Proof.
  intros Hk He Hb Hnxt.
  destruct (sentences_parse txt toks) as (_ & _ & H & _).
  apply (H e k nxt suf Hk He Hnxt).
  apply (expression_loop_stops txt toks _ nxt suf); [|exact Hb].
  now apply skipn_app_more in Hk.
Qed.

(** A run of the parser over the tokens of one expression. *)
Lemma parse_program_sentence (txt : string) (e : Expr) (eof : Token.t) :
  wf_expr e -> end_token eof ->
  returns parse_program (Parser_init (Lexer.Build txt 0 (tokens_expr e ++ [eof])))
    [tree_expr e]
    (st txt (tokens_expr e ++ [eof]) (List.length (tokens_expr e ++ [eof]))).
Proof.
  intros He (Hety & Hev).
  set (toks := (tokens_expr e ++ [eof])%list).
  assert (skipn 0 toks = (tokens_expr e ++ eof :: [])%list) as Hk by reflexivity.
  destruct (parse_expression_sentence txt toks e 0 eof [] Hk He) as (n0 & H0);
    [now rewrite Hev..|].
  pose proof (skipn_app_more _ _ _ _ Hk) as Hk1.
  destruct (expr_head e He) as (h & tl & E & _ & Hh).
  rewrite E in Hk. cbn [app] in Hk.
  assert ((if negb (Token.type h =? "EOF") then
             if Token.type h =? "FN" then true else false
           else true) = false) as Hty
    by (destruct Hh as [-> | [-> | ->]]; reflexivity).
  exists (S (S n0)). intros [|[|n]] Hn; [lia..|].
  rewrite Parser_init_st. unfold parse_program.
  rewrite program_loop_S, (current_at _ _ _ _ _ _ Hk).
  destruct (negb (Token.type h =? "EOF")); [|discriminate].
  destruct (Token.type h =? "FN"); [discriminate|].
  rewrite (bind_Ok _ _ _ _ _ (H0 (S n) ltac:(lia))).
  rewrite program_loop_S, (current_at _ _ _ _ _ _ Hk1), Hety.
  unfold ret, toks. simpl. rewrite length_app. simpl.
  now rewrite Nat.add_1_r.
Qed.

(** What a run returns with enough fuel, it returns with the fuel of
    [parse_tokens]. *)
Lemma parse_tokens_returns (txt : string) (toks : list Token.t)
  (program : list Node) (q : Parser) :
  ends_with_EOF toks ->
  returns parse_program (Parser_init (Lexer.Build txt 0 toks)) program q ->
  parse_tokens txt toks = Ok program q.
Proof.
  intros Hend (n0 & H0). unfold parse_tokens.
  assert (parse_program (enough_fuel toks) (Parser_init (Lexer.Build txt 0 toks))
          <> OutOfFuel) as Hfuel.
  { destruct (parse_program_total txt toks Hend (enough_fuel toks))
      as (j & tok & _ & _ & [[prog E]|[expected E]]);
      [unfold enough_fuel; lia| |]; rewrite E; discriminate. }
  rewrite <- (parse_program_stable (enough_fuel toks) (Nat.max n0 (enough_fuel toks))
                ltac:(lia) _ Hfuel).
  apply H0. lia.
Qed.

(** A chain is an expression: its tokens, its tree. *)
Lemma chain_expr_tokens (rest : list (Token.t * Unary)) :
  forall e,
    tokens_expr (fold_left (fun e ou => EBin e (fst ou) (snd ou)) rest e)
    = (tokens_expr e ++ operators_tokens rest)%list.
Proof.
  induction rest as [|[o u] rest IH]; intros e; simpl.
  - now rewrite app_nil_r.
  - rewrite IH. simpl. now rewrite <- app_assoc.
Qed.

Lemma chain_expr_tree (rest : list (Token.t * Unary)) :
  forall e,
    tree_expr (fold_left (fun e ou => EBin e (fst ou) (snd ou)) rest e)
    = fold_operators (tree_expr e) rest.
Proof.
  induction rest as [|[o u] rest IH]; intros e; simpl; [reflexivity|].
  now rewrite IH.
Qed.

Lemma chain_expr_wf (rest : list (Token.t * Unary)) :
  forall e,
    wf_expr e -> operators_ok rest ->
    wf_expr (fold_left (fun e ou => EBin e (fst ou) (snd ou)) rest e).
Proof.
  induction rest as [|[o u] rest IH]; intros e He Hrest; simpl; [assumption|].
  inversion Hrest as [|? ? (Ho & Hu) Hrest']; subst. apply IH; [|assumption].
  simpl. auto.
Qed.

(** Negation signs before a primary are a unary: its tokens, its tree. *)
Lemma negated_tokens (nots : list Token.t) (p : Primary) :
  tokens_unary (negated nots p) = (nots ++ tokens_primary p)%list.
Proof. induction nots as [|t nots IH]; simpl; [reflexivity|]. now rewrite IH. Qed.

Lemma negated_tree (nots : list Token.t) (p : Primary) :
  tree_unary (negated nots p)
  = fold_right (fun _ e => NNot e) (tree_primary p) nots.
Proof. induction nots as [|t nots IH]; simpl; [reflexivity|]. now rewrite IH. Qed.

Lemma negated_wf (nots : list Token.t) (p : Primary) :
  Forall not_token nots -> wf_primary p -> wf_unary (negated nots p).
Proof.
  induction 1 as [|t nots Ht _ IH]; intros Hp; simpl; auto.
Qed.

Lemma ends_with_EOF_snoc (ts : list Token.t) (eof : Token.t) :
  end_token eof -> ends_with_EOF (ts ++ [eof]).
Proof. intros (Hty & _). now exists ts, eof. Qed.

(** A run of the parser over the tokens of a chain of operands. *)
Lemma parse_tokens_chain (txt : string) (first : Unary)
  (rest : list (Token.t * Unary)) (eof : Token.t) :
  wf_unary first -> operators_ok rest -> end_token eof ->
  parse_tokens txt (expression_tokens first rest eof)
  = Ok [fold_operators (tree_unary first) rest]
      (st txt (expression_tokens first rest eof)
         (List.length (expression_tokens first rest eof))).
Proof.
  intros Hfirst Hrest Heof.
  pose proof (parse_program_sentence txt (chain_expr first rest) eof
                (chain_expr_wf rest (EUnary first) Hfirst Hrest) Heof) as H.
  unfold chain_expr in H. rewrite chain_expr_tokens, chain_expr_tree in H.
  cbn [tokens_expr tree_expr] in H. rewrite <- app_assoc in H.
  apply parse_tokens_returns; [|exact H].
  unfold expression_tokens. rewrite app_assoc. now apply ends_with_EOF_snoc.
Qed.

(** [parse_expression] on a chain of operands, wherever it stands. *)
Lemma parse_expression_chain_of_unaries (txt : string) (toks : list Token.t)
  (first : Unary) (rest : list (Token.t * Unary)) (k : nat) (nxt : Token.t)
  (suf : list Token.t) :
  skipn k toks = (tokens_unary first ++ operators_tokens rest ++ nxt :: suf)%list ->
  wf_unary first -> operators_ok rest ->
  is_binary_op (Token.value nxt) = false -> (Token.value nxt =? "(") = false ->
  returns parse_expression (st txt toks (S k)) (fold_operators (tree_unary first) rest)
    (st txt toks
       (S (k + List.length (tokens_unary first ++ operators_tokens rest)))).
Proof.
  intros Hk Hfirst Hrest Hb Hnxt.
  pose proof (parse_expression_sentence txt toks (chain_expr first rest) k nxt suf)
    as H.
  unfold chain_expr in H. rewrite chain_expr_tokens, chain_expr_tree in H.
  cbn [tokens_expr tree_expr] in H. rewrite <- app_assoc in H.
  apply H; auto. now apply (chain_expr_wf rest (EUnary first)).
Qed.

(** [parse_prefix_expression] on negation signs and a primary, wherever
    they stand. *)
Lemma parse_prefix_expression_negated (txt : string) (toks : list Token.t)
  (nots : list Token.t) (p : Primary) (k : nat) (nxt : Token.t)
  (suf : list Token.t) :
  skipn k toks = (nots ++ tokens_primary p ++ nxt :: suf)%list ->
  Forall not_token nots -> wf_primary p -> (Token.value nxt =? "(") = false ->
  returns parse_prefix_expression (st txt toks (S k))
    (fold_right (fun _ e => NNot e) (tree_primary p) nots)
    (st txt toks (S (k + List.length (nots ++ tokens_primary p)))).
Proof.
  intros Hk Hnots Hp Hnxt.
  destruct (sentences_parse txt toks) as (_ & H & _).
  specialize (H (negated nots p) k nxt suf).
  rewrite negated_tokens, negated_tree, <- app_assoc in H.
  apply H; auto. now apply negated_wf.
Qed.

(** ** What the parser raises

    Every exception of a parse comes from [Parser.error], called on the
    lookahead of the state in which it is raised. *)

Lemma faithful_on_ret {A} (a : A) (p : Parser) : faithful_on (ret a) p.
Proof. intros e q H. discriminate. Qed.

Lemma faithful_on_out_of_fuel {A} (p : Parser) : faithful_on (@out_of_fuel A) p.
Proof. intros e q H. discriminate. Qed.

Lemma faithful_on_bind {A B} (m : M A) (f : A -> M B) (p : Parser) :
  faithful_on m p -> (forall a p', m p = Ok a p' -> faithful_on (f a) p') ->
  faithful_on (bind m f) p.
Proof.
  intros Hm Hf e q. unfold bind. destruct (m p) as [a p'|e' p'|] eqn:E.
  - apply (Hf a p' eq_refl).
  - intros [= <- <-]. now apply Hm.
  - discriminate.
Qed.

Lemma faithful_on_current {B} (f : Token.t -> M B) (p : Parser) :
  (forall tok, current_token p = Some tok -> faithful_on (f tok) p) ->
  faithful_on (bind current f) p.
Proof.
  intros Hf e q. unfold bind, current.
  destruct (current_token p) as [tok|] eqn:E.
  - now apply Hf.
  - intros [= <- <-]. unfold raised_on. now rewrite E.
Qed.

Lemma faithful_on_error {A} (expected : string) (p : Parser) :
  (forall tok, current_token p = Some tok -> rejects expected tok) ->
  faithful_on (@error A expected) p.
Proof.
  intros Hrej e q. unfold error, bind, current.
  destruct (current_token p) as [tok|] eqn:E; intros [= <- <-];
    unfold raised_on; rewrite E; eauto.
Qed.

(** [Parser.consume] raises on a token of another type. *)
Lemma faithful_on_consume (ty : string) (p : Parser) :
  In ty ["FN"; "ID"; "OP"; "COMMA"] -> faithful_on (consume ty) p.
Proof.
  intros Hty. unfold consume. apply faithful_on_current. intros cur Hcur.
  destruct (String.eqb_spec (Token.type cur) ty) as [E|E].
  - apply faithful_on_bind; [discriminate|]. intros. apply faithful_on_ret.
  - apply faithful_on_error. intros tok Htok. right.
    split; [assumption|congruence].
Qed.

(** On a token of the expected type it does not raise. *)
Lemma faithful_on_consume_same (ty : string) (p : Parser) (cur : Token.t) :
  current_token p = Some cur -> (Token.type cur =? ty) = true ->
  faithful_on (consume ty) p.
Proof.
  intros Hcur Hty e q. unfold consume, bind, current. rewrite Hcur, Hty.
  discriminate.
Qed.

(** One step through a call whose exceptions are accounted for. *)
Ltac faithful_step :=
  first
    [ apply faithful_on_ret
    | match goal with H : forall _, faithful_on _ _ |- _ => apply H end
    | match goal with H : forall _ _, faithful_on _ _ |- _ => apply H end
    | apply faithful_on_consume; simpl; tauto
    | apply faithful_on_current; intros ? ?
    | apply faithful_on_bind; [|intros ? ? _]
    | match goal with
      | |- faithful_on (if ?b then _ else _) _ => destruct b
      end ].

Lemma expression_grammar_faithful (n : nat) :
  (forall p, faithful_on (parse_expression n) p)
  /\ (forall left p, faithful_on (expression_loop n left) p)
  /\ (forall p, faithful_on (parse_prefix_expression n) p)
  /\ (forall p, faithful_on (parse_primary_expression n) p)
  /\ (forall name p, faithful_on (parse_function_application n name) p)
  /\ (forall args p, faithful_on (args_loop n args) p).
Proof.
  induction n as [|n (IHE & IHL & IHP & IHQ & IHA & IHG)].
  - repeat split; intros; apply faithful_on_out_of_fuel.
  - repeat split; intros.
    + rewrite parse_expression_S. repeat faithful_step.
    + rewrite expression_loop_S. repeat faithful_step.
    + rewrite parse_prefix_expression_S. repeat faithful_step.
    + rewrite parse_primary_expression_S.
      apply faithful_on_current. intros cur Hcur.
      destruct (String.eqb_spec (Token.type cur) "BOOL") as [E1|E1].
      { apply faithful_on_bind; [|intros; apply faithful_on_ret].
        apply (faithful_on_consume_same _ _ cur Hcur). now apply String.eqb_eq. }
      destruct (String.eqb_spec (Token.type cur) "ID") as [E2|E2];
        [repeat faithful_step|].
      destruct (String.eqb_spec (Token.value cur) "(") as [E3|E3];
        [repeat faithful_step|].
      apply faithful_on_error. intros tok Htok. left.
      assert (tok = cur) as -> by congruence. auto.
    + rewrite parse_function_application_S. repeat faithful_step.
    + rewrite args_loop_S. repeat faithful_step.
Qed.

Lemma formals_loop_faithful (n : nat) :
  forall formals p, faithful_on (formals_loop n formals) p.
Proof.
  induction n as [|n IH]; intros formals p; [apply faithful_on_out_of_fuel|].
  rewrite formals_loop_S. repeat faithful_step.
Qed.

Lemma parse_definition_faithful (n : nat) (p : Parser) :
  faithful_on (parse_definition n) p.
Proof.
  pose proof (formals_loop_faithful n) as HF.
  pose proof (proj1 (expression_grammar_faithful n)) as HE.
  unfold parse_definition. repeat faithful_step.
Qed.

Lemma program_loop_faithful (n : nat) :
  forall result p, faithful_on (program_loop n result) p.
Proof.
  induction n as [|n IH]; intros result p; [apply faithful_on_out_of_fuel|].
  pose proof (parse_definition_faithful n) as HD.
  pose proof (proj1 (expression_grammar_faithful n)) as HE.
  rewrite program_loop_S. repeat faithful_step.
Qed.

(** A run on a token list that ends with an end-of-input token returns, or
    raises the syntax error that [Parser.error] builds from the lookahead
    on which the parser stopped, a token of the list that the parser
    rejects. *)
Lemma parse_tokens_raises (txt : string) (toks : list Token.t) (e : Exn)
  (q : Parser) :
  ends_with_EOF toks -> parse_tokens txt toks = Raise e q ->
  exists j tok expected,
    1 <= j <= List.length toks /\ nth_error toks (j - 1) = Some tok
    /\ q = {| lexer := Lexer.Build txt j toks; current_token := Some tok |}
    /\ e = SyntaxError (error_message expected tok txt)
    /\ rejects expected tok.
Proof.
  intros Hend H. unfold parse_tokens in H.
  pose proof (program_loop_faithful _ _ _ _ _ H) as Hr.
  destruct (parse_program_total txt toks Hend (enough_fuel toks))
    as (j & tok & Hj & Htok & [[prog E]|[expected E]]);
    [unfold enough_fuel; lia|congruence|].
  rewrite E in H. injection H as <- <-.
  unfold raised_on in Hr. cbn [current_token st lexer Lexer.text] in Hr.
  rewrite Htok in Hr. destruct Hr as (expected' & He & Hrej).
  exists j, tok, expected'. unfold st. rewrite Htok. auto.
Qed.

(** The lexer's message is one line. *)
Lemma occurs_append (c : ascii) (a b : string) :
  occurs c (a ++ b) = occurs c a || occurs c b.
Proof.
  induction a as [|x a IH]; simpl; [reflexivity|].
  now rewrite IH, orb_assoc.
Qed.

Lemma no_line_feed_in_number (n : nat) :
  occurs "010" (NilZero.string_of_uint (Nat.to_uint n)) = false.
Proof.
  assert (forall d, occurs "010" (NilEmpty.string_of_uint d) = false) as H
    by (induction d; simpl; auto).
  unfold NilZero.string_of_uint. destruct (Nat.to_uint n); try apply H.
  reflexivity.
Qed.

(** * Properties of the specification *)

(** A concrete token is an identifier token. *)
Ltac concrete_identifier :=
  split; [reflexivity|eexists _, _; split; reflexivity].

(** C1.  [&] and [|] share one precedence level and associate to the left.
    Every expression is a chain [u0 o1 u1 ... on un] of operands joined by
    [&] or [|] in any mix, where an operand is a boolean literal, an
    identifier, a call or a parenthesized expression under any number of
    negation signs.  On the tokens of any chain the parser returns the one
    tree obtained by folding the operands from the left, whatever the
    operators are: the last operator is the root and all that precedes it
    is its left operand.  The same holds wherever [parse_expression] reads
    the chain, be it an argument, the inside of parentheses or the body of
    a definition.  So [a & b | c] yields [Or(And(a, b), c)] and
    [a | b & c] yields [And(Or(a, b), c)]. *)
Theorem binary_operators_fold_left (txt : string) (first : Unary)
  (rest : list (Token.t * Unary)) (eof : Token.t) :
  wf_unary first -> operators_ok rest -> end_token eof ->
  parse_tokens txt (expression_tokens first rest eof)
  = Ok [fold_operators (tree_unary first) rest]
      (st txt (expression_tokens first rest eof)
         (List.length (expression_tokens first rest eof)))
  /\ (forall toks k nxt suf,
         skipn k toks
         = (tokens_unary first ++ operators_tokens rest ++ nxt :: suf)%list ->
         is_binary_op (Token.value nxt) = false ->
         (Token.value nxt =? "(") = false ->
         returns parse_expression (st txt toks (S k))
           (fold_operators (tree_unary first) rest)
           (st txt toks
              (S (k + List.length (tokens_unary first ++ operators_tokens rest)))))
  /\ (forall o u,
         fold_operators (tree_unary first) (rest ++ [(o, u)])
         = NBin (fold_operators (tree_unary first) rest) (tree_unary u)
             (Token.value o))
  /\ run "a & b | c" = Parsed [Or (And (NId "a") (NId "b")) (NId "c")]
  /\ run "a | b & c" = Parsed [And (Or (NId "a") (NId "b")) (NId "c")]
  /\ run "a & true | c" = Parsed [Or (And (NId "a") (NBool "true")) (NId "c")]
  /\ run "f(x) | (a | b) & ~c"
     = Parsed [And (Or (NApp [NId "x"] "f") (Or (NId "a") (NId "b")))
                 (NNot (NId "c"))].
Proof.
  intros Hfirst Hrest Heof.
  split; [|split; [|split; [|repeat split; vm_compute; reflexivity]]].
  - now apply parse_tokens_chain.
  - intros toks k nxt suf Hk Hb Hnxt.
    now apply (parse_expression_chain_of_unaries txt toks first rest k nxt suf).
  - intros o u. unfold fold_operators. now rewrite fold_left_app.
Qed.

Lemma binary_operators_fold_left_witness :
  parse_tokens "true & (a | b) | ~f(c)"
    (expression_tokens (UPrim (PBool (Token.Build "BOOL" "true" 0)))
       [(Token.Build "OP" "&" 5,
         UPrim (PParen (Token.Build "OP" "(" 7)
                  (EBin (EUnary (UPrim (PId (Token.Build "ID" "a" 8))))
                     (Token.Build "OP" "|" 10)
                     (UPrim (PId (Token.Build "ID" "b" 12))))
                  (Token.Build "OP" ")" 13)));
        (Token.Build "OP" "|" 15,
         UNot (Token.Build "OP" "~" 17)
           (UPrim (PCall (Token.Build "ID" "f" 18) (Token.Build "OP" "(" 19)
                     (ASome (AOne (EUnary (UPrim (PId (Token.Build "ID" "c" 20))))))
                     (Token.Build "OP" ")" 21))))]
       (Token.Build "EOF" "" 22))
  = Ok [NBin (NBin (NBool "true") (NBin (NId "a") (NId "b") "|") "&")
          (NNot (NApp [NId "c"] "f")) "|"]
      (st "true & (a | b) | ~f(c)"
         [Token.Build "BOOL" "true" 0; Token.Build "OP" "&" 5;
          Token.Build "OP" "(" 7; Token.Build "ID" "a" 8; Token.Build "OP" "|" 10;
          Token.Build "ID" "b" 12; Token.Build "OP" ")" 13;
          Token.Build "OP" "|" 15; Token.Build "OP" "~" 17;
          Token.Build "ID" "f" 18; Token.Build "OP" "(" 19; Token.Build "ID" "c" 20;
          Token.Build "OP" ")" 21; Token.Build "EOF" "" 22] 14).
Proof.
  apply (binary_operators_fold_left "true & (a | b) | ~f(c)"
           (UPrim (PBool (Token.Build "BOOL" "true" 0)))
           [(Token.Build "OP" "&" 5,
             UPrim (PParen (Token.Build "OP" "(" 7)
                      (EBin (EUnary (UPrim (PId (Token.Build "ID" "a" 8))))
                         (Token.Build "OP" "|" 10)
                         (UPrim (PId (Token.Build "ID" "b" 12))))
                      (Token.Build "OP" ")" 13)));
            (Token.Build "OP" "|" 15,
             UNot (Token.Build "OP" "~" 17)
               (UPrim (PCall (Token.Build "ID" "f" 18) (Token.Build "OP" "(" 19)
                         (ASome (AOne (EUnary (UPrim (PId (Token.Build "ID" "c" 20))))))
                         (Token.Build "OP" ")" 21))))]
           (Token.Build "EOF" "" 22)).
  - split; [reflexivity|]. left. reflexivity.
  - constructor; [|constructor; [|constructor]].
    + split; [split; [reflexivity|left; reflexivity]|].
      split; [split; reflexivity|]. split; [|split; reflexivity].
      split; [concrete_identifier|].
      split; [split; [reflexivity|right; reflexivity]|concrete_identifier].
    + split; [split; [reflexivity|right; reflexivity]|].
      split; [split; reflexivity|].
      split; [concrete_identifier|]. split; [split; reflexivity|].
      split; [concrete_identifier|split; reflexivity].
  - split; reflexivity.
Defined.

(** C2.  Unary [~] binds tighter than the binary operators and stacks.
    Every operand is a primary, that is a boolean literal, an identifier, a
    call or a parenthesized expression, under any number of negation signs.
    [parse_prefix_expression] reads the signs and the primary and returns
    the primary's tree under as many nested [Not] nodes, leaving what
    follows unread; on the tokens of a chain that starts with such an
    operand, the negations cover the primary alone and the binary nodes of
    the chain stand above them.  So [~a & b] yields [And(Not(a), b)] and
    [~~a] yields [Not(Not(a))]. *)
Theorem negation_binds_tighter_and_stacks (txt : string) (nots : list Token.t)
  (p : Primary) (rest : list (Token.t * Unary)) (eof : Token.t) :
  Forall not_token nots -> wf_primary p -> operators_ok rest -> end_token eof ->
  parse_tokens txt (nots ++ tokens_primary p ++ operators_tokens rest ++ [eof])
  = Ok [fold_operators (fold_right (fun _ e => NNot e) (tree_primary p) nots) rest]
      (st txt (nots ++ tokens_primary p ++ operators_tokens rest ++ [eof])
         (List.length (nots ++ tokens_primary p ++ operators_tokens rest ++ [eof])))
  /\ (forall toks k nxt suf,
         skipn k toks = (nots ++ tokens_primary p ++ nxt :: suf)%list ->
         (Token.value nxt =? "(") = false ->
         returns parse_prefix_expression (st txt toks (S k))
           (fold_right (fun _ e => NNot e) (tree_primary p) nots)
           (st txt toks (S (k + List.length (nots ++ tokens_primary p)))))
  /\ run "~a & b" = Parsed [And (NNot (NId "a")) (NId "b")]
  /\ run "~~a" = Parsed [NNot (NNot (NId "a"))]
  /\ run "~true & b" = Parsed [And (NNot (NBool "true")) (NId "b")]
  /\ run "~~f(a) | ~(b & c)"
     = Parsed [Or (NNot (NNot (NApp [NId "a"] "f")))
                 (NNot (And (NId "b") (NId "c")))].
Proof.
  intros Hnots Hp Hrest Heof.
  split; [|split; [|repeat split; vm_compute; reflexivity]].
  - pose proof (parse_tokens_chain txt (negated nots p) rest eof
                  (negated_wf nots p Hnots Hp) Hrest Heof) as H.
    unfold expression_tokens in H.
    rewrite negated_tokens, negated_tree, <- app_assoc in H. exact H.
  - intros toks k nxt suf Hk Hnxt.
    now apply (parse_prefix_expression_negated txt toks nots p k nxt suf).
Qed.

Lemma negation_binds_tighter_and_stacks_witness :
  parse_tokens "~~true & (b)"
    [Token.Build "OP" "~" 0; Token.Build "OP" "~" 1; Token.Build "BOOL" "true" 2;
     Token.Build "OP" "&" 7; Token.Build "OP" "(" 9; Token.Build "ID" "b" 10;
     Token.Build "OP" ")" 11; Token.Build "EOF" "" 12]
  = Ok [NBin (NNot (NNot (NBool "true"))) (NId "b") "&"]
      (st "~~true & (b)"
         [Token.Build "OP" "~" 0; Token.Build "OP" "~" 1; Token.Build "BOOL" "true" 2;
          Token.Build "OP" "&" 7; Token.Build "OP" "(" 9; Token.Build "ID" "b" 10;
          Token.Build "OP" ")" 11; Token.Build "EOF" "" 12] 8).
Proof.
  apply (negation_binds_tighter_and_stacks "~~true & (b)"
           [Token.Build "OP" "~" 0; Token.Build "OP" "~" 1]
           (PBool (Token.Build "BOOL" "true" 2))
           [(Token.Build "OP" "&" 7,
             UPrim (PParen (Token.Build "OP" "(" 9)
                      (EUnary (UPrim (PId (Token.Build "ID" "b" 10))))
                      (Token.Build "OP" ")" 11)))]
           (Token.Build "EOF" "" 12)).
  - repeat constructor.
  - split; [reflexivity|]. left. reflexivity.
  - constructor; [|constructor].
    split; [split; [reflexivity|left; reflexivity]|].
    split; [split; reflexivity|]. split; [concrete_identifier|split; reflexivity].
  - split; reflexivity.
Defined.

(** C7.  An identifier whose next token is an opening parenthesis parses as
    an application.  On the tokens [f ( a , ... ) EOF] of a call with
    identifier arguments, whatever the positions of the tokens in the text,
    the parser returns the application of [f] to the arguments in order,
    and on [f ( ) EOF] the application of [f] to no argument.  White space
    is dropped by the lexer, so [f (a)] has the tokens of [f(a)] and yields
    [Application(f, [a])]; [f(a, b)] yields [Application(f, [a, b])],
    [f()] yields [Application(f, [])] and [fn g() true] a definition with
    no formals. *)
Theorem identifier_before_parenthesis_is_application (txt : string)
  (f lpar a : Token.t) (more : list (Token.t * Token.t)) (rpar eof : Token.t) :
  identifier_token f -> open_token lpar -> identifier_token a ->
  more_args_ok more -> close_token rpar -> end_token eof ->
  parse_tokens txt (call_tokens f lpar a more rpar eof)
  = Ok [NApp (NId (Token.value a) :: map (fun ca => NId (Token.value (snd ca))) more)
          (Token.value f)]
      (st txt (call_tokens f lpar a more rpar eof)
         (List.length (call_tokens f lpar a more rpar eof)))
  /\ parse_tokens txt [f; lpar; rpar; eof]
     = Ok [NApp [] (Token.value f)] (st txt [f; lpar; rpar; eof] 4)
  /\ run "f(a, b)" = Parsed [NApp [NId "a"; NId "b"] "f"]
  /\ run "f (a)" = Parsed [NApp [NId "a"] "f"]
  /\ tokenize "f (a)"
     = inr [Token.Build "ID" "f" 0; Token.Build "OP" "(" 2; Token.Build "ID" "a" 3;
            Token.Build "OP" ")" 4; Token.Build "EOF" "" 5]
  /\ run "f()" = Parsed [NApp [] "f"]
  /\ run "fn g() true" = Parsed [NDef (NBool "true") [] "g"].
Proof.
  intros Hf Hl Ha Hmore Hr Heof.
  split; [|split; [|repeat split; vm_compute; reflexivity]].
  - apply parse_program_call; auto. unfold enough_fuel. lia.
  - apply parse_program_call_empty; auto. unfold enough_fuel. simpl. lia.
Qed.

Lemma identifier_before_parenthesis_is_application_witness :
  parse_tokens "f (a, b)"
    (call_tokens (Token.Build "ID" "f" 0) (Token.Build "OP" "(" 2)
       (Token.Build "ID" "a" 3)
       [(Token.Build "COMMA" "," 4, Token.Build "ID" "b" 6)]
       (Token.Build "OP" ")" 7) (Token.Build "EOF" "" 8))
  = Ok [NApp [NId "a"; NId "b"] "f"]
      (st "f (a, b)"
         (call_tokens (Token.Build "ID" "f" 0) (Token.Build "OP" "(" 2)
            (Token.Build "ID" "a" 3)
            [(Token.Build "COMMA" "," 4, Token.Build "ID" "b" 6)]
            (Token.Build "OP" ")" 7) (Token.Build "EOF" "" 8)) 7).
Proof.
  apply (identifier_before_parenthesis_is_application "f (a, b)"
           (Token.Build "ID" "f" 0) (Token.Build "OP" "(" 2) (Token.Build "ID" "a" 3)
           [(Token.Build "COMMA" "," 4, Token.Build "ID" "b" 6)]
           (Token.Build "OP" ")" 7) (Token.Build "EOF" "" 8)).
  - concrete_identifier.
  - split; reflexivity.
  - concrete_identifier.
  - constructor; [|constructor]. split; [split; reflexivity|concrete_identifier].
  - split; reflexivity.
  - split; reflexivity.
Defined.

(** C3 (defect in the code).  Where the grammar requires ['('] after a
    definition's name, [')'] after its parameters and [')'] after a
    parenthesized expression, the parser only checks that the token is an
    operator: [fn f|x~ x] is accepted as the definition of [f] with formal
    [x] and body [x], and [(a ~ b] as the two expressions [a] and [b]. *)
Theorem any_operator_passes_for_a_parenthesis :
  run "fn f|x~ x" = Parsed [NDef (NId "x") ["x"] "f"]
  /\ run "(a ~ b" = Parsed [NId "a"; NId "b"]
  /\ run "(true ( b" = Parsed [NBool "true"; NId "b"].
Proof. repeat split; vm_compute; reflexivity. Qed.

(** C4 (defect in the code).  An identifier-shaped run that starts with a
    keyword or a boolean literal is split: [fnx] lexes as the keyword [fn]
    followed by the identifier [x], and [truex] as the literal [true]
    followed by the identifier [x]; whatever follows [fn], [true] or
    [false], the match found there is the keyword or the literal. *)
Theorem keyword_prefix_is_split_off :
  tokenize "fnx"
  = inr [Token.Build "FN" "fn" 0; Token.Build "ID" "x" 2; Token.Build "EOF" "" 3]
  /\ tokenize "truex"
     = inr [Token.Build "BOOL" "true" 0; Token.Build "ID" "x" 4;
            Token.Build "EOF" "" 5]
  /\ tokenize "falsehood"
     = inr [Token.Build "BOOL" "false" 0; Token.Build "ID" "hood" 5;
            Token.Build "EOF" "" 9]
  /\ (forall rest, match_at ("fn" ++ rest) = Some ("FN", 2))
  /\ (forall rest, match_at ("true" ++ rest) = Some ("BOOL", 4))
  /\ (forall rest, match_at ("false" ++ rest) = Some ("BOOL", 5)).
Proof.
  repeat split; try (vm_compute; reflexivity); intros rest; destruct rest; reflexivity.
Qed.

(** C5, as stated, fails: the lexical error raised on [a $ b] is the
    message [Unexpected character at position 2: $], which has no caret and
    is no caret diagnostic of the text. *)
Lemma lexical_error_has_no_marker_line :
  run "a $ b" = Failed (RuntimeError "Unexpected character at position 2: $")
  /\ occurs "^" (message_of (RuntimeError "Unexpected character at position 2: $"))
     = false
  /\ ~ (forall text e, run text = Failed e ->
          exists pos, caret_diagnostic text pos (message_of e)).
Proof.
  split; [vm_compute; reflexivity|]. split; [vm_compute; reflexivity|].
  intros H.
  destruct (H "a $ b" (RuntimeError "Unexpected character at position 2: $") eq_refl)
    as (pos & problem & E).
  assert (occurs "^" (message_of (RuntimeError "Unexpected character at position 2: $"))
          = true) as Hc.
  { rewrite E. apply occurs_app_r. cbn [occurs]. apply orb_true_iff. right.
    apply occurs_app_r. cbn [occurs]. apply orb_true_iff. right.
    apply occurs_app. }
  vm_compute in Hc. discriminate.
Qed.

(** C5, amended.  An error surfaced to the caller is one message.  A syntax
    error is raised by the parser on its lookahead, the token [tok] at
    which the run stops, which the parser rejects there; its message is a
    caret diagnostic: the problem statement, naming what was expected and
    the text of [tok], then the source text, then a marker line of as many
    spaces as the position of [tok] followed by a caret.  A lexical error
    is the message [Unexpected character at position P: C], where [C] is
    the character at offset [P] of the text, one on which no token starts,
    with neither the source text nor a marker line. *)
Theorem surfaced_error_messages (text : string) (e : Exn) :
  run text = Failed e ->
  (exists toks j tok expected,
      tokenize text = inr toks
      /\ 1 <= j <= List.length toks /\ nth_error toks (j - 1) = Some tok
      /\ parse_tokens text toks
         = Raise e {| lexer := Lexer.Build text j toks; current_token := Some tok |}
      /\ rejects expected tok
      /\ e = SyntaxError (error_message expected tok text)
      /\ message_of e
         = "error: expecting '" ++ expected ++ "' but got '" ++ Token.value tok ++ "'"
           ++ String "010" (text ++ String "010" (marker_line (Token.position tok)))
      /\ caret_diagnostic text (Token.position tok) (message_of e))
  \/ (exists p c,
         String.get p text = Some c
         /\ (c <> "#"%char /\ is_letter c = false /\ is_op_char c = false
             /\ c <> ","%char /\ is_space c = false)
         /\ tokenize text = inl e
         /\ e = RuntimeError
                  ("Unexpected character at position "
                   ++ NilZero.string_of_uint (Nat.to_uint p) ++ ": " ++ String c "")
         /\ occurs "010" (message_of e) = false).
Proof.
  intros Hrun. destruct (tokenize text) as [e'|toks] eqn:Hlex.
  - right. rewrite (run_not_lexed _ _ Hlex) in Hrun. injection Hrun as <-.
    unfold tokenize in Hlex.
    destruct (tokenize_loop (finditer text) []) as [e''|ts] eqn:Hloop; [|discriminate].
    injection Hlex as <-.
    destruct (tokenize_loop_inl _ _ _ Hloop) as (m & Hin & Hk & ->).
    destruct (MISMATCH_is_one_character _ _ Hin Hk) as (c & Hget & Hg & Hc).
    exists (Match.start m), c. rewrite Hg.
    split; [exact Hget|]. split; [exact Hc|]. split; [reflexivity|].
    split; [reflexivity|].
    cbn [message_of]. unfold unexpected_character, str_of_nat.
    rewrite !occurs_append, no_line_feed_in_number.
    cbn [occurs orb]. destruct Hc as (_ & _ & _ & _ & Hs).
    destruct (Ascii.eqb_spec "010" c) as [<-|_]; [discriminate|reflexivity].
  - left. rewrite (run_lexed _ _ Hlex) in Hrun.
    pose proof (tokenize_ends_with_EOF' _ _ Hlex) as Hend.
    destruct (parse_tokens text toks) as [prog q|e' q|] eqn:E;
      unfold parse_tokens in E; rewrite E in Hrun; try discriminate.
    injection Hrun as ->.
    destruct (parse_tokens_raises text toks e q Hend E)
      as (j & tok & expected & Hj & Htok & -> & -> & Hrej).
    exists toks, j, tok, expected. repeat split; try tauto; try lia.
    apply error_message_is_caret_diagnostic.
Qed.

Lemma surfaced_error_messages_witness :
  (exists toks j tok expected,
      tokenize "a) b" = inr toks
      /\ 1 <= j <= List.length toks /\ nth_error toks (j - 1) = Some tok
      /\ parse_tokens "a) b" toks
         = Raise (SyntaxError
                    (error_message "primary expression" (Token.Build "OP" ")" 1) "a) b"))
             {| lexer := Lexer.Build "a) b" j toks; current_token := Some tok |}
      /\ rejects expected tok
      /\ SyntaxError (error_message "primary expression" (Token.Build "OP" ")" 1) "a) b")
         = SyntaxError (error_message expected tok "a) b")
      /\ message_of
           (SyntaxError
              (error_message "primary expression" (Token.Build "OP" ")" 1) "a) b"))
         = "error: expecting '" ++ expected ++ "' but got '" ++ Token.value tok ++ "'"
           ++ String "010" ("a) b" ++ String "010" (marker_line (Token.position tok)))
      /\ caret_diagnostic "a) b" (Token.position tok)
           (message_of
              (SyntaxError
                 (error_message "primary expression" (Token.Build "OP" ")" 1) "a) b"))))
  \/ (exists p c,
         String.get p "a) b" = Some c
         /\ (c <> "#"%char /\ is_letter c = false /\ is_op_char c = false
             /\ c <> ","%char /\ is_space c = false)
         /\ tokenize "a) b"
            = inl (SyntaxError
                     (error_message "primary expression" (Token.Build "OP" ")" 1) "a) b"))
         /\ SyntaxError (error_message "primary expression" (Token.Build "OP" ")" 1) "a) b")
            = RuntimeError
                ("Unexpected character at position "
                 ++ NilZero.string_of_uint (Nat.to_uint p) ++ ": " ++ String c "")
         /\ occurs "010"
              (message_of
                 (SyntaxError
                    (error_message "primary expression" (Token.Build "OP" ")" 1) "a) b")))
            = false).
Proof.
  apply (surfaced_error_messages "a) b"
           (SyntaxError
              (error_message "primary expression" (Token.Build "OP" ")" 1) "a) b"))).
  vm_compute. reflexivity.
Defined.

(** C6.  When lexing succeeds, the token sequence is the tokens of the text,
    none of them of type [EOF], followed by one [EOF] token whose position
    is the length of the text; the empty text yields that token alone. *)
Theorem end_of_input_sentinel (text : string) (toks : list Token.t) :
  tokenize text = inr toks ->
  (exists ts,
      toks = (ts ++ [Token.Build "EOF" "" (String.length text)])%list
      /\ Forall (fun t => Token.type t <> "EOF") ts)
  /\ tokenize "" = inr [Token.Build "EOF" "" 0].
Proof.
  intros H. split; [exact (tokenize_ends_with_EOF _ _ H)|reflexivity].
Qed.

Lemma end_of_input_sentinel_witness :
  (exists ts,
      [Token.Build "ID" "a" 0; Token.Build "OP" "&" 2; Token.Build "EOF" "" 3]
      = (ts ++ [Token.Build "EOF" "" (String.length "a &")])%list
      /\ Forall (fun t => Token.type t <> "EOF") ts)
  /\ tokenize "" = inr [Token.Build "EOF" "" 0].
Proof.
  apply (end_of_input_sentinel "a &"). vm_compute. reflexivity.
Defined.

(** C9.  Parsing [a &] raises the syntax error built from the [EOF] token,
    whose position 3 is the length of the text: the message names the
    expected ['primary expression'] and the token's empty text, and its
    marker line has three spaces before the caret. *)
Theorem missing_right_operand :
  run "a &"
  = Failed (SyntaxError
              (error_message "primary expression"
                 (Token.Build "EOF" "" (String.length "a &")) "a &"))
  /\ error_message "primary expression" (Token.Build "EOF" "" (String.length "a &")) "a &"
     = "error: expecting 'primary expression' but got ''"
       ++ String "010" ("a &" ++ String "010" "   ^")
  /\ tokenize "a &"
     = inr [Token.Build "ID" "a" 0; Token.Build "OP" "&" 2;
            Token.Build "EOF" "" (String.length "a &")].
Proof. repeat split; vm_compute; reflexivity. Qed.

(** C10.  On the tokens of a text that lexes, a parse run with enough fuel
    returns a program or raises a syntax error, and never an
    [AttributeError]: in the state it ends in, the lexer has handed out [j]
    tokens with [1 <= j <= length toks], so every [peek] was in range, and
    the lookahead is the token at index [j - 1].  The run of the whole
    front end therefore yields a program or a syntax error, and the outcome
    is the same for every such amount of fuel. *)
Theorem parser_never_reads_past_EOF (text : string) (toks : list Token.t) (n : nat) :
  tokenize text = inr toks ->
  3 * List.length toks + 1 <= n ->
  (exists j tok,
      1 <= j <= List.length toks /\ nth_error toks (j - 1) = Some tok
      /\ ((exists program,
              parse_program n (Parser_init (Lexer.Build text 0 toks))
              = Ok program {| lexer := Lexer.Build text j toks;
                              current_token := Some tok |})
          \/ (exists msg,
                 parse_program n (Parser_init (Lexer.Build text 0 toks))
                 = Raise (SyntaxError msg)
                     {| lexer := Lexer.Build text j toks;
                        current_token := Some tok |})))
  /\ ((exists program, run text = Parsed program)
      \/ (exists msg, run text = Failed (SyntaxError msg)))
  /\ parse_program n (Parser_init (Lexer.Build text 0 toks)) = parse_tokens text toks.
Proof.
  intros Hlex Hn. pose proof (tokenize_ends_with_EOF' _ _ Hlex) as Hend.
  split; [|split].
  - destruct (parse_program_total text toks Hend n Hn)
      as (j & tok & Hj & Htok & [[prog E]|[expected E]]);
      exists j, tok; (split; [exact Hj|]); (split; [exact Htok|]);
      rewrite E; unfold st; rewrite Htok; eauto.
  - rewrite (run_lexed _ _ Hlex).
    destruct (parse_program_total text toks Hend (enough_fuel toks))
      as (j & tok & Hj & Htok & [[prog E]|[expected E]]);
      [unfold enough_fuel; lia| |]; rewrite E; eauto.
  - assert (parse_program (3 * List.length toks + 1) (Parser_init (Lexer.Build text 0 toks))
            <> OutOfFuel) as Hfuel.
    { destruct (parse_program_total text toks Hend (3 * List.length toks + 1))
        as (j & tok & _ & _ & [[prog E]|[expected E]]); [lia| |];
        rewrite E; discriminate. }
    assert (3 * List.length toks + 1 <= enough_fuel toks) as Hen
      by (unfold enough_fuel; lia).
    unfold parse_tokens.
    rewrite (parse_program_stable _ n Hn _ Hfuel).
    rewrite (parse_program_stable _ (enough_fuel toks) Hen _ Hfuel).
    reflexivity.
Qed.

Lemma parser_never_reads_past_EOF_witness :
  (exists j tok,
      1 <= j <= 3
      /\ nth_error [Token.Build "ID" "a" 0; Token.Build "OP" "&" 2;
                    Token.Build "EOF" "" 3] (j - 1) = Some tok
      /\ ((exists program,
              parse_program 10
                (Parser_init
                   (Lexer.Build "a &" 0
                      [Token.Build "ID" "a" 0; Token.Build "OP" "&" 2;
                       Token.Build "EOF" "" 3]))
              = Ok program
                  {| lexer := Lexer.Build "a &" j
                                [Token.Build "ID" "a" 0; Token.Build "OP" "&" 2;
                                 Token.Build "EOF" "" 3];
                     current_token := Some tok |})
          \/ (exists msg,
                 parse_program 10
                   (Parser_init
                      (Lexer.Build "a &" 0
                         [Token.Build "ID" "a" 0; Token.Build "OP" "&" 2;
                          Token.Build "EOF" "" 3]))
                 = Raise (SyntaxError msg)
                     {| lexer := Lexer.Build "a &" j
                                   [Token.Build "ID" "a" 0; Token.Build "OP" "&" 2;
                                    Token.Build "EOF" "" 3];
                        current_token := Some tok |})))
  /\ ((exists program, run "a &" = Parsed program)
      \/ (exists msg, run "a &" = Failed (SyntaxError msg)))
  /\ parse_program 10
       (Parser_init
          (Lexer.Build "a &" 0
             [Token.Build "ID" "a" 0; Token.Build "OP" "&" 2; Token.Build "EOF" "" 3]))
     = parse_tokens "a &"
         [Token.Build "ID" "a" 0; Token.Build "OP" "&" 2; Token.Build "EOF" "" 3].
Proof.
  apply (parser_never_reads_past_EOF "a &"
           [Token.Build "ID" "a" 0; Token.Build "OP" "&" 2; Token.Build "EOF" "" 3] 10).
  - vm_compute. reflexivity.
  - simpl. lia.
Defined.

(** * More about the lexer: supporting lemmas *)

Lemma run_length_le (p : ascii -> bool) (s : string) :
  run_length p s <= String.length s.
Proof. induction s as [|c s IH]; simpl; [lia|]. destruct (p c); lia. Qed.

Lemma run_length_all (p : ascii -> bool) (s : string) :
  forall_chars p s = true -> run_length p s = String.length s.
Proof.
  induction s as [|c s IH]; simpl; [reflexivity|].
  destruct (p c); [|discriminate]. intros H. now rewrite IH.
Qed.

Lemma run_length_forall (p : ascii -> bool) (s : string) :
  forall_chars p (substring 0 (run_length p s) s) = true.
Proof.
  induction s as [|c s IH]; simpl; [reflexivity|].
  destruct (p c) eqn:E; simpl; [|reflexivity]. now rewrite E, IH.
Qed.

(** The character after the longest run, if any, does not satisfy [p]. *)
Lemma run_length_stops (p : ascii -> bool) (s : string) (d : ascii) :
  String.get (run_length p s) s = Some d -> p d = false.
Proof.
  induction s as [|c s IH]; simpl; [discriminate|].
  destruct (p c) eqn:E; simpl; [exact IH|]. now intros [= <-].
Qed.

Lemma prefix_length (s1 : string) :
  forall s2, prefix s1 s2 = true -> String.length s1 <= String.length s2.
Proof.
  induction s1 as [|a s1 IH]; intros [|b s2]; simpl; try lia; try discriminate.
  destruct (ascii_dec a b); [|discriminate]. intros H. apply IH in H. lia.
Qed.

Lemma length_substring0 (s : string) :
  forall n, n <= String.length s -> String.length (substring 0 n s) = n.
Proof.
  induction s as [|c s IH]; intros [|n] H; simpl in *; try lia.
  now rewrite IH by lia.
Qed.

Lemma substring0_drop (s : string) :
  forall n, substring 0 n s ++ string_drop n s = s.
Proof.
  induction s as [|c s IH]; intros [|n]; simpl; try reflexivity.
  now rewrite IH.
Qed.

Lemma substring_app_length (a b : string) (n : nat) :
  substring (String.length a) n (a ++ b) = substring 0 n b.
Proof. induction a as [|c a IH]; simpl; auto. Qed.

Lemma substring0_idem (s : string) :
  forall n, substring 0 (String.length (substring 0 n s)) s = substring 0 n s.
Proof.
  induction s as [|c s IH]; intros [|n]; simpl; try reflexivity.
  now rewrite IH.
Qed.

Lemma string_length_app (a b : string) :
  String.length (a ++ b) = String.length a + String.length b.
Proof. induction a as [|c a IH]; simpl; [reflexivity|now rewrite IH]. Qed.

(** Something matches at the start of every non-empty string: a line feed
    is white space and any other character is at least a [MISMATCH]. *)
Lemma match_at_Some (c : ascii) (rest : string) :
  exists kind len, match_at (String c rest) = Some (kind, len).
Proof.
  unfold match_at.
  repeat match goal with
         | |- context [if ?b then _ else _] => destruct b eqn:?
         end; eauto.
  exfalso. unfold is_dot, is_space in *.
  destruct (Ascii.eqb c "010"); [|discriminate].
  rewrite !orb_true_r in *. simpl in *. congruence.
Qed.

(** A match is not empty and lies within the string. *)
Lemma match_at_length (s : string) (kind : string) (len : nat) :
  match_at s = Some (kind, len) -> 1 <= len <= String.length s.
Proof.
  destruct s as [|c rest]; [discriminate|]. unfold match_at.
  pose proof (run_length_le is_dot rest).
  pose proof (run_length_le is_id_char rest).
  pose proof (run_length_le is_space rest).
  destruct (Ascii.eqb c "#"); [intros [= _ <-]; simpl; lia|].
  destruct (prefix "fn" (String c rest)) eqn:E1;
    [apply prefix_length in E1; intros [= _ <-]; simpl in *; lia|].
  destruct (prefix "true" (String c rest)) eqn:E2;
    [apply prefix_length in E2; intros [= _ <-]; simpl in *; lia|].
  destruct (prefix "false" (String c rest)) eqn:E3;
    [apply prefix_length in E3; intros [= _ <-]; simpl in *; lia|].
  repeat match goal with
         | |- context [if ?b then _ else _] => destruct b
         end;
    intros [= _ <-]; simpl; lia.
Qed.

(** The scan tiles what is left of the string after the skipped part. *)
Lemma finditer_from_tiles (s : string) :
  forall pos skip, skip <= String.length s ->
    contiguous (pos + skip) (finditer_from pos skip s)
    /\ concat_groups (finditer_from pos skip s) = string_drop skip s.
Proof.
  induction s as [|c s IH]; intros pos skip Hskip; cbn [finditer_from].
  - destruct skip; simpl; auto.
  - destruct skip as [|k].
    + destruct (match_at_Some c s) as (kind & len & E). rewrite E.
      destruct (match_at_length _ _ _ E) as [H1 Hlen]. simpl in Hlen.
      destruct len as [|l]; [lia|]. cbn [contiguous concat_groups fold_right Match.start Match.group].
      destruct (IH (S pos) (S l - 1)) as [Hc Hg]; [lia|].
      fold (concat_groups (finditer_from (S pos) (S l - 1) s)). rewrite Hg.
      replace (S l - 1) with l in * by lia.
      split; [split; [lia|]|].
      * rewrite length_substring0 by (simpl; lia).
        replace (pos + 0 + S l) with (S pos + l) by lia. exact Hc.
      * simpl. now rewrite substring0_drop.
    + simpl in Hskip. destruct (IH (S pos) k) as [Hc Hg]; [lia|].
      replace (pos + S k) with (S pos + k) by lia. simpl. auto.
Qed.

(** The loop of [tokenize] over matches without a [MISMATCH] keeps, in
    order, the matches that are neither white space nor comments. *)
Lemma tokenize_loop_filter (ms : list Match.t) :
  Forall (fun m => Match.lastgroup m <> "MISMATCH") ms ->
  forall acc,
    tokenize_loop ms acc = inr (acc ++ map token_of_match (filter kept ms))%list.
Proof.
  induction 1 as [|m ms Hm _ IH]; intros acc; cbn [tokenize_loop filter].
  - now rewrite app_nil_r.
  - unfold kept at 1.
    destruct ((Match.lastgroup m =? "WHITESPACE") || (Match.lastgroup m =? "COMMENT"));
      cbn [negb]; [apply IH|].
    apply String.eqb_neq in Hm. rewrite Hm, IH, <- app_assoc. reflexivity.
Qed.

Lemma tokenize_loop_inr_no_MISMATCH (ms : list Match.t) :
  forall acc toks, tokenize_loop ms acc = inr toks ->
    Forall (fun m => Match.lastgroup m <> "MISMATCH") ms.
Proof.
  induction ms as [|m ms IH]; intros acc toks H; [constructor|].
  cbn [tokenize_loop] in H.
  destruct ((Match.lastgroup m =? "WHITESPACE") || (Match.lastgroup m =? "COMMENT")) eqn:E.
  - constructor; [|eauto]. intros Hm. rewrite Hm in E. discriminate.
  - destruct (String.eqb_spec (Match.lastgroup m) "MISMATCH"); [discriminate|].
    constructor; eauto.
Qed.

(** A token of a successful [tokenize] is the end-of-input token or the
    token of a kept match. *)
Lemma tokenize_In (text : string) (toks : list Token.t) (t : Token.t) :
  tokenize text = inr toks -> In t toks ->
  t = Token.Build "EOF" "" (String.length text)
  \/ exists m, In m (finditer text) /\ kept m = true /\ t = token_of_match m
               /\ Match.lastgroup m <> "MISMATCH".
Proof.
  intros Hlex Hin. unfold tokenize in Hlex.
  destruct (tokenize_loop (finditer text) []) as [e|ts] eqn:E; [discriminate|].
  injection Hlex as <-.
  pose proof (tokenize_loop_inr_no_MISMATCH _ _ _ E) as Hno.
  rewrite (tokenize_loop_filter _ Hno) in E. injection E as <-. simpl in Hin.
  apply in_app_or in Hin. destruct Hin as [Hin|[<-|[]]]; [right|now left].
  apply in_map_iff in Hin. destruct Hin as (m & <- & Hm).
  apply filter_In in Hm. destruct Hm as [Hm Hk].
  exists m. repeat split; auto. rewrite Forall_forall in Hno. auto.
Qed.

Lemma finditer_from_skip_all (s : string) :
  forall pos, finditer_from pos (String.length s) s = [].
Proof. induction s as [|c s IH]; intros pos; simpl; auto. Qed.

Lemma tokenize_all_dropped (text : string) :
  Forall (fun m => kept m = false) (finditer text) ->
  tokenize text = inr [Token.Build "EOF" "" (String.length text)].
Proof.
  intros H. unfold tokenize. rewrite tokenize_loop_filter.
  - replace (filter kept (finditer text)) with (@nil Match.t); [reflexivity|].
    symmetry. induction H as [|m ms Hm _ IH]; simpl; [reflexivity|]. now rewrite Hm.
  - eapply Forall_impl; [|exact H]. intros m Hm E. unfold kept in Hm.
    rewrite E in Hm. discriminate.
Qed.

Lemma run_no_tokens (text : string) (k : nat) :
  tokenize text = inr [Token.Build "EOF" "" k] -> run text = Parsed [].
Proof. intros H. rewrite (run_lexed _ _ H). reflexivity. Qed.

Lemma is_space_cases (c : ascii) :
  is_space c = true ->
  c = " "%char \/ c = "009"%char \/ c = "010"%char \/ c = "013"%char.
Proof.
  unfold is_space.
  destruct (Ascii.eqb_spec c " "); [auto|].
  destruct (Ascii.eqb_spec c "009"); [auto|].
  destruct (Ascii.eqb_spec c "010"); [auto|].
  destruct (Ascii.eqb_spec c "013"); [auto|]. discriminate.
Qed.

Lemma match_at_space (c : ascii) (rest : string) :
  is_space c = true ->
  match_at (String c rest) = Some ("WHITESPACE", S (run_length is_space rest)).
Proof.
  intros H. destruct (is_space_cases c H) as [-> | [-> | [-> | ->]]]; reflexivity.
Qed.

(** * More about the lexer: properties *)

(** X1.  Lexing succeeds exactly when the scan finds no character that only
    the [MISMATCH] pattern matches, and the tokens are then, in order, the
    matches that are neither white space nor comments, each with its group
    name, text and start offset, followed by the end-of-input token. *)
Theorem tokens_are_the_kept_matches (text : string) (toks : list Token.t) :
  tokenize text = inr toks
  <-> (Forall (fun m => Match.lastgroup m <> "MISMATCH") (finditer text)
       /\ toks = (map token_of_match (filter kept (finditer text))
                  ++ [Token.Build "EOF" "" (String.length text)])%list).
Proof.
  unfold tokenize. split.
  - destruct (tokenize_loop (finditer text) []) as [e|ts] eqn:E; [discriminate|].
    intros [= <-]. pose proof (tokenize_loop_inr_no_MISMATCH _ _ _ E) as Hno.
    rewrite (tokenize_loop_filter _ Hno) in E. injection E as <-. auto.
  - intros [Hno ->]. now rewrite (tokenize_loop_filter _ Hno).
Qed.

(** X2.  The matches of the scan tile the text: the first starts at offset
    0, each next one starts where the one before ends, none is empty, and
    their texts joined give back the text. *)
Theorem scan_tiles_the_text (text : string) :
  contiguous 0 (finditer text)
  /\ concat_groups (finditer text) = text
  /\ Forall (fun m => 1 <= String.length (Match.group m)) (finditer text).
Proof.
  destruct (finditer_from_tiles text 0 0 ltac:(lia)) as [Hc Hg].
  split; [exact Hc|]. split; [unfold finditer; rewrite Hg; now destruct text|].
  apply Forall_forall. intros m Hm.
  destruct (finditer_In _ _ Hm) as (a & b & len & _ & _ & Hk & ->).
  destruct (match_at_length _ _ _ Hk) as [H1 H2].
  now rewrite length_substring0.
Qed.

(** X3.  The text of a token is the slice of the source that starts at the
    token's position, and it ends within the source. *)
Theorem token_text_is_the_source_slice (text : string) (toks : list Token.t)
  (t : Token.t) :
  tokenize text = inr toks -> In t toks ->
  substring (Token.position t) (String.length (Token.value t)) text = Token.value t
  /\ Token.position t + String.length (Token.value t) <= String.length text.
Proof.
  intros Hlex Hin. destruct (tokenize_In _ _ _ Hlex Hin) as [-> | (m & Hm & _ & -> & _)].
  - simpl. split; [|lia]. clear. induction text as [|c s IH]; simpl; auto.
  - destruct (finditer_In _ _ Hm) as (a & b & len & -> & Hs & Hk & Hg).
    destruct (match_at_length _ _ _ Hk) as [H1 H2].
    cbn [token_of_match Token.position Token.value]. rewrite Hs, Hg. split.
    + rewrite substring_app_length. apply substring0_idem.
    + rewrite length_substring0, string_length_app by assumption. lia.
Qed.

Lemma token_text_is_the_source_slice_witness :
  substring 4 (String.length "bc") "a & bc" = "bc"
  /\ 4 + String.length "bc" <= String.length "a & bc".
Proof.
  apply (token_text_is_the_source_slice "a & bc"
           [Token.Build "ID" "a" 0; Token.Build "OP" "&" 2; Token.Build "ID" "bc" 4;
            Token.Build "EOF" "" 6] (Token.Build "ID" "bc" 4)).
  - vm_compute. reflexivity.
  - simpl. tauto.
Defined.

Lemma prefix_substring0 (p : string) :
  forall n s, prefix p (substring 0 n s) = true -> prefix p s = true.
Proof.
  induction p as [|a p IH]; intros n s H; [now destruct s|].
  destruct s as [|b s]; [now destruct n|].
  destruct n as [|n]; simpl in *; [discriminate|].
  destruct (ascii_dec a b); [|discriminate]. eauto.
Qed.

Lemma prefix_substring0_false (p : string) (n : nat) (s : string) :
  prefix p s = false -> prefix p (substring 0 n s) = false.
Proof.
  intros H. destruct (prefix p (substring 0 n s)) eqn:E; [|reflexivity].
  apply prefix_substring0 in E. congruence.
Qed.

(** What [match_at] reports as the kind of a match, with the matched text. *)
Lemma match_at_shape (b : string) (kind : string) (len : nat) :
  match_at b = Some (kind, len) ->
  kind = "COMMENT" \/ kind = "WHITESPACE" \/ kind = "MISMATCH"
  \/ lexed_token_shape "" (Token.Build kind (substring 0 len b) 0) /\ kind <> "EOF".
Proof.
  destruct b as [|c rest]; [discriminate|]. unfold match_at, lexed_token_shape.
  cbn [Token.type Token.value].
  destruct (Ascii.eqb c "#"); [intros [= <- _]; auto|].
  destruct (prefix "fn" (String c rest)) eqn:E1.
  { intros [= <- <-]. apply prefix_correct in E1. do 3 right.
    split; [left; auto|discriminate]. }
  destruct (prefix "true" (String c rest)) eqn:E2.
  { intros [= <- <-]. apply prefix_correct in E2. do 3 right.
    split; [right; left; auto|discriminate]. }
  destruct (prefix "false" (String c rest)) eqn:E3.
  { intros [= <- <-]. apply prefix_correct in E3. do 3 right.
    split; [right; left; auto|discriminate]. }
  destruct (is_letter c) eqn:El.
  { intros [= <- <-]. do 3 right. split; [|discriminate]. right. right. left.
    split; [reflexivity|]. split.
    - exists c, (substring 0 (run_length is_id_char rest) rest).
      split; [reflexivity|]. split; [assumption|apply run_length_forall].
    - auto using prefix_substring0_false. }
  destruct (is_op_char c) eqn:Eo.
  { intros [= <- <-]. do 3 right. split; [|discriminate]. do 3 right. left.
    split; [reflexivity|]. exists c. split; [now destruct rest|assumption]. }
  destruct (Ascii.eqb_spec c ",") as [->|].
  { intros [= <- <-]. do 3 right. split; [|discriminate]. do 4 right. left.
    split; [reflexivity|now destruct rest]. }
  destruct (is_space c); [intros [= <- _]; auto|].
  destruct (is_dot c); [intros [= <- _]; auto|discriminate].
Qed.

Lemma match_at_ID (b : string) (len : nat) :
  match_at b = Some ("ID", len) ->
  exists c rest, b = String c rest /\ len = S (run_length is_id_char rest).
Proof.
  destruct b as [|c rest]; [discriminate|]. unfold match_at.
  repeat match goal with
         | |- context [if ?b then _ else _] => destruct b
         end;
    intros [= E]; try discriminate; subst; eauto.
Qed.

(** X4.  Every token of a text that lexes has one of six shapes: [FN] with
    text [fn]; [BOOL] with text [true] or [false]; [ID] whose text is a
    letter followed by letters, digits, hyphens and underscores and does
    not start with [fn], [true] or [false]; [OP] with one of the characters
    [&|~()]; [COMMA] with text [,]; and the end-of-input token.  No token
    is a comment, white space or a mismatch. *)
Theorem tokens_have_lexical_shapes (text : string) (toks : list Token.t) :
  tokenize text = inr toks -> Forall (lexed_token_shape text) toks.
Proof.
  intros Hlex. apply Forall_forall. intros t Hin.
  destruct (tokenize_In _ _ _ Hlex Hin) as [-> | (m & Hm & Hk & -> & Hmm)].
  - unfold lexed_token_shape. tauto.
  - destruct (finditer_In _ _ Hm) as (a & b & len & _ & _ & Hat & Hg).
    unfold kept in Hk.
    destruct (match_at_shape _ _ _ Hat) as [E|[E|[E|[Hshape Hne]]]];
      try (rewrite E in Hk; discriminate); [contradiction|].
    unfold lexed_token_shape in *. unfold token_of_match.
    cbn [Token.type Token.value] in *. rewrite Hg.
    repeat (destruct Hshape as [Hshape|Hshape]; [tauto|]).
    injection Hshape as E _. contradiction.
Qed.

Lemma tokens_have_lexical_shapes_witness :
  Forall (lexed_token_shape "fn f(x) ~x")
    [Token.Build "FN" "fn" 0; Token.Build "ID" "f" 3; Token.Build "OP" "(" 4;
     Token.Build "ID" "x" 5; Token.Build "OP" ")" 6; Token.Build "OP" "~" 8;
     Token.Build "ID" "x" 9; Token.Build "EOF" "" 10].
Proof.
  apply (tokens_have_lexical_shapes "fn f(x) ~x"). vm_compute. reflexivity.
Defined.

(** X5.  An identifier token ends where its run ends: the character that
    follows it in the text, if there is one, is not a letter, a digit, a
    hyphen or an underscore. *)
Theorem identifier_token_is_maximal (text : string) (toks : list Token.t)
  (t : Token.t) (d : ascii) :
  tokenize text = inr toks -> In t toks -> Token.type t = "ID" ->
  String.get (Token.position t + String.length (Token.value t)) text = Some d ->
  is_id_char d = false.
Proof.
  intros Hlex Hin Hty Hget.
  destruct (tokenize_In _ _ _ Hlex Hin) as [-> | (m & Hm & _ & -> & _)];
    [discriminate|].
  destruct (finditer_In _ _ Hm) as (a & b & len & -> & Hs & Hat & Hg).
  cbn [token_of_match Token.type Token.value Token.position] in *.
  rewrite Hty in Hat. destruct (match_at_length _ _ _ Hat) as [_ Hlen].
  destruct (match_at_ID _ _ Hat) as (c & rest & -> & ->).
  rewrite Hs, Hg, length_substring0, Nat.add_comm in Hget by assumption.
  rewrite <- append_correct2 in Hget. simpl in Hget.
  eapply run_length_stops. eassumption.
Qed.

Lemma identifier_token_is_maximal_witness : is_id_char "("%char = false.
Proof.
  apply (identifier_token_is_maximal "ab(c)"
           [Token.Build "ID" "ab" 0; Token.Build "OP" "(" 2; Token.Build "ID" "c" 3;
            Token.Build "OP" ")" 4; Token.Build "EOF" "" 5]
           (Token.Build "ID" "ab" 0) "("%char).
  - vm_compute. reflexivity.
  - simpl. tauto.
  - reflexivity.
  - reflexivity.
Defined.

(** X6.  A text of white space only, and a text that is one comment (a [#]
    and no line feed after it), have no token but the end of input, and
    parse to the empty program. *)
Theorem blank_text_is_the_empty_program (text : string) :
  forall_chars is_space text = true
  \/ (exists s, text = String "#" s /\ forall_chars is_dot s = true) ->
  tokenize text = inr [Token.Build "EOF" "" (String.length text)]
  /\ run text = Parsed [].
Proof.
  intros H.
  assert (tokenize text = inr [Token.Build "EOF" "" (String.length text)]) as Hlex.
  { apply tokenize_all_dropped. destruct H as [H | (s & -> & H)].
    - destruct text as [|c rest]; [constructor|].
      simpl in H. apply andb_prop in H. destruct H as [Hc Hrest].
      unfold finditer. cbn [finditer_from]. rewrite (match_at_space _ _ Hc).
      rewrite (run_length_all _ _ Hrest). simpl.
      rewrite Nat.sub_0_r, finditer_from_skip_all. repeat constructor.
    - unfold finditer. cbn [finditer_from].
      change (match_at (String "#" s)) with (Some ("COMMENT", S (run_length is_dot s))).
      rewrite (run_length_all _ _ H). simpl.
      rewrite Nat.sub_0_r, finditer_from_skip_all. repeat constructor. }
  split; [exact Hlex|]. exact (run_no_tokens _ _ Hlex).
Qed.

Lemma blank_text_is_the_empty_program_witness :
  tokenize "# a $ comment" = inr [Token.Build "EOF" "" (String.length "# a $ comment")]
  /\ run "# a $ comment" = Parsed [].
Proof.
  apply (blank_text_is_the_empty_program "# a $ comment").
  right. exists " a $ comment". split; reflexivity.
Defined.

Lemma tokens_are_the_kept_matches_aux (text : string) (toks : list Token.t) :
  tokenize text = inr toks ->
  toks = (map token_of_match (filter kept (finditer text))
          ++ [Token.Build "EOF" "" (String.length text)])%list.
Proof.
  unfold tokenize.
  destruct (tokenize_loop (finditer text) []) as [e|ts] eqn:E; [discriminate|].
  intros [= <-]. pose proof (tokenize_loop_inr_no_MISMATCH _ _ _ E) as Hno.
  rewrite (tokenize_loop_filter _ Hno) in E. now injection E as <-.
Qed.

Lemma separated_weaken (ts : list Token.t) (pos pos' : nat) :
  separated pos ts -> pos' <= pos -> separated pos' ts.
Proof. destruct ts as [|t ts]; simpl; auto. intros [H1 H2] H. split; [lia|auto]. Qed.

Lemma contiguous_separated (ms : list Match.t) :
  forall pos, contiguous pos ms ->
    separated pos
      (map token_of_match (filter kept ms)
       ++ [Token.Build "EOF" "" (pos + String.length (concat_groups ms))])%list.
Proof.
  induction ms as [|m ms IH]; intros pos H; simpl in *.
  - split; [lia|exact I].
  - destruct H as [Hs Hc]. specialize (IH _ Hc).
    rewrite string_length_app, Nat.add_assoc.
    destruct (kept m); simpl.
    + split; [lia|]. now rewrite Hs.
    + eapply separated_weaken; [exact IH|lia].
Qed.

(** X7.  The tokens of a text that lexes are in source order and do not
    overlap: each token starts at or after the end of the one before it,
    and the end-of-input token lies at or after the end of the last. *)
Theorem tokens_are_in_source_order (text : string) (toks : list Token.t) :
  tokenize text = inr toks -> separated 0 toks.
Proof.
  intros Hlex. apply tokens_are_the_kept_matches_aux in Hlex. subst toks.
  destruct (finditer_from_tiles text 0 0 ltac:(lia)) as [Hc Hg].
  pose proof (contiguous_separated _ _ Hc) as H. unfold finditer.
  rewrite Hg in H. simpl in H. now destruct text.
Qed.

Lemma tokens_are_in_source_order_witness :
  separated 0
    [Token.Build "ID" "ab" 0; Token.Build "OP" "&" 3; Token.Build "BOOL" "true" 5;
     Token.Build "EOF" "" 9].
Proof.
  apply (tokens_are_in_source_order "ab & true"). vm_compute. reflexivity.
Defined.

(** * More about the parser: supporting lemmas *)

Lemma bind_Ok_inv {A B} (m : M A) (f : A -> M B) (p q : Parser) (b : B) :
  bind m f p = Ok b q -> exists a p', m p = Ok a p' /\ f a p' = Ok b q.
Proof.
  unfold bind. destruct (m p) as [a p'|e p'|]; try discriminate. eauto.
Qed.

Lemma current_Ok_inv (p q : Parser) (tok : Token.t) :
  current p = Ok tok q -> q = p /\ current_token p = Some tok.
Proof.
  unfold current. destruct (current_token p); [|discriminate].
  intros [= -> ->]. auto.
Qed.

Lemma error_not_Ok {A} (expected : string) (p q : Parser) (a : A) :
  error expected p <> Ok a q.
Proof.
  unfold error, bind, current. destruct (current_token p); discriminate.
Qed.

(** A successful [consume] returns the lookahead it found, whose type is
    the expected one, and moves the lexer by one token. *)
Lemma consume_Ok_inv (ty : string) (p q : Parser) (tok : Token.t) :
  consume ty p = Ok tok q ->
  current_token p = Some tok /\ Token.type tok = ty
  /\ q = {| lexer := snd (Lexer.consume (lexer p));
            current_token := fst (Lexer.consume (lexer p)) |}.
Proof.
  unfold consume. intros H. apply bind_Ok_inv in H.
  destruct H as (cur & p' & Hc & H). apply current_Ok_inv in Hc.
  destruct Hc as [-> Hc]. destruct (String.eqb_spec (Token.type cur) ty) as [E|E].
  - unfold bind, advance, ret in H. simpl in H. injection H as <- <-. auto.
  - now apply error_not_Ok in H.
Qed.

(** Taking apart a hypothesis that says a monadic computation returned. *)
Ltac invert_Ok :=
  repeat match goal with
         | H : bind _ _ _ = Ok _ _ |- _ =>
             apply bind_Ok_inv in H;
             let a := fresh "a" in
             let q := fresh "q" in
             let H1 := fresh "Hcall" in
             destruct H as (a & q & H1 & H); cbv beta in H
         | H : ret _ _ = Ok _ _ |- _ => unfold ret in H; injection H as <- <-
         | H : error _ _ = Ok _ _ |- _ => now apply error_not_Ok in H
         | H : out_of_fuel _ = Ok _ _ |- _ => discriminate H
         | H : current _ = Ok _ _ |- _ =>
             apply current_Ok_inv in H;
             let E := fresh "Hcur" in destruct H as [-> E]
         | H : (if ?b then _ else _) _ = Ok _ _ |- _ =>
             let E := fresh "Hif" in destruct b eqn:E
         end.

Lemma expression_grammar_shaped (n : nat) :
  (forall p e q, parse_expression n p = Ok e q -> expression_shaped e = true)
  /\ (forall left p e q, expression_shaped left = true ->
                         expression_loop n left p = Ok e q ->
                         expression_shaped e = true)
  /\ (forall p e q, parse_prefix_expression n p = Ok e q -> expression_shaped e = true)
  /\ (forall p e q, parse_primary_expression n p = Ok e q -> expression_shaped e = true)
  /\ (forall name p e q, parse_function_application n name p = Ok e q ->
                         expression_shaped e = true)
  /\ (forall args p r q, forallb expression_shaped args = true ->
                         args_loop n args p = Ok r q ->
                         forallb expression_shaped r = true).
Proof.
  induction n as [|n (IHE & IHL & IHP & IHQ & IHA & IHG)].
  - repeat split; intros; discriminate.
  - repeat split.
    + intros p e q H. rewrite parse_expression_S in H. invert_Ok. eauto.
    + intros left p e q Hleft H. rewrite expression_loop_S in H. invert_Ok; [|assumption].
      apply consume_Ok_inv in Hcall. destruct Hcall as (Hc & _ & _).
      rewrite Hcur in Hc. injection Hc as <-.
      eapply IHL; [|eassumption]. simpl.
      rewrite Hif, Hleft. simpl. eauto.
    + intros p e q H. rewrite parse_prefix_expression_S in H. invert_Ok; simpl; eauto.
    + intros p e q H. rewrite parse_primary_expression_S in H.
      invert_Ok; simpl; eauto.
    + intros name p e q H. rewrite parse_function_application_S in H.
      invert_Ok; simpl; [|reflexivity].
      eapply IHG; [|eassumption]. simpl. erewrite IHE by eassumption. reflexivity.
    + intros args p r q Hargs H. rewrite args_loop_S in H. invert_Ok; [|assumption].
      eapply IHG; [|eassumption]. rewrite forallb_app, Hargs. simpl.
      erewrite IHE by eassumption. reflexivity.
Qed.

Lemma parse_definition_shaped (n : nat) (p q : Parser) (e : Node) :
  parse_definition n p = Ok e q -> item_shaped e = true.
Proof.
  unfold parse_definition. intros H. invert_Ok; simpl;
    eapply (proj1 (expression_grammar_shaped n)); eassumption.
Qed.

Lemma program_loop_shaped (n : nat) :
  forall result p r q,
    forallb item_shaped result = true ->
    program_loop n result p = Ok r q -> forallb item_shaped r = true.
Proof.
  induction n as [|n IH]; intros result p r q Hres H; [discriminate|].
  rewrite program_loop_S in H. invert_Ok; [| |assumption].
  - eapply IH; [|eassumption]. rewrite forallb_app, Hres. simpl.
    erewrite parse_definition_shaped by eassumption. reflexivity.
  - eapply IH; [|eassumption]. rewrite forallb_app, Hres. simpl.
    match goal with
    | Hc : parse_expression _ _ = Ok ?e _ |- _ =>
        pose proof (proj1 (expression_grammar_shaped n) _ _ _ Hc) as Ha;
        destruct e; simpl in *; try rewrite Ha; auto; discriminate
    end.
Qed.

(** [program_loop] returns only on an end-of-input lookahead. *)
Lemma program_loop_Ok_at_EOF (n : nat) :
  forall result p r q,
    program_loop n result p = Ok r q ->
    exists tok, current_token q = Some tok /\ Token.type tok = "EOF".
Proof.
  induction n as [|n IH]; intros result p r q H; [discriminate|].
  rewrite program_loop_S in H. invert_Ok; eauto.
  match goal with
  | Hc : current_token _ = Some ?tok |- _ => exists tok; split; [assumption|]
  end.
  apply negb_false_iff in Hif. now apply String.eqb_eq.
Qed.

Lemma program_loop_prepend (n : nat) :
  forall result p,
    program_loop n result p = prepend_items result (program_loop n [] p).
Proof.
  induction n as [|n IH]; intros result p; [reflexivity|].
  rewrite !program_loop_S. unfold bind.
  destruct (current p) as [cur p'|e p'|]; try reflexivity.
  destruct (negb (Token.type cur =? "EOF")); [|simpl; now rewrite app_nil_r].
  destruct (Token.type cur =? "FN").
  - destruct (parse_definition n p') as [item q|e q|]; try reflexivity.
    rewrite (IH (result ++ [item])%list), (IH ([] ++ [item])%list).
    destruct (program_loop n [] q); simpl; try reflexivity.
    now rewrite <- app_assoc.
  - destruct (parse_expression n p') as [item q|e q|]; try reflexivity.
    rewrite (IH (result ++ [item])%list), (IH ([] ++ [item])%list).
    destruct (program_loop n [] q); simpl; try reflexivity.
    now rewrite <- app_assoc.
Qed.

(** * More about the parser: properties *)

(** X8.  The parser returns only at the end of the input: when a run over
    the tokens of a text returns a program, the lexer has handed out every
    token and the lookahead is the end-of-input token, so no token of the
    text is left unparsed. *)
Theorem parser_returns_at_end_of_input (text : string) (toks : list Token.t)
  (n : nat) (program : list Node) (q : Parser) :
  tokenize text = inr toks ->
  parse_program n (Parser_init (Lexer.Build text 0 toks)) = Ok program q ->
  q = {| lexer := Lexer.Build text (List.length toks) toks;
         current_token := Some (Token.Build "EOF" "" (String.length text)) |}.
Proof.
  intros Hlex H. pose proof (tokenize_ends_with_EOF' _ _ Hlex) as Hend.
  destruct (tokenize_ends_with_EOF _ _ Hlex) as (ts & E & Hts).
  rewrite Parser_init_st in H. unfold parse_program in H.
  assert (1 <= List.length toks) as Hlen
    by (rewrite E, length_app; simpl; lia).
  pose proof (program_loop_good text toks Hend n 1 [] ltac:(lia)) as Hgood.
  destruct (program_loop_Ok_at_EOF _ _ _ _ _ H) as (tok & Htok & Hty).
  rewrite H in Hgood. destruct Hgood as (j & -> & Hj).
  simpl in Htok. unfold st.
  assert (j - 1 = List.length ts) as Hjts.
  { destruct (Nat.lt_ge_cases (j - 1) (List.length ts)) as [Hlt|Hge].
    - rewrite E, nth_error_app1 in Htok by assumption.
      apply nth_error_In in Htok. rewrite Forall_forall in Hts.
      now apply Hts in Htok.
    - rewrite E, length_app in Hj. simpl in Hj. lia. }
  rewrite E, length_app in *. simpl in *.
  replace j with (List.length ts + 1) by lia.
  replace (List.length ts + 1 - 1) with (List.length ts) by lia.
  rewrite nth_error_app2, Nat.sub_diag by lia. reflexivity.
Qed.

Lemma parser_returns_at_end_of_input_witness :
  {| lexer := Lexer.Build "a b" 3
                [Token.Build "ID" "a" 0; Token.Build "ID" "b" 2; Token.Build "EOF" "" 3];
     current_token := Some (Token.Build "EOF" "" 3) |}
  = {| lexer := Lexer.Build "a b"
                  (List.length [Token.Build "ID" "a" 0; Token.Build "ID" "b" 2;
                                Token.Build "EOF" "" 3])
                  [Token.Build "ID" "a" 0; Token.Build "ID" "b" 2; Token.Build "EOF" "" 3];
       current_token := Some (Token.Build "EOF" "" (String.length "a b")) |}.
Proof.
  apply (parser_returns_at_end_of_input "a b"
           [Token.Build "ID" "a" 0; Token.Build "ID" "b" 2; Token.Build "EOF" "" 3]
           10 [NId "a"; NId "b"]).
  - vm_compute. reflexivity.
  - vm_compute. reflexivity.
Defined.

(** X9.  Whatever the tokens, the items of a returned program are well
    formed: an item is a definition or an expression, the body of a
    definition is an expression, no definition occurs inside an expression,
    and every binary node is tagged [&] or [|]. *)
Theorem parsed_items_are_well_formed (n : nat) (p q : Parser) (program : list Node) :
  parse_program n p = Ok program q -> forallb item_shaped program = true.
Proof. intros H. exact (program_loop_shaped n [] p program q eq_refl H). Qed.

Lemma parsed_items_are_well_formed_witness :
  forallb item_shaped
    [NDef (NBin (NId "x") (NNot (NApp [NBool "true"] "g")) "|") ["x"] "f"] = true.
Proof.
  apply (parsed_items_are_well_formed 40
           (Parser_init
              (Lexer.Build "fn f(x) x | ~g(true)" 0
                 [Token.Build "FN" "fn" 0; Token.Build "ID" "f" 3;
                  Token.Build "OP" "(" 4; Token.Build "ID" "x" 5;
                  Token.Build "OP" ")" 6; Token.Build "ID" "x" 8;
                  Token.Build "OP" "|" 10; Token.Build "OP" "~" 12;
                  Token.Build "ID" "g" 13; Token.Build "OP" "(" 14;
                  Token.Build "BOOL" "true" 15; Token.Build "OP" ")" 19;
                  Token.Build "EOF" "" 20]))
           (st "fn f(x) x | ~g(true)"
              [Token.Build "FN" "fn" 0; Token.Build "ID" "f" 3;
               Token.Build "OP" "(" 4; Token.Build "ID" "x" 5;
               Token.Build "OP" ")" 6; Token.Build "ID" "x" 8;
               Token.Build "OP" "|" 10; Token.Build "OP" "~" 12;
               Token.Build "ID" "g" 13; Token.Build "OP" "(" 14;
               Token.Build "BOOL" "true" 15; Token.Build "OP" ")" 19;
               Token.Build "EOF" "" 20] 13)).
  vm_compute. reflexivity.
Defined.

(** X10.  A program is parsed item by item in source order.  When the
    lookahead is not the end of input and the first item (a definition if
    the lookahead is [fn], an expression otherwise) parses, the program is
    that item followed by the program parsed from where the item ends; when
    the lookahead is the end of input the program is empty. *)
Theorem program_is_first_item_then_the_rest (n : nat) (p q : Parser)
  (tok : Token.t) (item : Node) :
  current_token p = Some tok -> Token.type tok <> "EOF" ->
  (if Token.type tok =? "FN" then parse_definition n p else parse_expression n p)
  = Ok item q ->
  parse_program (S n) p = prepend_items [item] (parse_program n q).
Proof.
  intros Hcur Hty Hitem. unfold parse_program.
  rewrite program_loop_S. unfold bind at 1. unfold current. rewrite Hcur.
  apply String.eqb_neq in Hty. rewrite Hty. cbn [negb].
  destruct (Token.type tok =? "FN");
    rewrite (bind_Ok _ _ _ _ _ Hitem); apply program_loop_prepend.
Qed.

Lemma program_is_first_item_then_the_rest_witness :
  parse_program 10
    (st "a b" [Token.Build "ID" "a" 0; Token.Build "ID" "b" 2; Token.Build "EOF" "" 3] 1)
  = prepend_items [NId "a"]
      (parse_program 9
         (st "a b" [Token.Build "ID" "a" 0; Token.Build "ID" "b" 2;
                    Token.Build "EOF" "" 3] 2)).
Proof.
  apply (program_is_first_item_then_the_rest 9
           (st "a b" [Token.Build "ID" "a" 0; Token.Build "ID" "b" 2;
                      Token.Build "EOF" "" 3] 1)
           (st "a b" [Token.Build "ID" "a" 0; Token.Build "ID" "b" 2;
                      Token.Build "EOF" "" 3] 2)
           (Token.Build "ID" "a" 0) (NId "a")).
  - reflexivity.
  - discriminate.
  - vm_compute. reflexivity.
Defined.

(** * Token positions do not influence the parse: supporting lemmas *)

Lemma Forall2_nth_error_same (l l' : list Token.t) :
  Forall2 same_text l l' ->
  forall i, same_lookahead (nth_error l i) (nth_error l' i).
Proof.
  induction 1 as [|t t' l l' Ht _ IH]; intros [|i]; simpl; auto.
Qed.

Lemma related_ret {A} (R : A -> A -> Prop) (a a' : A) :
  R a a' -> related R (ret a) (ret a').
Proof. intros H p p' Hp. simpl. auto. Qed.

Lemma related_bind {A B} (R : A -> A -> Prop) (S : B -> B -> Prop)
  (m m' : M A) (f f' : A -> M B) :
  related R m m' -> (forall a a', R a a' -> related S (f a) (f' a')) ->
  related S (bind m f) (bind m' f').
Proof.
  intros Hm Hf p p' Hp. unfold bind. specialize (Hm p p' Hp).
  destruct (m p) as [a q|e q|], (m' p') as [a' q'|e' q'|]; simpl in Hm;
    try contradiction; auto.
  destruct Hm as [Ha Hq]. now apply Hf.
Qed.

Lemma related_current : related same_text current current.
Proof.
  intros p p' Hp. unfold current. pose proof Hp as (_ & _ & Hcur).
  destruct (current_token p), (current_token p'); simpl in Hcur; try contradiction;
    simpl; auto.
Qed.

Lemma related_advance : related (fun _ _ => True) advance advance.
Proof.
  intros p p' (Hpos & Htoks & Hcur). unfold advance, Lexer.consume.
  rewrite !peek_nth_error. simpl. repeat split; auto.
  - now rewrite Hpos.
  - rewrite Hpos. now apply Forall2_nth_error_same.
Qed.

Lemma related_error {A} (R : A -> A -> Prop) (expected : string) :
  related R (error expected) (error expected).
Proof.
  unfold error. eapply related_bind; [apply related_current|].
  intros t t' _ p p' Hp. simpl. auto.
Qed.

Lemma related_consume (ty : string) : related same_text (consume ty) (consume ty).
Proof.
  unfold consume. eapply related_bind; [apply related_current|].
  intros t t' Ht. destruct Ht as [Hty Hv]. rewrite <- Hty.
  destruct (Token.type t =? ty); [|apply related_error].
  eapply related_bind; [apply related_advance|].
  intros _ _ _. apply related_ret. split; assumption.
Qed.

(** A function is related to itself: the two sides have the same shape and
    differ in the tokens and trees bound so far. *)
Ltac related_auto :=
  match goal with
  | H : forall _, related _ _ _ |- related _ _ _ => apply H
  | H : related _ _ _ |- related _ _ _ => exact H
  | |- related _ current current => apply related_current
  | |- related _ (consume _) (consume _) => apply related_consume
  | |- related _ (error _) (error _) => apply related_error
  | |- related _ (ret _) (ret _) => apply related_ret; reflexivity
  | |- related _ (if ?b then _ else _) (if ?b then _ else _) =>
      destruct b; related_auto
  | |- related _ (bind _ _) (bind _ _) =>
      eapply related_bind;
      [related_auto
      |let a := fresh "a" in
       let a' := fresh "a'" in
       let H := fresh "Hrel" in
       intros a a' H;
       lazymatch type of H with
       | same_text _ _ =>
           let Hty := fresh "Hty" in
           let Hv := fresh "Hv" in
           destruct H as [Hty Hv]; rewrite <- ?Hty, <- ?Hv
       | _ = _ => subst a'
       end;
       related_auto]
  end.

Lemma expression_grammar_related (n : nat) :
  related eq (parse_expression n) (parse_expression n)
  /\ (forall left, related eq (expression_loop n left) (expression_loop n left))
  /\ related eq (parse_prefix_expression n) (parse_prefix_expression n)
  /\ related eq (parse_primary_expression n) (parse_primary_expression n)
  /\ (forall name, related eq (parse_function_application n name)
                     (parse_function_application n name))
  /\ (forall args, related eq (args_loop n args) (args_loop n args)).
Proof.
  induction n as [|n (IHE & IHL & IHP & IHQ & IHA & IHG)].
  - repeat split; intros; intros p p' _; exact I.
  - repeat split; intros.
    + rewrite parse_expression_S. related_auto.
    + rewrite expression_loop_S. related_auto.
    + rewrite parse_prefix_expression_S. related_auto.
    + rewrite parse_primary_expression_S. related_auto.
    + rewrite parse_function_application_S. related_auto.
    + rewrite args_loop_S. related_auto.
Qed.

Lemma formals_loop_related (n : nat) :
  forall formals, related eq (formals_loop n formals) (formals_loop n formals).
Proof.
  induction n as [|n IH]; intros formals; [intros p p' _; exact I|].
  rewrite formals_loop_S. related_auto.
Qed.

Lemma parse_definition_related (n : nat) :
  related eq (parse_definition n) (parse_definition n).
Proof.
  pose proof (formals_loop_related n) as HF.
  pose proof (proj1 (expression_grammar_related n)) as HE.
  unfold parse_definition. related_auto.
Qed.

Lemma program_loop_related (n : nat) :
  forall result, related eq (program_loop n result) (program_loop n result).
Proof.
  induction n as [|n IH]; intros result; [intros p p' _; exact I|].
  pose proof (parse_definition_related n) as HD.
  pose proof (proj1 (expression_grammar_related n)) as HE.
  rewrite program_loop_S. related_auto.
Qed.

Lemma Parser_init_same_tokens (txt txt' : string) (toks toks' : list Token.t) :
  Forall2 same_text toks toks' ->
  same_tokens (Parser_init (Lexer.Build txt 0 toks)) (Parser_init (Lexer.Build txt' 0 toks')).
Proof.
  intros H. rewrite !Parser_init_st. unfold st, same_tokens. cbn [lexer current_token].
  repeat split; auto. now apply Forall2_nth_error_same.
Qed.

(** * Token positions do not influence the parse *)

(** X11.  The parser looks at the types and texts of the tokens only.  Over
    two token lists that agree on types and texts, whatever the positions
    of the tokens and the source texts, a run returns the same program, or
    raises an exception of the same class after reading as many tokens, or
    is cut short in both. *)
Theorem token_positions_do_not_influence_the_parse (n : nat) (txt txt' : string)
  (toks toks' : list Token.t) :
  Forall2 same_text toks toks' ->
  same_outcome eq
    (parse_program n (Parser_init (Lexer.Build txt 0 toks)))
    (parse_program n (Parser_init (Lexer.Build txt' 0 toks'))).
Proof.
  intros H. apply program_loop_related. now apply Parser_init_same_tokens.
Qed.

Lemma token_positions_do_not_influence_the_parse_witness :
  same_outcome eq
    (parse_program 12
       (Parser_init
          (Lexer.Build "a&b" 0
             [Token.Build "ID" "a" 0; Token.Build "OP" "&" 1; Token.Build "ID" "b" 2;
              Token.Build "EOF" "" 3])))
    (parse_program 12
       (Parser_init
          (Lexer.Build "a  &  b " 0
             [Token.Build "ID" "a" 0; Token.Build "OP" "&" 3; Token.Build "ID" "b" 6;
              Token.Build "EOF" "" 8]))).
Proof.
  apply (token_positions_do_not_influence_the_parse 12 "a&b" "a  &  b ").
  repeat constructor.
Defined.

(** * More about the grammar: supporting lemmas *)

Lemma bind_Raise {A B} (m : M A) (f : A -> M B) (p q : Parser) (e : Exn) :
  m p = Raise e q -> bind m f p = Raise e q.
Proof. intros H. unfold bind. now rewrite H. Qed.

Lemma current_Some {B} (p : Parser) (tok : Token.t) (f : Token.t -> M B) :
  current_token p = Some tok -> bind current f p = f tok p.
Proof. intros H. unfold bind, current. now rewrite H. Qed.

(** An expression does not start on a token that is neither a boolean, an
    identifier, an opening parenthesis nor a negation sign. *)
Lemma parse_expression_bad_start (n : nat) (p : Parser) (tok : Token.t) :
  current_token p = Some tok ->
  Token.type tok <> "BOOL" -> Token.type tok <> "ID" ->
  Token.value tok <> "(" -> Token.value tok <> "~" ->
  parse_expression (3 + n) p
  = Raise (SyntaxError (error_message "primary expression" tok (Lexer.text (lexer p)))) p.
Proof.
  intros Hcur Hb Hi Hp Hn.
  apply String.eqb_neq in Hb, Hi, Hp, Hn.
  change (3 + n) with (S (S (S n))).
  rewrite parse_expression_S. apply bind_Raise.
  rewrite parse_prefix_expression_S, (current_Some _ _ _ Hcur), Hn.
  rewrite parse_primary_expression_S, (current_Some _ _ _ Hcur), Hb, Hi, Hp.
  unfold error. now rewrite (current_Some _ _ _ Hcur).
Qed.

Section MoreTokenByToken.

Variable txt : string.
Variable toks : list Token.t.

Local Abbreviation st := (st txt toks).




End MoreTokenByToken.


(** * More about the grammar: properties *)





(** X14.  An expression cannot start on a token that is neither a boolean
    literal, an identifier, an opening parenthesis nor a negation sign (a
    binary operator, a closing parenthesis, a comma, the keyword [fn], the
    end of input): [parse_expression] raises the syntax error that expects
    a primary expression, built from that token, without reading further;
    at the top level the same holds for every such token but [fn] and the
    end of input. *)
Theorem expression_cannot_start_on (n : nat) (p : Parser) (tok : Token.t) :
  current_token p = Some tok ->
  Token.type tok <> "BOOL" -> Token.type tok <> "ID" ->
  Token.value tok <> "(" -> Token.value tok <> "~" ->
  parse_expression (3 + n) p
  = Raise (SyntaxError (error_message "primary expression" tok (Lexer.text (lexer p)))) p
  /\ (Token.type tok <> "EOF" -> Token.type tok <> "FN" ->
      parse_program (4 + n) p
      = Raise (SyntaxError (error_message "primary expression" tok (Lexer.text (lexer p))))
          p).
Proof.
  intros Hcur Hb Hi Hp Hn.
  pose proof (parse_expression_bad_start n p tok Hcur Hb Hi Hp Hn) as H.
  split; [exact H|]. intros He Hf. apply String.eqb_neq in He, Hf.
  unfold parse_program. change (4 + n) with (S (3 + n)).
  rewrite program_loop_S, (current_Some _ _ _ Hcur), He, Hf. cbn [negb].
  now apply bind_Raise.
Qed.

Lemma expression_cannot_start_on_witness :
  parse_expression (3 + 0)
    (st "a) b" [Token.Build "ID" "a" 0; Token.Build "OP" ")" 1; Token.Build "ID" "b" 3;
                Token.Build "EOF" "" 4] 2)
  = Raise (SyntaxError (error_message "primary expression" (Token.Build "OP" ")" 1) "a) b"))
      (st "a) b" [Token.Build "ID" "a" 0; Token.Build "OP" ")" 1; Token.Build "ID" "b" 3;
                  Token.Build "EOF" "" 4] 2).
Proof.
  apply (expression_cannot_start_on 0
           (st "a) b" [Token.Build "ID" "a" 0; Token.Build "OP" ")" 1;
                       Token.Build "ID" "b" 3; Token.Build "EOF" "" 4] 2)
           (Token.Build "OP" ")" 1)); try discriminate. reflexivity.
Defined.

Section TrailingCommas.

Variable txt : string.
Variable toks : list Token.t.

Local Abbreviation st := (st txt toks).

Lemma st_lookahead (k : nat) (x : Token.t) (r : list Token.t) :
  skipn k toks = x :: r -> nth_error toks (S k - 1) = Some x.
Proof.
  intros H. replace (S k - 1) with k by lia. eapply skipn_cons_nth_error. eassumption.
Qed.

(** [args_loop] run over the arguments after the first one. *)
Lemma args_loop_steps (more : list (Token.t * Token.t)) :
  forall (nxt : Token.t) (suf : list Token.t) (k n : nat) (args : list Node),
    skipn k toks = (more_args_tokens more ++ nxt :: suf)%list ->
    more_args_ok more ->
    is_binary_op (Token.value nxt) = false -> (Token.value nxt =? "(") = false ->
    3 <= n ->
    args_loop (List.length more + n) args (st (S k))
    = args_loop n (args ++ map (fun ca => NId (Token.value (snd ca))) more)%list
        (st (S (k + List.length (more_args_tokens more)))).
Proof.
  induction more as [|[c a] more IH]; intros nxt suf k n args Hk Hmore Hb Hp Hn.
  - simpl. now rewrite app_nil_r, Nat.add_0_r.
  - inversion Hmore as [|? ? ((Hcty & _) & Ha) Hmore']; subst.
    cbn [fst snd] in Hcty, Ha. simpl in Hk.
    pose proof (skipn_cons_S _ _ _ _ Hk) as Hk1.
    pose proof (skipn_cons_S _ _ _ _ Hk1) as Hk2.
    destruct (more_args_head more nxt suf Hmore' Hb Hp) as (h & suf' & E & Hb' & Hp').
    rewrite E in Hk1.
    cbn [List.length Nat.add].
    rewrite args_loop_S, (current_at _ _ _ _ _ _ Hk), Hcty.
    cbn [String.eqb Ascii.eqb Bool.eqb].
    rewrite (consume_at _ _ _ _ _ "COMMA" _ Hk Hcty).
    erewrite bind_Ok
      by (apply (parse_expression_identifier txt toks a h suf' (S k)); auto; lia).
    rewrite (IH nxt suf (S (S k)) n _ Hk2 Hmore' Hb Hp Hn).
    simpl. rewrite <- app_assoc. simpl. do 2 f_equal. lia.
Qed.

(** [formals_loop] run over the parameters after the first one. *)
Lemma formals_loop_steps (more : list (Token.t * Token.t)) :
  forall (suf : list Token.t) (k n : nat) (formals : list string),
    skipn k toks = (more_args_tokens more ++ suf)%list ->
    more_args_ok more ->
    formals_loop (List.length more + n) formals (st (S k))
    = formals_loop n (formals ++ map (fun ca => Token.value (snd ca)) more)%list
        (st (S (k + List.length (more_args_tokens more)))).
Proof.
  induction more as [|[c a] more IH]; intros suf k n formals Hk Hmore.
  - simpl. now rewrite app_nil_r, Nat.add_0_r.
  - inversion Hmore as [|? ? ((Hcty & _) & (Haty & _)) Hmore']; subst.
    cbn [fst snd] in Hcty, Haty. simpl in Hk.
    pose proof (skipn_cons_S _ _ _ _ Hk) as Hk1.
    pose proof (skipn_cons_S _ _ _ _ Hk1) as Hk2.
    cbn [List.length Nat.add].
    rewrite formals_loop_S, (current_at _ _ _ _ _ _ Hk), Hcty.
    cbn [String.eqb Ascii.eqb Bool.eqb].
    rewrite (consume_at _ _ _ _ _ "COMMA" _ Hk Hcty).
    rewrite (consume_at _ _ _ _ _ "ID" _ Hk1 Haty).
    rewrite (IH suf (S (S k)) n _ Hk2 Hmore').
    simpl. rewrite <- app_assoc. simpl. do 2 f_equal. lia.
Qed.

(** A comma before the closing parenthesis of an argument list. *)
Lemma parse_function_application_trailing_comma (lpar a : Token.t)
  (more : list (Token.t * Token.t)) (comma rpar : Token.t) (suf : list Token.t)
  (k m : nat) (name : string) :
  skipn k toks = (lpar :: a :: more_args_tokens more ++ comma :: rpar :: suf)%list ->
  open_token lpar -> identifier_token a -> more_args_ok more ->
  comma_token comma -> close_token rpar ->
  parse_function_application (S (List.length more + S (3 + m))) name (st (S k))
  = Raise (SyntaxError (error_message "primary expression" rpar txt))
      (st (S (k + 3 + List.length (more_args_tokens more)))).
Proof.
  intros Hk (Hlty & _) Ha Hmore (Hcty & Hcv) (Hrty & Hrv).
  pose proof (skipn_cons_S _ _ _ _ Hk) as Hk1.
  pose proof (skipn_cons_S _ _ _ _ Hk1) as Hk2.
  assert (is_binary_op (Token.value comma) = false) as Hb by now rewrite Hcv.
  assert ((Token.value comma =? "(") = false) as Hp by now rewrite Hcv.
  destruct (more_args_head more comma (rpar :: suf) Hmore Hb Hp)
    as (h & suf' & E & Hb' & Hp').
  destruct (identifier_value a Ha) as (_ & _ & _ & Hclose).
  pose proof (skipn_app_more _ _ _ _ Hk2) as Hk3.
  pose proof (skipn_cons_S _ _ _ _ Hk3) as Hk4.
  rewrite parse_function_application_S, (consume_at _ _ _ _ _ "OP" _ Hk Hlty).
  rewrite (current_at _ _ _ _ _ _ Hk1), Hclose. cbn [negb].
  apply bind_Raise.
  erewrite bind_Ok
    by (apply (parse_expression_identifier txt toks a h suf' (S k));
        [rewrite <- E; exact Hk1|assumption..|lia]).
  rewrite (args_loop_steps more comma (rpar :: suf) (S (S k)) _ _ Hk2 Hmore Hb Hp)
    by lia.
  rewrite args_loop_S, (current_at _ _ _ _ _ _ Hk3), Hcty.
  cbn [String.eqb Ascii.eqb Bool.eqb].
  rewrite (consume_at _ _ _ _ _ "COMMA" _ Hk3 Hcty).
  apply bind_Raise.
  replace (S (k + 3 + List.length (more_args_tokens more)))
    with (S (S (S (S k) + List.length (more_args_tokens more)))) by lia.
  apply (parse_expression_bad_start m
           (st (S (S (S (S k) + List.length (more_args_tokens more))))) rpar).
  - exact (st_lookahead _ _ _ Hk4).
  - rewrite Hrty. discriminate.
  - rewrite Hrty. discriminate.
  - rewrite Hrv. discriminate.
  - rewrite Hrv. discriminate.
Qed.

(** A comma before the closing parenthesis of a parameter list. *)
Lemma parse_definition_trailing_comma (fn name lpar a : Token.t)
  (more : list (Token.t * Token.t)) (comma rpar : Token.t) (suf : list Token.t)
  (k m : nat) :
  skipn k toks
  = (fn :: name :: lpar :: a :: more_args_tokens more ++ comma :: rpar :: suf)%list ->
  keyword_token fn -> identifier_token name -> open_token lpar ->
  identifier_token a -> more_args_ok more -> comma_token comma -> close_token rpar ->
  parse_definition (List.length more + S m) (st (S k))
  = Raise (SyntaxError (error_message "ID" rpar txt))
      (st (S (k + 5 + List.length (more_args_tokens more)))).
Proof.
  intros Hk (Hfty & _) (Hnty & _) (Hlty & _) (Haty & _) Hmore (Hcty & _) (Hrty & _).
  pose proof (skipn_cons_S _ _ _ _ Hk) as Hk1.
  pose proof (skipn_cons_S _ _ _ _ Hk1) as Hk2.
  pose proof (skipn_cons_S _ _ _ _ Hk2) as Hk3.
  pose proof (skipn_cons_S _ _ _ _ Hk3) as Hk4.
  pose proof (skipn_app_more _ _ _ _ Hk4) as Hk5.
  pose proof (skipn_cons_S _ _ _ _ Hk5) as Hk6.
  unfold parse_definition.
  rewrite (consume_at _ _ _ _ _ "FN" _ Hk Hfty).
  rewrite (consume_at _ _ _ _ _ "ID" _ Hk1 Hnty).
  rewrite (consume_at _ _ _ _ _ "OP" _ Hk2 Hlty).
  rewrite (current_at _ _ _ _ _ _ Hk3), Haty. cbn [String.eqb Ascii.eqb Bool.eqb].
  apply bind_Raise.
  rewrite (consume_at _ _ _ _ _ "ID" _ Hk3 Haty).
  rewrite (formals_loop_steps more _ _ _ _ Hk4 Hmore).
  rewrite formals_loop_S, (current_at _ _ _ _ _ _ Hk5), Hcty.
  cbn [String.eqb Ascii.eqb Bool.eqb].
  rewrite (consume_at _ _ _ _ _ "COMMA" _ Hk5 Hcty).
  apply bind_Raise.
  replace (S (k + 5 + List.length (more_args_tokens more)))
    with (S (S (S (S (S (S k))) + List.length (more_args_tokens more)))) by lia.
  apply consume_st_error.
  - exact (st_lookahead _ _ _ Hk6).
  - rewrite Hrty. discriminate.
Qed.

End TrailingCommas.

Lemma more_args_tokens_length (more : list (Token.t * Token.t)) :
  List.length (more_args_tokens more) = 2 * List.length more.
Proof. induction more as [|ca more IH]; simpl; [reflexivity|]. rewrite IH. lia. Qed.

(** X15.  A comma before the closing parenthesis is rejected, whatever
    follows.  In a call the parser raises, on the closing parenthesis, the
    syntax error that expects a primary expression; in the parameter list
    of a definition it raises, on the closing parenthesis, the syntax error
    that expects [ID]. *)
Theorem trailing_comma_is_rejected (txt : string) (fn f lpar a : Token.t)
  (more : list (Token.t * Token.t)) (comma rpar : Token.t) (tl : list Token.t) :
  keyword_token fn -> identifier_token f -> open_token lpar -> identifier_token a ->
  more_args_ok more -> comma_token comma -> close_token rpar ->
  parse_tokens txt (f :: lpar :: a :: more_args_tokens more ++ comma :: rpar :: tl)%list
  = Raise (SyntaxError (error_message "primary expression" rpar txt))
      (st txt (f :: lpar :: a :: more_args_tokens more ++ comma :: rpar :: tl)%list
         (5 + List.length (more_args_tokens more)))
  /\ parse_tokens txt
       (fn :: f :: lpar :: a :: more_args_tokens more ++ comma :: rpar :: tl)%list
     = Raise (SyntaxError (error_message "ID" rpar txt))
         (st txt
            (fn :: f :: lpar :: a :: more_args_tokens more ++ comma :: rpar :: tl)%list
            (6 + List.length (more_args_tokens more))).
Proof.
  intros Hfn Hf Hl Ha Hmore Hc Hr. split.
  - set (toks := (f :: lpar :: a :: more_args_tokens more ++ comma :: rpar :: tl)%list).
    assert (List.length toks = 5 + 2 * List.length more + List.length tl) as Hlen.
    { unfold toks. simpl. rewrite length_app, more_args_tokens_length. simpl. lia. }
    assert (skipn 0 toks = f :: lpar :: (a :: more_args_tokens more
                                           ++ comma :: rpar :: tl)%list)
      as H0 by reflexivity.
    pose proof (skipn_cons_S _ _ _ _ H0) as H1.
    unfold parse_tokens, enough_fuel. rewrite Hlen, Parser_init_st.
    replace (3 * (5 + 2 * List.length more + List.length tl) + 4)
      with (S (S (S (S (S (List.length more
                           + S (3 + (10 + 5 * List.length more
                                     + 3 * List.length tl)))))))) by lia.
    unfold parse_program.
    destruct Hf as (Hfty & Hf').
    rewrite program_loop_S, (current_at _ _ _ _ _ _ H0), Hfty.
    cbn [String.eqb Ascii.eqb Bool.eqb negb].
    apply bind_Raise. rewrite parse_expression_S. apply bind_Raise.
    rewrite (parse_prefix_expression_call txt toks f lpar _ 0 _ H0
               (conj Hfty Hf') (proj2 Hl)).
    replace (5 + List.length (more_args_tokens more))
      with (S (1 + 3 + List.length (more_args_tokens more))) by lia.
    apply (parse_function_application_trailing_comma txt toks lpar a more comma rpar tl);
      assumption.
  - set (toks := (fn :: f :: lpar :: a :: more_args_tokens more
                    ++ comma :: rpar :: tl)%list).
    assert (List.length toks = 6 + 2 * List.length more + List.length tl) as Hlen.
    { unfold toks. simpl. rewrite length_app, more_args_tokens_length. simpl. lia. }
    assert (skipn 0 toks = toks) as H0 by reflexivity.
    unfold parse_tokens, enough_fuel. rewrite Hlen, Parser_init_st.
    replace (3 * (6 + 2 * List.length more + List.length tl) + 4)
      with (S (List.length more
               + S (20 + 5 * List.length more + 3 * List.length tl))) by lia.
    unfold parse_program.
    rewrite program_loop_S, (current_at _ _ _ _ _ _ H0), (proj1 Hfn).
    cbn [String.eqb Ascii.eqb Bool.eqb negb].
    apply bind_Raise.
    replace (6 + List.length (more_args_tokens more))
      with (S (0 + 5 + List.length (more_args_tokens more))) by lia.
    apply (parse_definition_trailing_comma txt toks fn f lpar a more comma rpar tl);
      assumption.
Qed.

Lemma trailing_comma_is_rejected_witness :
  parse_tokens "f(a,)"
    (Token.Build "ID" "f" 0 :: Token.Build "OP" "(" 1 :: Token.Build "ID" "a" 2
     :: more_args_tokens []
     ++ Token.Build "COMMA" "," 3 :: Token.Build "OP" ")" 4 :: [Token.Build "EOF" "" 5])%list
  = Raise
      (SyntaxError (error_message "primary expression" (Token.Build "OP" ")" 4) "f(a,)"))
      (st "f(a,)"
         (Token.Build "ID" "f" 0 :: Token.Build "OP" "(" 1 :: Token.Build "ID" "a" 2
          :: more_args_tokens []
          ++ Token.Build "COMMA" "," 3 :: Token.Build "OP" ")" 4
             :: [Token.Build "EOF" "" 5])%list
         (5 + List.length (more_args_tokens []))).
Proof.
  apply (trailing_comma_is_rejected "f(a,)" (Token.Build "FN" "fn" 0)
           (Token.Build "ID" "f" 0) (Token.Build "OP" "(" 1) (Token.Build "ID" "a" 2)
           [] (Token.Build "COMMA" "," 3) (Token.Build "OP" ")" 4)
           [Token.Build "EOF" "" 5]).
  - split; reflexivity.
  - concrete_identifier.
  - split; reflexivity.
  - concrete_identifier.
  - constructor.
  - split; reflexivity.
  - split; reflexivity.
Defined.

(** * The strings of the tree come from the tokens: supporting lemmas *)

Lemma token_text_in_intro (toks : list Token.t) (tok : Token.t) (ty : string) :
  In tok toks -> Token.type tok = ty -> token_text_in toks ty (Token.value tok) = true.
Proof.
  intros Hin Hty. unfold token_text_in. apply existsb_exists. exists tok.
  split; [assumption|]. now rewrite Hty, !String.eqb_refl.
Qed.

Lemma consume_keeps (ty : string) (p q : Parser) (tok : Token.t) :
  consume ty p = Ok tok q -> lookahead_in p ->
  In tok (Lexer.tokens (lexer p)) /\ Token.type tok = ty
  /\ Lexer.tokens (lexer q) = Lexer.tokens (lexer p) /\ lookahead_in q.
Proof.
  intros H Hp. apply consume_Ok_inv in H. destruct H as (Hcur & Hty & ->).
  repeat split; auto. intros t Ht. simpl in *.
  rewrite peek_nth_error in Ht. eapply nth_error_In. eassumption.
Qed.

Ltac use_consume :=
  match goal with
  | Hc : consume _ ?p = Ok _ _, Hl : lookahead_in ?p |- _ =>
      let H1 := fresh "Hin" in
      let H2 := fresh "Hty" in
      let H3 := fresh "Htoks" in
      let H4 := fresh "Hlook" in
      destruct (consume_keeps _ _ _ _ Hc Hl) as (H1 & H2 & H3 & H4); clear Hc
  end.

(** Using what is known of a call that returned: an induction hypothesis
    without a side condition, one with, and the chain of equal token
    lists. *)
Ltac use_call IH :=
  match goal with
  | Hc : _ = Ok _ _, Hl : lookahead_in _ |- _ =>
      let H1 := fresh "Htoks" in
      let H2 := fresh "Hlook" in
      let H3 := fresh "Hfrom" in
      destruct (IH _ _ _ Hl Hc) as ((H1 & H2) & H3); clear Hc
  end.

Ltac use_loop IH :=
  match goal with
  | Hc : _ = Ok _ _, Hl : lookahead_in _ |- _ =>
      let H0 := fresh "Hside" in
      let H1 := fresh "Htoks" in
      let H2 := fresh "Hlook" in
      let H3 := fresh "Hfrom" in
      pose proof (IH _ _ _ _ Hl Hc) as H0; clear Hc;
      match type of H0 with
      | ?P -> _ =>
          let Hp := fresh "Hpre" in
          assert P as Hp; [|destruct (H0 Hp) as ((H1 & H2) & H3); clear H0 Hp]
      end
  end.

Ltac same_tokens_list :=
  repeat match goal with
         | E : Lexer.tokens (lexer _) = Lexer.tokens (lexer _) |- _ =>
             try rewrite E in *; clear E
         end.

Lemma expression_grammar_from_tokens (n : nat) :
  (forall p e q, lookahead_in p -> parse_expression n p = Ok e q ->
                 kept_by p q /\ from_tokens (Lexer.tokens (lexer p)) e = true)
  /\ (forall left p e q, lookahead_in p ->
                         expression_loop n left p = Ok e q ->
                         from_tokens (Lexer.tokens (lexer p)) left = true ->
                         kept_by p q /\ from_tokens (Lexer.tokens (lexer p)) e = true)
  /\ (forall p e q, lookahead_in p -> parse_prefix_expression n p = Ok e q ->
                    kept_by p q /\ from_tokens (Lexer.tokens (lexer p)) e = true)
  /\ (forall p e q, lookahead_in p -> parse_primary_expression n p = Ok e q ->
                    kept_by p q /\ from_tokens (Lexer.tokens (lexer p)) e = true)
  /\ (forall name p e q, lookahead_in p ->
                         parse_function_application n name p = Ok e q ->
                         token_text_in (Lexer.tokens (lexer p)) "ID" name = true ->
                         kept_by p q /\ from_tokens (Lexer.tokens (lexer p)) e = true)
  /\ (forall args p r q, lookahead_in p -> args_loop n args p = Ok r q ->
                         forallb (from_tokens (Lexer.tokens (lexer p))) args = true ->
                         kept_by p q
                         /\ forallb (from_tokens (Lexer.tokens (lexer p))) r = true).
Proof.
  unfold kept_by.
  induction n as [|n (IHE & IHL & IHP & IHQ & IHA & IHG)].
  - split; [|split; [|split; [|split; [|split]]]]; intros; discriminate.
  - split; [|split; [|split; [|split; [|split]]]].
    + intros p e q Hp H. rewrite parse_expression_S in H. invert_Ok.
      use_call IHP. use_loop IHL; [now same_tokens_list|].
      same_tokens_list. auto.
    + intros left p e q Hp H Hleft. rewrite expression_loop_S in H.
      invert_Ok; [|auto]. use_consume. use_call IHP.
      use_loop IHL.
      * same_tokens_list. simpl.
        rewrite Hleft, (token_text_in_intro _ _ "OP") by assumption. simpl. assumption.
      * same_tokens_list. auto.
    + intros p e q Hp H. rewrite parse_prefix_expression_S in H. invert_Ok.
      * use_consume. use_call IHP. same_tokens_list. auto.
      * eauto.
    + intros p e q Hp H. rewrite parse_primary_expression_S in H. invert_Ok.
      * use_consume. same_tokens_list. simpl.
        rewrite (token_text_in_intro _ _ "BOOL"); auto.
      * use_consume. use_loop IHA.
        { same_tokens_list. now apply token_text_in_intro. }
        same_tokens_list. auto.
      * use_consume. same_tokens_list. simpl.
        rewrite (token_text_in_intro _ _ "ID"); auto.
      * use_consume. use_call IHE. use_consume. same_tokens_list. auto.
    + intros name p e q Hp H Hname. rewrite parse_function_application_S in H.
      invert_Ok.
      * use_consume. use_call IHE. use_loop IHG.
        { same_tokens_list. simpl. now rewrite andb_true_r. }
        use_consume. same_tokens_list. simpl. rewrite Hname. auto.
      * use_consume. use_consume. same_tokens_list. simpl. rewrite Hname. auto.
    + intros args p r q Hp H Hargs. rewrite args_loop_S in H. invert_Ok; [|auto].
      use_consume. use_call IHE. use_loop IHG.
      * same_tokens_list. rewrite forallb_app, Hargs. simpl. now rewrite andb_true_r.
      * same_tokens_list. auto.
Qed.

Lemma formals_loop_from_tokens (n : nat) :
  forall formals p r q,
    lookahead_in p -> formals_loop n formals p = Ok r q ->
    forallb (token_text_in (Lexer.tokens (lexer p)) "ID") formals = true ->
    kept_by p q /\ forallb (token_text_in (Lexer.tokens (lexer p)) "ID") r = true.
Proof.
  unfold kept_by. induction n as [|n IH]; intros formals p r q Hp H Hformals;
    [discriminate|].
  rewrite formals_loop_S in H. invert_Ok; [|auto].
  use_consume. use_consume. use_loop IH.
  - same_tokens_list. rewrite forallb_app, Hformals. simpl.
    rewrite (token_text_in_intro _ _ "ID"); auto.
  - same_tokens_list. auto.
Qed.

Lemma parse_definition_from_tokens (n : nat) (p q : Parser) (e : Node) :
  lookahead_in p -> parse_definition n p = Ok e q ->
  kept_by p q /\ from_tokens (Lexer.tokens (lexer p)) e = true.
Proof.
  pose proof (proj1 (expression_grammar_from_tokens n)) as IHE.
  pose proof (formals_loop_from_tokens n) as IHF.
  unfold kept_by. intros Hp H. unfold parse_definition in H. invert_Ok.
  - do 4 use_consume. use_loop IHF.
    { same_tokens_list. simpl. rewrite (token_text_in_intro _ _ "ID"); auto. }
    use_consume. use_call IHE. same_tokens_list. simpl.
    rewrite (token_text_in_intro _ _ "ID") by assumption. simpl.
    match goal with E : forallb _ _ = true |- _ => rewrite E end. auto.
  - do 4 use_consume. use_call IHE. same_tokens_list. simpl.
    rewrite (token_text_in_intro _ _ "ID") by assumption. auto.
Qed.

Lemma program_loop_from_tokens (n : nat) :
  forall result p r q,
    lookahead_in p -> program_loop n result p = Ok r q ->
    forallb (from_tokens (Lexer.tokens (lexer p))) result = true ->
    kept_by p q /\ forallb (from_tokens (Lexer.tokens (lexer p))) r = true.
Proof.
  unfold kept_by. induction n as [|n IH]; intros result p r q Hp H Hres;
    [discriminate|].
  pose proof (proj1 (expression_grammar_from_tokens n)) as IHE'.
  pose proof (parse_definition_from_tokens n) as IHD.
  rewrite program_loop_S in H. invert_Ok; [| |auto].
  - use_call IHD. use_loop IH.
    + same_tokens_list. rewrite forallb_app, Hres. simpl. now rewrite andb_true_r.
    + same_tokens_list. auto.
  - use_call IHE'. use_loop IH.
    + same_tokens_list. rewrite forallb_app, Hres. simpl. now rewrite andb_true_r.
    + same_tokens_list. auto.
Qed.

(** * The strings of the tree come from the tokens *)

(** X16.  The parser invents no string.  In a returned program every name
    of a definition, formal, identifier or application is the text of an
    [ID] token of the input, every literal value the text of a [BOOL]
    token, and every tag of a binary node the text of an [OP] token. *)
Theorem tree_strings_come_from_tokens (n : nat) (txt : string) (toks : list Token.t)
  (program : list Node) (q : Parser) :
  parse_program n (Parser_init (Lexer.Build txt 0 toks)) = Ok program q ->
  forallb (from_tokens toks) program = true.
Proof.
  intros H. rewrite Parser_init_st in H.
  assert (lookahead_in (st txt toks 1)) as Hp.
  { intros tok Htok. unfold st in *. cbn [current_token lexer Lexer.tokens] in *.
    eapply nth_error_In. exact Htok. }
  exact (proj2 (program_loop_from_tokens n [] _ _ _ Hp H eq_refl)).
Qed.

Lemma tree_strings_come_from_tokens_witness :
  forallb
    (from_tokens
       [Token.Build "ID" "f" 0; Token.Build "OP" "(" 1; Token.Build "BOOL" "true" 2;
        Token.Build "OP" ")" 6; Token.Build "OP" "&" 8; Token.Build "ID" "x" 10;
        Token.Build "EOF" "" 11])
    [NBin (NApp [NBool "true"] "f") (NId "x") "&"] = true.
Proof.
  apply (tree_strings_come_from_tokens 30 "f(true) & x"
           [Token.Build "ID" "f" 0; Token.Build "OP" "(" 1; Token.Build "BOOL" "true" 2;
            Token.Build "OP" ")" 6; Token.Build "OP" "&" 8; Token.Build "ID" "x" 10;
            Token.Build "EOF" "" 11]
           [NBin (NApp [NBool "true"] "f") (NId "x") "&"]
           (st "f(true) & x"
              [Token.Build "ID" "f" 0; Token.Build "OP" "(" 1;
               Token.Build "BOOL" "true" 2; Token.Build "OP" ")" 6;
               Token.Build "OP" "&" 8; Token.Build "ID" "x" 10;
               Token.Build "EOF" "" 11] 7)).
  vm_compute. reflexivity.
Defined.

(** * A parenthesis left open *)

(** X17.  A parenthesis that is still open at the end of the input is
    reported on the end-of-input token: on the tokens of an opening
    parenthesis and a chain, the parser reads the whole chain and raises
    the syntax error that expects [OP], built from the end-of-input
    token. *)
Theorem open_parenthesis_at_end_of_input (txt : string) (lpar : Token.t)
  (first : operand) (rest : list (Token.t * operand)) (eof : Token.t) :
  open_token lpar -> operand_ok first -> chain_rest_ok rest -> end_token eof ->
  parse_tokens txt (lpar :: operand_tokens first ++ chain_rest_tokens rest ++ [eof])%list
  = Raise (SyntaxError (error_message "OP" eof txt))
      (st txt (lpar :: operand_tokens first ++ chain_rest_tokens rest ++ [eof])%list
         (List.length (operand_tokens first) + List.length (chain_rest_tokens rest) + 2)).
Proof.
  intros (Hlty & Hlv) Hfirst Hrest (Hety & Hev).
  set (toks := (lpar :: operand_tokens first ++ chain_rest_tokens rest ++ [eof])%list).
  assert (List.length toks
          = List.length (operand_tokens first) + List.length (chain_rest_tokens rest) + 2)
    as Hlen by (unfold toks; simpl; rewrite !length_app; simpl; lia).
  assert (skipn 0 toks
          = (lpar :: operand_tokens first ++ chain_rest_tokens rest ++ eof :: [])%list)
    as H0 by reflexivity.
  pose proof (skipn_cons_S _ _ _ _ H0) as H1.
  assert (skipn (1 + List.length (operand_tokens first)
                 + List.length (chain_rest_tokens rest)) toks = [eof]) as Hk.
  { pose proof H1 as H. rewrite app_assoc in H. apply skipn_app_more in H.
    rewrite length_app, Nat.add_assoc in H. exact H. }
  unfold parse_tokens, enough_fuel. rewrite Hlen, Parser_init_st.
  replace (3 * (List.length (operand_tokens first)
                + List.length (chain_rest_tokens rest) + 2) + 4)
    with (S (S (S (S (3 * (List.length (operand_tokens first)
                           + List.length (chain_rest_tokens rest)) + 6))))) by lia.
  unfold parse_program.
  rewrite program_loop_S, (current_at _ _ _ _ _ _ H0), Hlty.
  cbn [String.eqb Ascii.eqb Bool.eqb negb].
  apply bind_Raise. rewrite parse_expression_S. apply bind_Raise.
  rewrite parse_prefix_expression_S, (current_at _ _ _ _ _ _ H0), Hlv.
  cbn [String.eqb Ascii.eqb Bool.eqb].
  rewrite parse_primary_expression_S, (current_at _ _ _ _ _ _ H0), Hlty, Hlv.
  cbn [String.eqb Ascii.eqb Bool.eqb].
  rewrite (consume_at _ _ _ _ _ "OP" _ H0 Hlty).
  erewrite bind_Ok
    by (apply (parse_expression_chain txt toks first rest eof [] 1);
        [exact H1|assumption|assumption|now rewrite Hev|now rewrite Hev|lia]).
  apply bind_Raise.
  replace (List.length (operand_tokens first) + List.length (chain_rest_tokens rest) + 2)
    with (S (1 + List.length (operand_tokens first)
             + List.length (chain_rest_tokens rest))) by lia.
  apply consume_st_error.
  - replace (S (1 + List.length (operand_tokens first)
                + List.length (chain_rest_tokens rest)) - 1)
      with (1 + List.length (operand_tokens first)
            + List.length (chain_rest_tokens rest)) by lia.
    eapply skipn_cons_nth_error. exact Hk.
  - rewrite Hety. discriminate.
Qed.

Lemma open_parenthesis_at_end_of_input_witness :
  parse_tokens "(a"
    (Token.Build "OP" "(" 0 :: operand_tokens ([], Token.Build "ID" "a" 1)
     ++ chain_rest_tokens [] ++ [Token.Build "EOF" "" 2])%list
  = Raise (SyntaxError (error_message "OP" (Token.Build "EOF" "" 2) "(a"))
      (st "(a"
         (Token.Build "OP" "(" 0 :: operand_tokens ([], Token.Build "ID" "a" 1)
          ++ chain_rest_tokens [] ++ [Token.Build "EOF" "" 2])%list
         (List.length (operand_tokens ([], Token.Build "ID" "a" 1))
          + List.length (chain_rest_tokens []) + 2)).
Proof.
  apply (open_parenthesis_at_end_of_input "(a" (Token.Build "OP" "(" 0)
           ([], Token.Build "ID" "a" 1) [] (Token.Build "EOF" "" 2)).
  - split; reflexivity.
  - split; [constructor|concrete_identifier].
  - constructor.
  - split; reflexivity.
Defined.

(** * An illegal character outside a comment: supporting lemmas *)








(** Outside a comment one stays outside as long as no [#] is read. *)
Lemma in_comment_after_weaken (s : string) :
  forall b, in_comment_after b s = false -> in_comment_after false s = false.
Proof.
  induction s as [|x s IH]; intros b H; simpl in *; [reflexivity|].
  destruct (Ascii.eqb x "#"); [assumption|].
  destruct (Ascii.eqb x "010"); [assumption|]. eauto.
Qed.










(** * An illegal character outside a comment *)



